(** * A treap with parent back-links: shallow embedding of [treap.c]

    The C program keeps its nodes in malloc'ed memory and links them with
    three pointers per node ([L], [R], [P]).  The embedding keeps that
    shape: node memory is a finite map from addresses to node records, a
    pointer is an optional address ([None] is [NULL]), and every C function
    is a computation in a small state-and-failure monad.  Loops carry a fuel
    argument that bounds the number of times the loop condition is
    evaluated. *)

From Stdlib Require Import NArith Lia.
From stdpp Require Import base tactics option list gmap.

Open Scope N_scope.

(** ** Memory model *)

Definition addr := positive.

(** A [treap_node_t *]: [None] is [NULL]. *)
Definition ptr := option addr.

(** [struct treap_node].  Both keys are [unsigned int]; the program only
    ever compares them, so they are modelled as naturals with the plain
    order. *)
Record treap_node := mkNode {
  treeKey : N;
  heapKey : N;
  L : ptr;
  R : ptr;
  P : ptr
}.

(** The node memory together with the single field of [struct treap]. *)
Record state := mkState {
  mem : gmap addr treap_node;
  root : ptr
}.

Definition set_treeKey (k : N) (n : treap_node) : treap_node :=
  mkNode k (heapKey n) (L n) (R n) (P n).
Definition set_heapKey (h : N) (n : treap_node) : treap_node :=
  mkNode (treeKey n) h (L n) (R n) (P n).
Definition set_L (v : ptr) (n : treap_node) : treap_node :=
  mkNode (treeKey n) (heapKey n) v (R n) (P n).
Definition set_R (v : ptr) (n : treap_node) : treap_node :=
  mkNode (treeKey n) (heapKey n) (L n) v (P n).
Definition set_P (v : ptr) (n : treap_node) : treap_node :=
  mkNode (treeKey n) (heapKey n) (L n) (R n) v.

(** ** The monad of C computations *)

(** A computation either finishes with a value and a new state, faults
    (a [NULL] or dangling pointer is dereferenced), or runs out of fuel. *)
Inductive outcome (A : Type) : Type :=
| Done (a : A) (s : state)
| Fault
| Timeout.
Arguments Done {A} a s.
Arguments Fault {A}.
Arguments Timeout {A}.

Definition M (A : Type) : Type := state → outcome A.

Definition ret {A} (a : A) : M A := λ s, Done a s.

Definition bind {A B} (c : M A) (k : A → M B) : M B :=
  λ s, match c s with
       | Done a s' => k a s'
       | Fault => Fault
       | Timeout => Timeout
       end.

Definition fault {A} : M A := λ _, Fault.
Definition timeout {A} : M A := λ _, Timeout.

Declare Scope treap_scope.
Delimit Scope treap_scope with treap.
Notation "'let*' x ':=' c 'in' k" := (bind c (λ x, k))
  (at level 10, x name, c at level 100, k at level 200,
   format "'[v' 'let*'  x  ':='  c  'in' '/' k ']'") : treap_scope.
Notation "c '>>' k" := (bind c (λ _, k))
  (at level 100, k at level 200, right associativity) : treap_scope.
Open Scope treap_scope.

(** [p->f] as an rvalue. *)
Definition rd {X} (p : ptr) (f : treap_node → X) : M X :=
  λ s, match p with
       | None => Fault
       | Some a => match mem s !! a with
                   | Some n => Done (f n) s
                   | None => Fault
                   end
       end.

(** [p->f = v], with [upd] the field update. *)
Definition wr (p : ptr) (upd : treap_node → treap_node) : M unit :=
  λ s, match p with
       | None => Fault
       | Some a => match mem s !! a with
                   | Some n => Done tt (mkState (<[a := upd n]> (mem s)) (root s))
                   | None => Fault
                   end
       end.

(** [treap->root] as an rvalue and as an lvalue. *)
Definition get_root : M ptr := λ s, Done (root s) s.
Definition set_root (v : ptr) : M unit := λ s, Done tt (mkState (mem s) v).

(** [malloc]: the block handed out is an argument of the model; it has to
    be a block that is not in use. *)
Definition malloc (nw : addr) : M ptr :=
  λ s, match mem s !! nw with
       | None => Done (Some nw)
                   (mkState (<[nw := mkNode 0 0 None None None]> (mem s)) (root s))
       | Some _ => Fault
       end.

(** A [treap_node_t **]: the location [inPointer] designates. *)
Inductive slot : Type :=
| RootSlot
| LSlot (p : ptr)
| RSlot (p : ptr).

(** [*inPointer = v]. *)
Definition wr_slot (i : slot) (v : ptr) : M unit :=
  match i with
  | RootSlot => set_root v
  | LSlot p => wr p (set_L v)
  | RSlot p => wr p (set_R v)
  end.

(** ** The program *)

(** [treapRotate]. *)
Definition treapRotate (root pivot : ptr) : M unit :=
  let* pk := rd pivot treeKey in
  let* rk := rd root treeKey in
  (if pk <? rk then
     (* Right-rotation *)
     let* pr := rd pivot R in
     (match pr with
      | Some _ => wr pr (set_P root)
      | None => ret tt
      end) >>
     let* pr := rd pivot R in
     wr root (set_L pr) >>
     wr pivot (set_R root)
   else
     (* Left-rotation *)
     let* pl := rd pivot L in
     (match pl with
      | Some _ => wr pl (set_P root)
      | None => ret tt
      end) >>
     let* pl := rd pivot L in
     wr root (set_R pl) >>
     wr pivot (set_L root)) >>
  (* Ops common to both rotations *)
  let* rp := rd root P in
  wr pivot (set_P rp) >>
  let* rp := rd root P in
  (match rp with
   | None => set_root pivot
   | Some _ =>
       let* rk := rd root treeKey in
       let* gk := rd rp treeKey in
       if rk <? gk then wr rp (set_L pivot) else wr rp (set_R pivot)
   end) >>
  wr root (set_P pivot).

(** The [while] loop of [treapFind]. *)
Fixpoint find_loop (fuel : nat) (key : N) (cur : ptr) : M ptr :=
  match fuel with
  | O => timeout
  | S fuel' =>
      match cur with
      | None => ret None
      | Some _ =>
          let* ck := rd cur treeKey in
          if key <? ck then
            let* nx := rd cur L in find_loop fuel' key nx
          else if ck <? key then
            let* nx := rd cur R in find_loop fuel' key nx
          else ret cur
      end
  end.

(** [treapFind]. *)
Definition treapFind (fuel : nat) (key : N) : M ptr :=
  let* cur := get_root in
  find_loop fuel key cur.

(** [treapUsurpingFind]. *)
Definition treapUsurpingFind (fuel : nat) (key : N) : M ptr :=
  let* cur := treapFind fuel key in
  (match cur with
   | None => ret tt
   | Some _ =>
       let* cp := rd cur P in
       match cp with
       | None => ret tt
       | Some _ =>
           let* tempKey := rd cur heapKey in
           let* cp := rd cur P in
           let* ph := rd cp heapKey in
           wr cur (set_heapKey ph) >>
           let* cp := rd cur P in
           wr cp (set_heapKey tempKey) >>
           let* cp := rd cur P in
           treapRotate cp cur
       end
   end) >>
  ret cur.

(** The seek loop of [treapAppend]:
    [while((next = (key < cur->treeKey)?cur->L:cur->R) != NULL) cur = next;] *)
Fixpoint append_seek (fuel : nat) (key : N) (cur : ptr) : M ptr :=
  match fuel with
  | O => timeout
  | S fuel' =>
      let* ck := rd cur treeKey in
      let* next := (if key <? ck then rd cur L else rd cur R) in
      match next with
      | Some _ => append_seek fuel' key next
      | None => ret cur
      end
  end.

(** The priority-rotation loop of [treapAppend]. *)
Fixpoint append_bubble (fuel : nat) (newNode : ptr) : M unit :=
  match fuel with
  | O => timeout
  | S fuel' =>
      let* np := rd newNode P in
      match np with
      | None => ret tt
      | Some _ =>
          let* nh := rd newNode heapKey in
          let* ph := rd np heapKey in
          if ph <? nh then
            (let* np := rd newNode P in treapRotate np newNode) >>
            append_bubble fuel' newNode
          else ret tt
      end
  end.

(** The second half of [treapAppend], from the call of [rand] on.  [heapKey]
    is the value [rand] returns and [nw] the block [malloc] returns. *)
Definition append_new (fuel : nat) (key heapKey : N) (nw : addr)
    (cur : ptr) (inPointer : slot) : M ptr :=
  let* newNode := malloc nw in
  wr newNode (set_P cur) >>
  wr newNode (set_L None) >>
  wr newNode (set_R None) >>
  wr newNode (set_treeKey key) >>
  wr newNode (set_heapKey heapKey) >>
  wr_slot inPointer newNode >>
  append_bubble fuel newNode >>
  ret newNode.

(** [treapAppend]. *)
Definition treapAppend (fuel : nat) (key heapKey : N) (nw : addr) : M ptr :=
  let* cur := get_root in
  match cur with
  | Some _ =>
      let* cur := append_seek fuel key cur in
      let* ck := rd cur treeKey in
      if key =? ck then
        (* Desired node already exists *)
        ret cur
      else
        let* ck := rd cur treeKey in
        append_new fuel key heapKey nw cur
          (if key <? ck then LSlot cur else RSlot cur)
  | None => append_new fuel key heapKey nw cur RootSlot
  end.

(** The down-swap loop of [treapDecouple]. *)
Fixpoint decouple_loop (fuel : nat) (node : ptr) : M unit :=
  match fuel with
  | O => timeout
  | S fuel' =>
      let* nl := rd node L in
      match nl with
      | None => ret tt
      | Some _ =>
          let* nr := rd node R in
          match nr with
          | None => ret tt
          | Some _ =>
              let* lh := rd nl heapKey in
              let* rh := rd nr heapKey in
              (if rh <? lh then
                 (* Swap with Left Child *)
                 let* nl := rd node L in treapRotate node nl
               else
                 (* Swap with Right Child *)
                 let* nr := rd node R in treapRotate node nr) >>
              decouple_loop fuel' node
          end
      end
  end.

(** The splice of [treapDecouple], after the loop. *)
Definition decouple_splice (node : ptr) : M unit :=
  let* np := rd node P in
  let* inPointer :=
    (match np with
     | None => ret RootSlot
     | Some _ =>
         let* nk := rd node treeKey in
         let* pk := rd np treeKey in
         ret (if nk <? pk then LSlot np else RSlot np)
     end) in
  let* nr := rd node R in
  match nr with
  | Some _ =>
      (* Right Child Case *)
      wr_slot inPointer nr >>
      let* nr := rd node R in
      let* np := rd node P in
      wr nr (set_P np)
  | None =>
      let* nl := rd node L in
      match nl with
      | Some _ =>
          (* Left Child Case *)
          wr_slot inPointer nl >>
          let* nl := rd node L in
          let* np := rd node P in
          wr nl (set_P np)
      | None =>
          (* Leaf Case *)
          wr_slot inPointer None
      end
  end.

(** [treapDecouple]. *)
Definition treapDecouple (fuel : nat) (node : ptr) : M unit :=
  decouple_loop fuel node >>
  decouple_splice node.

(** ** Abstract trees

    The shape a well-formed node memory has.  A tree node records the
    address of the C node it stands for, its search key and its priority. *)

Inductive tree : Type :=
| Nil
| Bin (l : tree) (a : addr) (k h : N) (r : tree).

(** The pointer to the root node of a tree. *)
Definition tptr (t : tree) : ptr :=
  match t with
  | Nil => None
  | Bin _ a _ _ _ => Some a
  end.

(** In-order traversals: addresses, keys. *)
Fixpoint addrs (t : tree) : list addr :=
  match t with
  | Nil => []
  | Bin l a _ _ r => addrs l ++ a :: addrs r
  end.

Fixpoint keys (t : tree) : list N :=
  match t with
  | Nil => []
  | Bin l _ k _ r => keys l ++ k :: keys r
  end.

Fixpoint size (t : tree) : nat :=
  match t with
  | Nil => O
  | Bin l _ _ _ r => S (size l + size r)
  end.

(** Number of nodes on the longest path from the root. *)
Fixpoint height (t : tree) : nat :=
  match t with
  | Nil => O
  | Bin l _ _ _ r => S (Nat.max (height l) (height r))
  end.

(** [repr m p t]: the memory [m] holds the tree [t], node for node, and the
    root node of [t] has parent link [p] (back-link consistency). *)
Fixpoint repr (m : gmap addr treap_node) (p : ptr) (t : tree) : Prop :=
  match t with
  | Nil => True
  | Bin l a k h r =>
      m !! a = Some (mkNode k h (tptr l) (tptr r) p)
      ∧ repr m (Some a) l ∧ repr m (Some a) r
  end.

(** The state is the treap [t]: the root slot points to the root of [t],
    whose parent link is [NULL]. *)
Definition models (s : state) (t : tree) : Prop :=
  root s = tptr t ∧ repr (mem s) None t.

(** Search order.  With [strict = true] this is invariant 1 of the data
    model (and with it invariant 4, uniqueness of keys); with
    [strict = false] keys equal to a node's key are allowed in its right
    subtree, which is where the seek of [treapAppend] goes on an equal
    key. *)
Definition right_of (strict : bool) (k x : N) : Prop :=
  if strict then k < x else k ≤ x.

Fixpoint bst_by (strict : bool) (t : tree) : Prop :=
  match t with
  | Nil => True
  | Bin l _ k _ r =>
      Forall (λ x, x < k) (keys l) ∧ Forall (right_of strict k) (keys r)
      ∧ bst_by strict l ∧ bst_by strict r
  end.

Definition bst : tree → Prop := bst_by true.
Definition wbst : tree → Prop := bst_by false.

(** Strictly ascending key sequences. *)
Fixpoint ascending (l : list N) : Prop :=
  match l with
  | [] => True
  | x :: l' => Forall (λ y, x < y) l' ∧ ascending l'
  end.

(** Heap order: the priority of a node is at least that of each child. *)
Definition prio_le (t : tree) (h : N) : Prop :=
  match t with
  | Nil => True
  | Bin _ _ _ h' _ => h' ≤ h
  end.

Fixpoint heap_ord (t : tree) : Prop :=
  match t with
  | Nil => True
  | Bin l _ _ h r => prio_le l h ∧ prio_le r h ∧ heap_ord l ∧ heap_ord r
  end.

(** The data-model invariants of a treap state. *)
Definition Inv (s : state) (t : tree) : Prop :=
  models s t ∧ bst t ∧ heap_ord t.

(** ** Tree contexts

    A path from a hole up to the root: each frame is the parent node the
    hole (or the frame below) hangs from, with the sibling subtree. *)
Inductive frame : Type :=
| FL (a : addr) (k h : N) (r : tree)   (* the hole is the left child *)
| FR (l : tree) (a : addr) (k h : N).  (* the hole is the right child *)

Definition ctx := list frame.

(** The address of the node of a frame; a frame around a tree; a context
    around a tree. *)
Definition faddr (f : frame) : addr :=
  match f with
  | FL a _ _ _ => a
  | FR _ a _ _ => a
  end.

Definition fill (f : frame) (t : tree) : tree :=
  match f with
  | FL a k h r => Bin t a k h r
  | FR l a k h => Bin l a k h t
  end.

Fixpoint plug (c : ctx) (t : tree) : tree :=
  match c with
  | [] => t
  | f :: c' => plug c' (fill f t)
  end.

(** The parent link of the hole. *)
Definition cptr (c : ctx) : ptr :=
  match c with
  | [] => None
  | f :: _ => Some (faddr f)
  end.

(** The root pointer of [plug c t] when [o] points to the root of [t]. *)
Fixpoint ctx_root (c : ctx) (o : ptr) : ptr :=
  match c with
  | [] => o
  | f :: c' => ctx_root c' (Some (faddr f))
  end.

(** The addresses a frame and a context hold. *)
Definition faddrs (f : frame) : list addr :=
  match f with
  | FL a _ _ r => a :: addrs r
  | FR l a _ _ => a :: addrs l
  end.

Fixpoint caddrs (c : ctx) : list addr :=
  match c with
  | [] => []
  | f :: c' => faddrs f ++ caddrs c'
  end.

(** [repr_ctx m c o]: the memory holds the context [c], with the child slot
    of the hole holding the pointer [o]. *)
Fixpoint repr_ctx (m : gmap addr treap_node) (c : ctx) (o : ptr) : Prop :=
  match c with
  | [] => True
  | FL a k h r :: c' =>
      m !! a = Some (mkNode k h o (tptr r) (cptr c'))
      ∧ repr m (Some a) r ∧ repr_ctx m c' (Some a)
  | FR l a k h :: c' =>
      m !! a = Some (mkNode k h (tptr l) o (cptr c'))
      ∧ repr m (Some a) l ∧ repr_ctx m c' (Some a)
  end.

(** Depth of the node at address [x]: number of links from the root. *)
Fixpoint depth_in (x : addr) (t : tree) : option nat :=
  match t with
  | Nil => None
  | Bin l a _ _ r =>
      if decide (a = x) then Some O
      else match depth_in x l with
           | Some d => Some (S d)
           | None => S <$> depth_in x r
           end
  end.

(** Disjointness of address lists. *)
Definition disj (l k : list addr) : Prop := ∀ x, x ∈ l → x ∉ k.

(** Which side of a frame a key belongs to, by the comparison the program
    makes. *)
Definition side_ok (f : frame) (k : N) : Prop :=
  match f with
  | FL _ gk _ _ => k < gk
  | FR _ _ gk _ => ¬ k < gk
  end.

Definition slot_ok (c : ctx) (k : N) : Prop :=
  match c with
  | [] => True
  | f :: _ => side_ok f k
  end.

(** The node the search of [treapFind] stops at. *)
Fixpoint tfind (key : N) (t : tree) : ptr :=
  match t with
  | Nil => None
  | Bin l a k _ r =>
      if key <? k then tfind key l
      else if k <? key then tfind key r
      else Some a
  end.

(** [a] is a node of the treap [t] held by [s], and its search key is [k]. *)
Definition has_key (s : state) (t : tree) (a : addr) (k : N) : Prop :=
  (a ∈ addrs t) ∧ ∃ n, mem s !! a = Some n ∧ treeKey n = k.

(** ** Abstract promotion *)

(** The subtree [treapUsurpingFind] leaves in the place of the frame [f]
    and the node [Bin l a k h r] below it: the two priorities are swapped
    and the node is rotated above its parent. *)
Definition usurped (f : frame) (l : tree) (a : addr) (k h : N) (r : tree) : tree :=
  match f with
  | FL g gk gh gr => Bin l a k gh (Bin r g gk h gr)
  | FR gl g gk gh => Bin (Bin gl g gk h l) a k gh r
  end.

(** [n] calls of [treapUsurpingFind] for the same key in a row, as in the
    locality test of the source. *)
Fixpoint usurp_times (n : nat) (fuel : nat) (key : N) : M unit :=
  match n with
  | O => ret tt
  | S n' => treapUsurpingFind fuel key >> usurp_times n' fuel key
  end.

(** A frame with its priority replaced. *)
Definition fset_prio (h : N) (f : frame) : frame :=
  match f with
  | FL g gk _ gr => FL g gk h gr
  | FR gl g gk _ => FR gl g gk h
  end.

(** ** Abstract insertion *)

(** Key and priority of the node of a frame. *)
Definition fkey (f : frame) : N :=
  match f with
  | FL _ k _ _ => k
  | FR _ _ k _ => k
  end.

Definition fprio (f : frame) : N :=
  match f with
  | FL _ _ h _ => h
  | FR _ _ _ h => h
  end.

(** The path the seek loop of [treapAppend] walks through [t], pushed on
    [c]: left on [key < k], right otherwise. *)
Fixpoint seek (key : N) (t : tree) (c : ctx) : ctx :=
  match t with
  | Nil => c
  | Bin l a k h r =>
      if key <? k then seek key l (FL a k h r :: c)
      else seek key r (FR l a k h :: c)
  end.

(** The rotations of the priority loop of [treapAppend] on the node
    [Bin l a k h r] below the path [c]. *)
Fixpoint bubble (c : ctx) (l : tree) (a : addr) (k h : N) (r : tree) : tree :=
  match c with
  | [] => Bin l a k h r
  | f :: c' =>
      if fprio f <? h then
        match f with
        | FL g gk gh gr => bubble c' l a k h (Bin r g gk gh gr)
        | FR gl g gk gh => bubble c' (Bin gl g gk gh l) a k h r
        end
      else plug c (Bin l a k h r)
  end.

(** Every frame of a path has the key on the side the comparison says. *)
Definition path_ok (key : N) (c : ctx) : Prop := Forall (λ f, side_ok f key) c.

(** Every frame of a path hangs on the side of the next one that the
    comparison of their keys says. *)
Fixpoint chain_ok (c : ctx) : Prop :=
  match c with
  | [] => True
  | f :: c' => slot_ok c' (fkey f) ∧ chain_ok c'
  end.

(** The tree [treapAppend] leaves, and the handle it returns. *)
Definition appended (key hk : N) (nw : addr) (t : tree) : tree :=
  match seek key t [] with
  | f :: c' =>
      if key =? fkey f then t else bubble (f :: c') Nil nw key hk Nil
  | [] => Bin Nil nw key hk Nil
  end.

Definition append_handle (key : N) (nw : addr) (t : tree) : ptr :=
  match seek key t [] with
  | f :: c' => if key =? fkey f then Some (faddr f) else Some nw
  | [] => Some nw
  end.

(** ** Heap order around a hole

    While [treapDecouple] rotates its node down, the node itself is the one
    place where heap order may fail.  [hole_heap c l r] says that the rest is
    in order: the two subtrees of the node are, and so is the treap with the
    node replaced by any heap-ordered tree whose root priority is bounded by
    those of [l] and [r]. *)
Definition prio_bound (x l r : tree) : Prop :=
  ∀ hmax, prio_le l hmax → prio_le r hmax → prio_le x hmax.

Definition hole_heap (c : ctx) (l r : tree) : Prop :=
  heap_ord l ∧ heap_ord r
  ∧ ∀ x, heap_ord x → prio_bound x l r → heap_ord (plug c x).

(** The subtree that takes the place of a node with at most one child. *)
Definition only_child (l r : tree) : tree :=
  match r with
  | Bin _ _ _ _ _ => r
  | Nil => l
  end.


(** ** Termination statements *)





(** ** Example treaps *)

(** Keys 2, 1, 3 with priorities 10, 1, 5, held in blocks 1, 2, 3: the
    treap the program builds from the empty one by inserting the keys in
    that order with those priorities. *)
Definition ex3_tree : tree :=
  Bin (Bin Nil 2%positive 1 1 Nil) 1%positive 2 10 (Bin Nil 3%positive 3 5 Nil).

Definition ex3_state : state :=
  mkState
    (<[1%positive := mkNode 2 10 (Some 2%positive) (Some 3%positive) None]>
       (<[2%positive := mkNode 1 1 None None (Some 1%positive)]>
          (<[3%positive := mkNode 3 5 None None (Some 1%positive)]> ∅)))
    (Some 1%positive).

(** The empty treap. *)
Definition empty_state : state := mkState ∅ None.

(** Keys 3, 2, 1 with priorities 30, 20, 10, held in blocks 1, 2, 3: a
    chain of left children. *)
Definition ex_chain_tree : tree :=
  Bin (Bin (Bin Nil 3%positive 1 10 Nil) 2%positive 2 20 Nil) 1%positive 3 30 Nil.

Definition ex_chain_state : state :=
  mkState
    (<[1%positive := mkNode 3 30 (Some 2%positive) None None]>
       (<[2%positive := mkNode 2 20 (Some 3%positive) None (Some 1%positive)]>
          (<[3%positive := mkNode 1 10 None None (Some 2%positive)]> ∅)))
    (Some 1%positive).

(** Keys 1 and 2 with priorities 10 and 5, held in blocks 1 and 2: the treap
    the program builds from the empty one by inserting 1 and then 2. *)
Definition ex12_tree : tree :=
  Bin Nil 1%positive 1 10 (Bin Nil 2%positive 2 5 Nil).

Definition ex12_state : state :=
  mkState
    (<[1%positive := mkNode 1 10 None (Some 2%positive) None]>
       (<[2%positive := mkNode 2 5 None None (Some 1%positive)]> ∅))
    (Some 1%positive).




(** ** What a run leaves alone *)

(** [keeps f E c]: whenever [c] returns, every block outside [E] is in use
    after the run exactly if it was before, and [f] of its content is what
    it was. *)
Definition keeps {A X} (f : treap_node → X) (E : list addr) (c : M A) : Prop :=
  ∀ s x s', c s = Done x s' →
    ∀ a, a ∉ E → f <$> mem s' !! a = f <$> mem s !! a.

(** The search key and the priority of a node. *)
Definition node_data (n : treap_node) : N * N := (treeKey n, heapKey n).

(** [readonly c]: whenever [c] returns, the state is the one it started
    from. *)
Definition readonly {A} (c : M A) : Prop :=
  ∀ s x s', c s = Done x s' → s' = s.

(** ** Priorities and siblings *)

(** In-order traversal: priorities. *)
Fixpoint prios (t : tree) : list N :=
  match t with
  | Nil => []
  | Bin l _ _ h r => prios l ++ h :: prios r
  end.

(** The sibling subtree a frame holds. *)
Definition fsib (f : frame) : tree :=
  match f with
  | FL _ _ _ r => r
  | FR l _ _ _ => l
  end.

(** The other child of the parent of the node at [a], read from the node
    memory; [NULL] for a node without a parent. *)
Definition sibling (s : state) (a : addr) : ptr :=
  match mem s !! a with
  | Some na =>
      match P na with
      | Some p =>
          match mem s !! p with
          | Some np => if decide (L np = Some a) then R np else L np
          | None => None
          end
      | None => None
      end
  | None => None
  end.

(** ** The checks of the test drivers *)

(** [unsigned int] arithmetic wraps around. *)
Definition wrap32 (x : N) : N := x mod 2 ^ 32.

(** [1 + x] on [int]: signed overflow is undefined behaviour, on which the
    model faults. *)
Definition INT_MAX : Z := 2147483647.

Definition int_succ (x : Z) : M Z :=
  if (x <? INT_MAX)%Z then ret (1 + x)%Z else fault.

(** [testInOrder].  [value] is the content of [*value] when the function
    is entered, the result its content when the function returns.  The
    fuel bounds the depth of the recursion. *)
Fixpoint testInOrder (fuel : nat) (node : ptr) (value : N) : M N :=
  match fuel with
  | O => timeout
  | S fuel' =>
      let* nl := rd node L in
      let* value :=
        (match nl with
         | Some _ => let* nl := rd node L in testInOrder fuel' nl value
         | None => ret value
         end) in
      let* nl := rd node L in
      let* value :=
        (match nl with
         | Some _ =>
             let* nl := rd node L in
             let* lk := rd nl treeKey in
             let* nk := rd node treeKey in
             if nk <=? lk then ret 0 else ret value
         | None => ret value
         end) in
      let* nr := rd node R in
      let* value :=
        (match nr with
         | Some _ =>
             let* nr := rd node R in
             let* rk := rd nr treeKey in
             let* nk := rd node treeKey in
             if rk <=? nk then ret 0 else ret value
         | None => ret value
         end) in
      let* nr := rd node R in
      match nr with
      | Some _ => let* nr := rd node R in testInOrder fuel' nr value
      | None => ret value
      end
  end.

(** [properParentTest]. *)
Fixpoint properParentTest (fuel : nat) (root : ptr) : M N :=
  match fuel with
  | O => timeout
  | S fuel' =>
      match root with
      | None => ret 0
      | Some _ =>
          let* rl := rd root L in
          let* nl := properParentTest fuel' rl in
          let* rr := rd root R in
          let* nr := properParentTest fuel' rr in
          let* rp := rd root P in
          ret (wrap32 (wrap32 (nl + nr)
                       + match rp with None => 1 | Some _ => 0 end))
      end
  end.

(** [getMaxHeight]. *)
Fixpoint getMaxHeight (fuel : nat) (root : ptr) : M Z :=
  match fuel with
  | O => timeout
  | S fuel' =>
      let* rl := rd root L in
      let* left :=
        (match rl with
         | None => ret 0%Z
         | Some _ =>
             let* rl := rd root L in
             let* h := getMaxHeight fuel' rl in int_succ h
         end) in
      let* rr := rd root R in
      let* right :=
        (match rr with
         | None => ret 0%Z
         | Some _ =>
             let* rr := rd root R in
             let* h := getMaxHeight fuel' rr in int_succ h
         end) in
      ret (if (left <? right)%Z then right else left)
  end.

(** What [testInOrder] looks at: every node against its two children. *)
Definition root_lt (t : tree) (k : N) : Prop :=
  match t with
  | Nil => True
  | Bin _ _ k' _ _ => k' < k
  end.

Definition root_gt (t : tree) (k : N) : Prop :=
  match t with
  | Nil => True
  | Bin _ _ k' _ _ => k < k'
  end.

Fixpoint child_ok (t : tree) : Prop :=
  match t with
  | Nil => True
  | Bin l _ k _ r => child_ok l ∧ root_lt l k ∧ root_gt r k ∧ child_ok r
  end.

(** The content of [*value] that [testInOrder] leaves on the tree [t]. *)
Fixpoint in_order_flag (t : tree) (value : N) : N :=
  match t with
  | Nil => value
  | Bin l _ k _ r =>
      let v1 := in_order_flag l value in
      let v2 := match l with
                | Bin _ _ lk _ _ => if k <=? lk then 0 else v1
                | Nil => v1
                end in
      let v3 := match r with
                | Bin _ _ rk _ _ => if rk <=? k then 0 else v2
                | Nil => v2
                end in
      in_order_flag r v3
  end.

(** ** The first test driver *)

(** [free]: the block is given back.  [free(NULL)] does nothing; to free a
    block that is not in use is undefined behaviour, on which the model
    faults. *)
Definition free (p : ptr) : M unit :=
  λ s, match p with
       | None => Done tt s
       | Some a => match mem s !! a with
                   | Some _ => Done tt (mkState (delete a (mem s)) (root s))
                   | None => Fault
                   end
       end.

(** The first loop of [testOne]:
    [for(unsigned int i = 0; i < times; i++) treapAppend(&bob, i);]
    entered with the given value of [i].  [rand i] is what the call of
    [rand] in round [i] returns and [block i] the block [malloc] hands out
    there.  [n] is the fuel of this loop, [fuel] that of the loops of the
    operations it calls. *)
Fixpoint testOne_fill (n fuel : nat) (times i : N)
    (rand : N → N) (block : N → addr) : M unit :=
  match n with
  | O => timeout
  | S n' =>
      if i <? times then
        treapAppend fuel i (rand i) (block i) >>
        testOne_fill n' fuel times (wrap32 (i + 1)) rand block
      else ret tt
  end.

(** The second loop of [testOne], entered with the given value of [i].
    The result is [false] when the loop ends in [exit(2)]. *)
Fixpoint testOne_drain (n fuel : nat) (times i : N) : M bool :=
  match n with
  | O => timeout
  | S n' =>
      if i <? wrap32 (3 * times) / 4 then
        let* bill := treapFind fuel i in
        match bill with
        | Some _ =>
            treapDecouple fuel bill >>
            free bill >>
            testOne_drain n' fuel times (wrap32 (i + 1))
        | None => ret false
        end
      else ret true
  end.

(** [testOne], without its output and without the floating-point quotient
    it returns.  The result holds the four numbers the function prints
    (in-order flag and maximal depth, after the insertions and after the
    removals), or [None] when the function ends in [exit(2)]. *)
Definition testOne (n fuel : nat) (times : N)
    (rand : N → N) (block : N → addr) : M (option (N * Z * N * Z)) :=
  set_root None >>
  testOne_fill n fuel times 0 rand block >>
  let* r := get_root in
  let* charlie := testInOrder fuel r 1 in
  let* r := get_root in
  let* maxDepth := getMaxHeight fuel r in
  let* ok := testOne_drain n fuel times (times / 4) in
  if ok : bool then
    let* r := get_root in
    let* charlie' := testInOrder fuel r 1 in
    let* r := get_root in
    let* maxDepth' := getMaxHeight fuel r in
    ret (Some (charlie, maxDepth, charlie', maxDepth'))
  else ret None.

(** ** The second test driver *)

(** The second loop of [testTwo], entered with the given value of [i]:
    [for(int i = 0; i < 20; i++){ treapUsurpingFind(&bob, 1);
    treapUsurpingFind(&bob, 8); }] *)
Fixpoint testTwo_loop (n fuel : nat) (i : Z) : M unit :=
  match n with
  | O => timeout
  | S n' =>
      if (i <? 20)%Z then
        treapUsurpingFind fuel 1 >>
        treapUsurpingFind fuel 8 >>
        testTwo_loop n' fuel (i + 1)%Z
      else ret tt
  end.

(** Keys 8 and 1 with priorities 10 and 5, held in blocks 1 and 2: the
    node with key 8 is the root and the parent of the node with key 1. *)
Definition ex81_tree : tree :=
  Bin (Bin Nil 2%positive 1 5 Nil) 1%positive 8 10 Nil.

Definition ex81_state : state :=
  mkState
    (<[1%positive := mkNode 8 10 (Some 2%positive) None None]>
       (<[2%positive := mkNode 1 5 None None (Some 1%positive)]> ∅))
    (Some 1%positive).

(** * Proofs *)

(** ** Monad laws used for symbolic execution *)

Lemma bind_ret {A B} (a : A) (k : A → M B) s : bind (ret a) k s = k a s.
Proof. reflexivity. Qed.

Lemma bind_Done {A B} (c : M A) (k : A → M B) s a s' :
  c s = Done a s' → bind c k s = k a s'.
Proof. unfold bind. by intros ->. Qed.

Lemma rd_Some {X} a (f : treap_node → X) s n :
  mem s !! a = Some n → rd (Some a) f s = Done (f n) s.
Proof. unfold rd. by intros ->. Qed.

Lemma wr_Some a upd s n :
  mem s !! a = Some n →
  wr (Some a) upd s = Done tt (mkState (<[a := upd n]> (mem s)) (root s)).
Proof. unfold wr. by intros ->. Qed.

Lemma bind_assoc {A B C} (c : M A) (k1 : A → M B) (k2 : B → M C) s :
  bind (bind c k1) k2 s = bind c (λ x, bind (k1 x) k2) s.
Proof. unfold bind. by destruct (c s). Qed.

Lemma bind_set_root {B} v (k : unit → M B) s :
  bind (set_root v) k s = k tt (mkState (mem s) v).
Proof. reflexivity. Qed.

Lemma bind_get_root {B} (k : ptr → M B) s : bind get_root k s = k (root s) s.
Proof. reflexivity. Qed.

Lemma malloc_Done nw s :
  mem s !! nw = None →
  malloc nw s = Done (Some nw)
                  (mkState (<[nw := mkNode 0 0 None None None]> (mem s)) (root s)).
Proof. unfold malloc. by intros ->. Qed.

(** ** Trees and contexts *)

Lemma tptr_plug c t : tptr (plug c t) = ctx_root c (tptr t).
Proof.
  revert t. induction c as [|f c IH]; intros t; [done|].
  simpl. rewrite IH. by destruct f.
Qed.

Lemma repr_plug m c t :
  repr m None (plug c t) ↔ repr_ctx m c (tptr t) ∧ repr m (cptr c) t.
Proof.
  revert t. induction c as [|f c IH]; intros t; simpl; [tauto|].
  rewrite IH. destruct f; simpl; tauto.
Qed.

Lemma repr_ext m m' p t :
  repr m p t → (∀ a, a ∈ addrs t → m' !! a = m !! a) → repr m' p t.
Proof.
  revert p. induction t as [|l IHl a k h r IHr]; intros p; simpl; [done|].
  intros (Ha & Hl & Hr) Hm. split_and!.
  - rewrite Hm; [done|]. set_solver.
  - apply IHl; [done|]. intros b Hb; apply Hm; set_unfold; tauto.
  - apply IHr; [done|]. intros b Hb; apply Hm; set_unfold; tauto.
Qed.

Lemma repr_ctx_ext m m' c o :
  repr_ctx m c o → (∀ a, a ∈ caddrs c → m' !! a = m !! a) → repr_ctx m' c o.
Proof.
  revert o. induction c as [|f c IH]; intros o; simpl; [done|].
  destruct f as [a k h r|l a k h]; simpl; intros (Ha & Hs & Hc) Hm.
  - split_and!.
    + rewrite Hm; [done|]. set_solver.
    + eapply repr_ext; [done|]. intros b Hb; apply Hm; set_unfold; tauto.
    + apply IH; [done|]. intros b Hb; apply Hm; set_unfold; tauto.
  - split_and!.
    + rewrite Hm; [done|]. set_solver.
    + eapply repr_ext; [done|]. intros b Hb; apply Hm; set_unfold; tauto.
    + apply IH; [done|]. intros b Hb; apply Hm; set_unfold; tauto.
Qed.

Lemma addrs_fill f t : addrs (fill f t) ≡ₚ faddrs f ++ addrs t.
Proof.
  destruct f; simpl.
  - rewrite <-Permutation_middle. constructor. apply Permutation_app_comm.
  - by rewrite <-Permutation_middle.
Qed.

Lemma addrs_plug c t : addrs (plug c t) ≡ₚ caddrs c ++ addrs t.
Proof.
  revert t. induction c as [|f c IH]; intros t; simpl; [done|].
  rewrite IH, addrs_fill, app_assoc.
  apply Permutation_app_tail, Permutation_app_comm.
Qed.

Lemma keys_fill_perm f t t' :
  keys t ≡ₚ keys t' → keys (fill f t) ≡ₚ keys (fill f t').
Proof. intros H. destruct f; simpl; by rewrite H. Qed.

Lemma bst_by_fill_inv s f t : bst_by s (fill f t) → bst_by s t.
Proof. destruct f; simpl; tauto. Qed.

Lemma bst_by_plug_inv s c t : bst_by s (plug c t) → bst_by s t.
Proof.
  revert t. induction c as [|f c IH]; intros t; simpl; [done|].
  intros H. by eapply bst_by_fill_inv, IH.
Qed.

Lemma bst_by_fill_perm s f t t' :
  keys t ≡ₚ keys t' → bst_by s t' → bst_by s (fill f t) → bst_by s (fill f t').
Proof.
  intros Hp Ht'. destruct f; simpl; intros (Hl & Hr & Bl & Br);
    rewrite <-?Hp; auto.
Qed.

Lemma bst_by_plug_perm s c t t' :
  keys t ≡ₚ keys t' → bst_by s t' → bst_by s (plug c t) → bst_by s (plug c t').
Proof.
  revert t t'. induction c as [|f c IH]; intros t t' Hp Ht'; simpl; [done|].
  intros H. eapply IH; [by apply keys_fill_perm| |done].
  apply (bst_by_fill_perm s f t t'); [done|done|]. by eapply bst_by_plug_inv.
Qed.

Lemma bst_wbst t : bst t → wbst t.
Proof.
  unfold bst, wbst. induction t as [|l IHl a k h r IHr]; simpl; [done|].
  intros (Hl & Hr & Bl & Br). split_and!; auto.
  eapply Forall_impl; [done|]. unfold right_of. simpl. lia.
Qed.

Lemma repr_off (D : list addr) m m' p t :
  repr m p t → (∀ a, a ∉ D → m' !! a = m !! a) →
  (∀ a, a ∈ addrs t → a ∉ D) → repr m' p t.
Proof. intros Hr Hm Hd. eapply repr_ext; [done|]. auto. Qed.

Lemma repr_ctx_off (D : list addr) m m' c o :
  repr_ctx m c o → (∀ a, a ∉ D → m' !! a = m !! a) →
  (∀ a, a ∈ caddrs c → a ∉ D) → repr_ctx m' c o.
Proof. intros Hr Hm Hd. eapply repr_ctx_ext; [done|]. auto. Qed.

(** ** Symbolic execution on the node memory *)

(** Solve a lookup in a memory built by stores. *)
Ltac lk :=
  cbn [mem root];
  repeat first
    [ rewrite lookup_insert_eq
    | rewrite lookup_insert_ne by congruence ];
  first [reflexivity | eassumption].

(** Run the next load or store of the computation in the goal. *)
Ltac exec1 :=
  first
    [ rewrite bind_assoc
    | rewrite bind_ret
    | rewrite bind_set_root
    | erewrite bind_Done by (apply rd_Some; lk)
    | erewrite bind_Done by (apply wr_Some; lk)
    | erewrite wr_Some by lk ];
  cbn [mem root treeKey heapKey L R P set_L set_R set_P set_heapKey set_treeKey].

(** ** Distinct addresses *)

Lemma NoDup_app_disj (l k : list addr) :
  NoDup (l ++ k) ↔ NoDup l ∧ disj l k ∧ NoDup k.
Proof. apply NoDup_app. Qed.

Lemma disj_nil_l k : disj [] k ↔ True.
Proof. unfold disj. split; [done|]. intros _ x Hx. by apply elem_of_nil in Hx. Qed.

Lemma disj_nil_r l : disj l [] ↔ True.
Proof. unfold disj. split; [done|]. intros _ x _. apply not_elem_of_nil. Qed.

Lemma disj_app_l l1 l2 k : disj (l1 ++ l2) k ↔ disj l1 k ∧ disj l2 k.
Proof.
  unfold disj. split.
  - intros H. split; intros x Hx; apply H, elem_of_app; auto.
  - intros [H1 H2] x [Hx|Hx]%elem_of_app; auto.
Qed.

Lemma disj_app_r l k1 k2 : disj l (k1 ++ k2) ↔ disj l k1 ∧ disj l k2.
Proof.
  unfold disj. split.
  - intros H. split; intros x Hx; specialize (H x Hx);
      apply not_elem_of_app in H; tauto.
  - intros [H1 H2] x Hx. apply not_elem_of_app. auto.
Qed.

Lemma disj_cons_l x l k : disj (x :: l) k ↔ (x ∉ k) ∧ disj l k.
Proof.
  unfold disj. split.
  - intros H. split; [apply H; left|]. intros y Hy. apply H. by right.
  - intros [H1 H2] y [->|Hy]%elem_of_cons; auto.
Qed.

Lemma disj_cons_r l x k : disj l (x :: k) ↔ (x ∉ l) ∧ disj l k.
Proof.
  unfold disj. split.
  - intros H. split.
    + intros Hx. apply (H x Hx). left.
    + intros y Hy. specialize (H y Hy). apply not_elem_of_cons in H. tauto.
  - intros [H1 H2] y Hy. apply not_elem_of_cons. split; [|auto].
    intros ->. auto.
Qed.

Lemma not_elem_of_nil_iff (x : addr) : x ∉ [] ↔ True.
Proof. split; [done|]. intros _. apply not_elem_of_nil. Qed.

Lemma NoDup_nil_iff : NoDup (@nil addr) ↔ True.
Proof. split; [done|]. intros _. constructor. Qed.

(** Break a [NoDup] hypothesis on a concatenation into atomic facts. *)
Ltac nodup_split H :=
  repeat (progress rewrite
    ?NoDup_app_disj, ?NoDup_cons, ?disj_app_l, ?disj_app_r, ?disj_cons_l,
    ?disj_cons_r, ?disj_nil_l, ?disj_nil_r, ?not_elem_of_app,
    ?not_elem_of_cons, ?not_elem_of_nil_iff, ?NoDup_nil_iff in H);
  destruct_and? H.

(** [a ∉ D] for an explicit list [D], from [Ha : a ∈ X] and atomic facts. *)
Ltac notin_solve :=
  rewrite ?not_elem_of_cons; split_and?;
  first
    [ apply not_elem_of_nil
    | congruence
    | let E := fresh in
      intros E; subst;
      match goal with
      | H1 : ?x ∈ ?X, H2 : ?x ∉ ?X |- _ => exact (H2 H1)
      | H1 : ?x ∈ ?X, H2 : disj ?X ?Y, H3 : ?x ∈ ?Y |- _ => exact (H2 x H1 H3)
      end ].

(** A subtree or context that lies outside the stored addresses [D] is
    still held by the memory. *)
Ltac frame_solve D :=
  first [eapply (repr_off D) | eapply (repr_ctx_off D)];
  [ eassumption
  | let a := fresh "a" in let Ha := fresh "Ha" in
    intros a Ha; rewrite ?not_elem_of_cons in Ha; destruct_and? Ha;
    rewrite !lookup_insert_ne by congruence; reflexivity
  | let a := fresh "a" in let Ha := fresh "Ha" in
    intros a Ha; notin_solve ].

(** The memory after a rotation holds the rotated tree. *)
Ltac finish_models D :=
  eexists; split; [reflexivity|];
  split; cbn [mem root];
  [rewrite tptr_plug; cbn [ctx_root tptr faddr] in *; done|];
  apply repr_plug; cbn [repr_ctx repr tptr cptr faddr];
  unfold set_P, set_L, set_R; cbn [treeKey heapKey L R P];
  split_and!; try lk; try done; frame_solve D.

(** ** [treapRotate] on the node memory *)

Lemma rotate_right_models s c ll pa pk ph lr ra rk rh rr :
  models s (plug c (Bin (Bin ll pa pk ph lr) ra rk rh rr)) →
  NoDup (addrs (plug c (Bin (Bin ll pa pk ph lr) ra rk rh rr))) →
  pk < rk →
  slot_ok c rk →
  ∃ s', treapRotate (Some ra) (Some pa) s = Done tt s'
        ∧ models s' (plug c (Bin ll pa pk ph (Bin lr ra rk rh rr))).
Proof.
  destruct s as [m rt]. intros [Hrt Hrep] Hnd Hlt Hslot. cbn [mem root] in *.
  rewrite tptr_plug in Hrt. cbn [tptr] in Hrt.
  apply repr_plug in Hrep as [Hc Ht]. cbn [repr tptr] in Ht, Hc.
  destruct Ht as (Hra & (Hpa & Hll & Hlr) & Hrr).
  rewrite addrs_plug in Hnd. cbn [addrs] in Hnd.
  unfold treapRotate.
  apply N.ltb_lt in Hlt as Hlt'.
  destruct lr as [|lrl ca ck ch lrr]; cbn [tptr repr addrs] in *;
    [|destruct Hlr as (Hca & Hlrl & Hlrr)];
  (destruct c as [|[g gk gh gr|gl g gk gh] c'];
    cbn [repr_ctx cptr caddrs faddrs faddr slot_ok side_ok] in *;
    [|destruct Hc as (Hg & Hgr & Hc'); apply N.ltb_lt in Hslot as Hslot'
     |destruct Hc as (Hg & Hgl & Hc'); apply N.ltb_nlt in Hslot as Hslot']);
  nodup_split Hnd;
  do 2 exec1; rewrite Hlt';
  repeat exec1; rewrite ?Hslot'; repeat exec1.
  - finish_models [ra; pa].
  - finish_models [ra; pa; g].
  - finish_models [ra; pa; g].
  - finish_models [ra; pa; ca].
  - finish_models [ra; pa; ca; g].
  - finish_models [ra; pa; ca; g].
Qed.

Lemma rotate_left_models s c ll pa pk ph rl ra rk rh rr :
  models s (plug c (Bin ll ra rk rh (Bin rl pa pk ph rr))) →
  NoDup (addrs (plug c (Bin ll ra rk rh (Bin rl pa pk ph rr)))) →
  ¬ pk < rk →
  slot_ok c rk →
  ∃ s', treapRotate (Some ra) (Some pa) s = Done tt s'
        ∧ models s' (plug c (Bin (Bin ll ra rk rh rl) pa pk ph rr)).
Proof.
  destruct s as [m rt]. intros [Hrt Hrep] Hnd Hlt Hslot. cbn [mem root] in *.
  rewrite tptr_plug in Hrt. cbn [tptr] in Hrt.
  apply repr_plug in Hrep as [Hc Ht]. cbn [repr tptr] in Ht, Hc.
  destruct Ht as (Hra & Hll & (Hpa & Hrl & Hrr)).
  rewrite addrs_plug in Hnd. cbn [addrs] in Hnd.
  unfold treapRotate.
  apply N.ltb_nlt in Hlt as Hlt'.
  destruct rl as [|rll ca ck ch rlr]; cbn [tptr repr addrs] in *;
    [|destruct Hrl as (Hca & Hrll & Hrlr)];
  (destruct c as [|[g gk gh gr|gl g gk gh] c'];
    cbn [repr_ctx cptr caddrs faddrs faddr slot_ok side_ok] in *;
    [|destruct Hc as (Hg & Hgr & Hc'); apply N.ltb_lt in Hslot as Hslot'
     |destruct Hc as (Hg & Hgl & Hc'); apply N.ltb_nlt in Hslot as Hslot']);
  nodup_split Hnd;
  do 2 exec1; rewrite Hlt';
  repeat exec1; rewrite ?Hslot'; repeat exec1.
  - finish_models [ra; pa].
  - finish_models [ra; pa; g].
  - finish_models [ra; pa; g].
  - finish_models [ra; pa; ca].
  - finish_models [ra; pa; ca; g].
  - finish_models [ra; pa; ca; g].
Qed.

(** Search order is kept by a rotation, in both directions. *)
Lemma bst_rotate ll pa pk ph lr ra rk rh rr :
  bst (Bin (Bin ll pa pk ph lr) ra rk rh rr)
  ↔ bst (Bin ll pa pk ph (Bin lr ra rk rh rr)).
Proof.
  unfold bst. cbn [bst_by keys right_of].
  rewrite !Forall_app, !Forall_cons, !Forall_forall. unfold right_of.
  split.
  - intros ((Hll & Hpk & Hlr) & Hrr & (Hl1 & Hl2 & Bll & Blr) & Brr).
    split_and!; auto.
    intros x Hx. specialize (Hrr x Hx). lia.
  - intros (Hll & (Hlr & Hpk & Hrr) & Bll & Hlr' & Hrr' & Blr & Brr).
    split_and!; auto.
    intros x Hx. specialize (Hll x Hx). lia.
Qed.

(** ** Nodes of a represented tree *)

Lemma plug_app c1 c2 t : plug (c1 ++ c2) t = plug c2 (plug c1 t).
Proof. revert t. induction c1 as [|f c1 IH]; intros t; simpl; auto. Qed.

Lemma in_addrs_plug a t :
  a ∈ addrs t → ∃ c l k h r, t = plug c (Bin l a k h r).
Proof.
  induction t as [|l IHl a0 k0 h0 r IHr]; simpl.
  - intros H. by apply elem_of_nil in H.
  - rewrite elem_of_app, elem_of_cons. intros [H|[->|H]].
    + destruct (IHl H) as (c & l' & k & h & r' & ->).
      exists (c ++ [FL a0 k0 h0 r]), l', k, h, r'. by rewrite plug_app.
    + by exists [], l, k0, h0, r.
    + destruct (IHr H) as (c & l' & k & h & r' & ->).
      exists (c ++ [FR l a0 k0 h0]), l', k, h, r'. by rewrite plug_app.
Qed.

Lemma repr_lookup m p t a :
  repr m p t → a ∈ addrs t →
  ∃ n, m !! a = Some n ∧ treeKey n ∈ keys t.
Proof.
  revert p. induction t as [|l IHl a0 k0 h0 r IHr]; intros p; simpl.
  - intros _ H. by apply elem_of_nil in H.
  - intros (Ha & Hl & Hr). rewrite elem_of_app, elem_of_cons.
    intros [H|[->|H]].
    + destruct (IHl _ Hl H) as (n & Hn & Hk). exists n. split; [done|].
      apply elem_of_app. by left.
    + eexists. split; [done|]. simpl. apply elem_of_app. right. left.
    + destruct (IHr _ Hr H) as (n & Hn & Hk). exists n. split; [done|].
      apply elem_of_app. right. by right.
Qed.

Lemma repr_NoDup m p t : repr m p t → bst t → NoDup (addrs t).
Proof.
  unfold bst. revert p.
  induction t as [|l IHl a k h r IHr]; intros p; simpl; [constructor|].
  intros (Ha & Hl & Hr) (Fl & Fr & Bl & Br).
  rewrite Forall_forall in Fl, Fr. unfold right_of in Fr.
  apply NoDup_app. split_and!; [by eapply IHl| |].
  - intros x Hx [->|Hx']%elem_of_cons.
    + destruct (repr_lookup _ _ _ _ Hl Hx) as (n & Hn & Hk).
      rewrite Ha in Hn. injection Hn as <-. simpl in Hk.
      specialize (Fl _ Hk). lia.
    + destruct (repr_lookup _ _ _ _ Hl Hx) as (n & Hn & Hk).
      destruct (repr_lookup _ _ _ _ Hr Hx') as (n' & Hn' & Hk').
      rewrite Hn in Hn'. injection Hn' as <-.
      specialize (Fl _ Hk). specialize (Fr _ Hk'). lia.
  - apply NoDup_cons. split; [|by eapply IHr].
    intros Hx. destruct (repr_lookup _ _ _ _ Hr Hx) as (n & Hn & Hk).
    rewrite Ha in Hn. injection Hn as <-. simpl in Hk.
    specialize (Fr _ Hk). lia.
Qed.

Lemma models_NoDup s t : models s t → bst t → NoDup (addrs t).
Proof. intros [_ H]. by eapply repr_NoDup. Qed.

Lemma repr_functional m p t t' :
  repr m p t → repr m p t' → tptr t = tptr t' → t = t'.
Proof.
  revert p t'. induction t as [|l IHl a k h r IHr]; intros p [|l' a' k' h' r'];
    simpl; try done.
  intros (Ha & Hl & Hr) (Ha' & Hl' & Hr') [= <-].
  rewrite Ha in Ha'. injection Ha' as <- <- Hlp Hrp.
  f_equal; eauto.
Qed.

Lemma models_functional s t t' : models s t → models s t' → t = t'.
Proof.
  intros [Hr H] [Hr' H']. eapply repr_functional; [done..|]. congruence.
Qed.

(** ** [treapFind] *)

Lemma find_loop_tfind m rt p t key fuel :
  repr m p t → (height t < fuel)%nat →
  find_loop fuel key (tptr t) (mkState m rt) = Done (tfind key t) (mkState m rt).
Proof.
  revert p fuel. induction t as [|l IHl a k h r IHr]; intros p fuel Hr Hf.
  - destruct fuel; [lia|]. reflexivity.
  - destruct fuel as [|fuel]; [simpl in Hf; lia|].
    destruct Hr as (Ha & Hl & Hr). simpl in Hf.
    cbn [find_loop tptr tfind].
    exec1. destruct (key <? k).
    + exec1. eapply IHl; [done|lia].
    + destruct (k <? key).
      * exec1. eapply IHr; [done|lia].
      * reflexivity.
Qed.

Lemma treapFind_tfind s t key fuel :
  models s t → (height t < fuel)%nat →
  treapFind fuel key s = Done (tfind key t) s.
Proof.
  destruct s as [m rt]. intros [Hrt Hr] Hf. simpl in *. subst rt.
  unfold treapFind, get_root, bind. cbn [root].
  by eapply find_loop_tfind.
Qed.

Lemma tfind_fill f t k :
  bst (fill f t) → k ∈ keys t → tfind k (fill f t) = tfind k t.
Proof.
  unfold bst. destruct f as [g gk gh gr|gl g gk gh]; simpl;
    intros (Fl & Fr & _) Hk; rewrite Forall_forall in Fl, Fr.
  - specialize (Fl _ Hk). apply N.ltb_lt in Fl. by rewrite Fl.
  - specialize (Fr _ Hk). unfold right_of in Fr.
    assert ((k <? gk) = false) as -> by (apply N.ltb_nlt; lia).
    apply N.ltb_lt in Fr. by rewrite Fr.
Qed.

Lemma keys_fill_in f t k : k ∈ keys t → k ∈ keys (fill f t).
Proof. destruct f; simpl; rewrite !elem_of_app, ?elem_of_cons; tauto. Qed.

Lemma tfind_plug c t k :
  bst (plug c t) → k ∈ keys t → tfind k (plug c t) = tfind k t.
Proof.
  revert t. induction c as [|f c IH]; intros t Hb Hk; simpl in *; [done|].
  rewrite IH by auto using keys_fill_in.
  apply tfind_fill; [|done]. by eapply bst_by_plug_inv.
Qed.

Lemma tfind_here l a k h r : tfind k (Bin l a k h r) = Some a.
Proof. simpl. by rewrite N.ltb_irrefl. Qed.

Lemma tfind_node c l a k h r :
  bst (plug c (Bin l a k h r)) → tfind k (plug c (Bin l a k h r)) = Some a.
Proof.
  intros Hb. rewrite tfind_plug; [apply tfind_here|done|].
  simpl. apply elem_of_app. right. left.
Qed.

Lemma tfind_None k t : k ∉ keys t → tfind k t = None.
Proof.
  induction t as [|l IHl a k0 h r IHr]; simpl; [done|].
  rewrite not_elem_of_app, not_elem_of_cons. intros (Hl & Hk & Hr).
  destruct (k <? k0) eqn:E1; [auto|].
  destruct (k0 <? k) eqn:E2; [auto|].
  apply N.ltb_nlt in E1, E2. lia.
Qed.

Lemma tfind_Some k t a :
  tfind k t = Some a → ∃ c l h r, t = plug c (Bin l a k h r).
Proof.
  induction t as [|l IHl a0 k0 h0 r IHr]; simpl; [done|].
  destruct (k <? k0) eqn:E1.
  { intros (c & l' & h & r' & ->)%IHl.
    exists (c ++ [FL a0 k0 h0 r]), l', h, r'. by rewrite plug_app. }
  destruct (k0 <? k) eqn:E2.
  { intros (c & l' & h & r' & ->)%IHr.
    exists (c ++ [FR l a0 k0 h0]), l', h, r'. by rewrite plug_app. }
  intros [= <-]. apply N.ltb_nlt in E1, E2.
  assert (k = k0) as -> by lia. by exists [], l, h0, r.
Qed.

Lemma repr_key_node m p t k :
  repr m p t → k ∈ keys t →
  ∃ a n, a ∈ addrs t ∧ m !! a = Some n ∧ treeKey n = k.
Proof.
  revert p. induction t as [|l IHl a0 k0 h0 r IHr]; intros p; simpl.
  - intros _ H. by apply elem_of_nil in H.
  - intros (Ha & Hl & Hr). rewrite elem_of_app, elem_of_cons.
    intros [H|[->|H]].
    + destruct (IHl _ Hl H) as (a & n & Hin & Hn & Hk).
      exists a, n. split_and!; [|done..]. apply elem_of_app. by left.
    + exists a0. eexists. split_and!; [|done..]. apply elem_of_app. right. left.
    + destruct (IHr _ Hr H) as (a & n & Hin & Hn & Hk).
      exists a, n. split_and!; [|done..]. apply elem_of_app. right. by right.
Qed.

Lemma ex3_models : models ex3_state ex3_tree.
Proof. split; [reflexivity|]. simpl. repeat split; reflexivity. Qed.

Lemma ex3_bst : bst ex3_tree.
Proof. unfold bst; simpl. unfold right_of. repeat constructor. Qed.

Lemma ex3_heap_ord : heap_ord ex3_tree.
Proof. simpl. repeat split; lia. Qed.

(** C8: on a treap in search order, [treapFind] returns the one node whose
    key is [key] when there is such a node, returns [NULL] when there is
    none (in particular on the empty treap), and leaves node memory and
    root slot as they were. *)
Theorem treapFind_correct s t key fuel :
  models s t → bst t → (height t < fuel)%nat →
  ∃ r, treapFind fuel key s = Done r s
       ∧ (∀ a, has_key s t a key → r = Some a)
       ∧ (∀ a, r = Some a → has_key s t a key)
       ∧ ((∀ a, ¬ has_key s t a key) → r = None)
       ∧ (root s = None → r = None).
Proof.
  intros Hm Hb Hf. exists (tfind key t).
  split; [by apply treapFind_tfind|].
  destruct Hm as [Hrt Hr]. split_and!.
  - intros a [Ha (n & Hn & Hk)].
    destruct (in_addrs_plug _ _ Ha) as (c & l & k & h & r & ->).
    pose proof Hr as Hr'. apply repr_plug in Hr' as [_ (Ha' & _)].
    rewrite Hn in Ha'. injection Ha' as ->. simpl in Hk. subst k.
    by apply tfind_node.
  - intros a Ha. destruct (tfind_Some _ _ _ Ha) as (c & l & h & r & ->).
    apply repr_plug in Hr as [_ (Ha' & _)]. split.
    + rewrite addrs_plug. apply elem_of_app. right. simpl.
      apply elem_of_app. right. left.
    + eexists. split; [done|]. done.
  - intros Hno. apply tfind_None. intros Hk.
    destruct (repr_key_node _ _ _ _ Hr Hk) as (a & n & Ha & Hn & Hkn).
    apply (Hno a). split; eauto.
  - intros Hnone. rewrite Hnone in Hrt. by destruct t.
Qed.

Lemma treapFind_correct_witness :
  ∃ r, treapFind 3 3 ex3_state = Done r ex3_state
       ∧ (∀ a, has_key ex3_state ex3_tree a 3 → r = Some a)
       ∧ (∀ a, r = Some a → has_key ex3_state ex3_tree a 3)
       ∧ ((∀ a, ¬ has_key ex3_state ex3_tree a 3) → r = None)
       ∧ (root ex3_state = None → r = None).
Proof.
  apply (treapFind_correct ex3_state ex3_tree 3 3).
  - exact ex3_models.
  - exact ex3_bst.
  - simpl. lia.
Defined.

(** C10: when [key] is the key of no node of the treap, or is the key of
    the root node, [treapUsurpingFind] hands back the state it was given:
    every key, priority and link and the root slot are as before. *)
Theorem treapUsurpingFind_unchanged s t key fuel :
  models s t → (height t < fuel)%nat →
  ((∀ a, ¬ has_key s t a key)
   ∨ (∃ a n, root s = Some a ∧ mem s !! a = Some n ∧ treeKey n = key)) →
  ∃ r, treapUsurpingFind fuel key s = Done r s.
Proof.
  intros Hm Hf Hk. unfold treapUsurpingFind.
  erewrite bind_Done by (by apply treapFind_tfind).
  destruct Hm as [Hrt Hr]. destruct Hk as [Hno|(a & n & Ha & Hn & Hkn)].
  - rewrite tfind_None; [by eexists|]. intros Hk.
    destruct (repr_key_node _ _ _ _ Hr Hk) as (a & n & Ha & Hn & Hkn).
    apply (Hno a). split; eauto.
  - rewrite Hrt in Ha. destruct t as [|l a' k h r]; [done|].
    injection Ha as ->. destruct Hr as (Ha & _).
    rewrite Hn in Ha. injection Ha as ->. simpl in Hkn. subst k.
    rewrite tfind_here. exec1. exec1. by eexists.
Qed.

Lemma treapUsurpingFind_unchanged_witness :
  ∃ r, treapUsurpingFind 3 2 ex3_state = Done r ex3_state.
Proof.
  apply (treapUsurpingFind_unchanged ex3_state ex3_tree 2 3).
  - exact ex3_models.
  - simpl. lia.
  - right. exists 1%positive. eexists. repeat split; reflexivity.
Defined.

(** ** [treapRotate] on a treap in search order *)

Lemma bst_slot_ok c l a k h r : bst (plug c (Bin l a k h r)) → slot_ok c k.
Proof.
  destruct c as [|f c]; [done|]. simpl. intros Hb.
  apply bst_by_plug_inv in Hb. unfold bst in Hb.
  destruct f as [g gk gh gr|gl g gk gh]; simpl in *.
  - destruct Hb as (Fl & _). rewrite Forall_app, Forall_cons in Fl. tauto.
  - destruct Hb as (_ & Fr & _). rewrite Forall_app, Forall_cons in Fr.
    unfold right_of in Fr. lia.
Qed.

Lemma bst_left_lt c ll pa pk ph lr ra rk rh rr :
  bst (plug c (Bin (Bin ll pa pk ph lr) ra rk rh rr)) → pk < rk.
Proof.
  intros Hb. apply bst_by_plug_inv in Hb. destruct Hb as (Fl & _).
  simpl in Fl. rewrite Forall_app, Forall_cons in Fl. tauto.
Qed.

Lemma bst_right_gt c ll pa pk ph rl ra rk rh rr :
  bst (plug c (Bin ll ra rk rh (Bin rl pa pk ph rr))) → rk < pk.
Proof.
  intros Hb. apply bst_by_plug_inv in Hb. destruct Hb as (_ & Fr & _).
  simpl in Fr. rewrite Forall_app, Forall_cons in Fr. unfold right_of in Fr.
  tauto.
Qed.

Lemma keys_plug_eq c t t' : keys t = keys t' → keys (plug c t) = keys (plug c t').
Proof.
  revert t t'. induction c as [|f c IH]; intros t t' H; simpl; [done|].
  apply IH. destruct f; simpl; by rewrite H.
Qed.

Lemma addrs_plug_eq c t t' :
  addrs t = addrs t' → addrs (plug c t) = addrs (plug c t').
Proof.
  revert t t'. induction c as [|f c IH]; intros t t' H; simpl; [done|].
  apply IH. destruct f; simpl; by rewrite H.
Qed.

Lemma keys_rotate ll pa pk ph lr ra rk rh rr :
  keys (Bin (Bin ll pa pk ph lr) ra rk rh rr)
  = keys (Bin ll pa pk ph (Bin lr ra rk rh rr)).
Proof. simpl. by rewrite <-app_assoc. Qed.

Lemma addrs_rotate ll pa pk ph lr ra rk rh rr :
  addrs (Bin (Bin ll pa pk ph lr) ra rk rh rr)
  = addrs (Bin ll pa pk ph (Bin lr ra rk rh rr)).
Proof. simpl. by rewrite <-app_assoc. Qed.

Lemma bst_plug_rotate_right c ll pa pk ph lr ra rk rh rr :
  bst (plug c (Bin (Bin ll pa pk ph lr) ra rk rh rr)) →
  bst (plug c (Bin ll pa pk ph (Bin lr ra rk rh rr))).
Proof.
  intros Hb. eapply bst_by_plug_perm; [|
    |exact Hb].
  - by rewrite keys_rotate.
  - apply bst_rotate. by eapply bst_by_plug_inv.
Qed.

Lemma bst_plug_rotate_left c ll pa pk ph lr ra rk rh rr :
  bst (plug c (Bin ll pa pk ph (Bin lr ra rk rh rr))) →
  bst (plug c (Bin (Bin ll pa pk ph lr) ra rk rh rr)).
Proof.
  intros Hb. eapply bst_by_plug_perm; [|
    |exact Hb].
  - by rewrite keys_rotate.
  - apply bst_rotate. by eapply bst_by_plug_inv.
Qed.

(** What a rotation leaves in the two nodes and in the slot above them,
    read off the tree the new state holds. *)
Lemma models_plug_node s c l a k h r :
  models s (plug c (Bin l a k h r)) →
  mem s !! a = Some (mkNode k h (tptr l) (tptr r) (cptr c)).
Proof. intros [_ Hr]. by apply repr_plug in Hr as [_ (Ha & _)]. Qed.

Lemma models_plug_child_l s c ll pa pk ph lr a k h r :
  models s (plug c (Bin (Bin ll pa pk ph lr) a k h r)) →
  mem s !! pa = Some (mkNode pk ph (tptr ll) (tptr lr) (Some a)).
Proof. intros [_ Hr]. by apply repr_plug in Hr as [_ (_ & (Ha & _) & _)]. Qed.

Lemma models_plug_child_r s c l a k h rl pa pk ph rr :
  models s (plug c (Bin l a k h (Bin rl pa pk ph rr))) →
  mem s !! pa = Some (mkNode pk ph (tptr rl) (tptr rr) (Some a)).
Proof. intros [_ Hr]. by apply repr_plug in Hr as [_ (_ & _ & (Ha & _))]. Qed.

Lemma models_plug_parent s f c t :
  models s (plug (f :: c) t) →
  mem s !! faddr f
  = Some match f with
         | FL _ gk gh gr => mkNode gk gh (tptr t) (tptr gr) (cptr c)
         | FR gl _ gk gh => mkNode gk gh (tptr gl) (tptr t) (cptr c)
         end.
Proof.
  intros [_ Hr]. apply repr_plug in Hr as [Hc _].
  destruct f; simpl in *; tauto.
Qed.

Lemma models_plug_root s c t : models s (plug c t) → root s = ctx_root c (tptr t).
Proof. intros [Hr _]. by rewrite tptr_plug in Hr. Qed.

(** C4: on a treap in search order, [treapRotate] on a node [rt] and a
    direct child [pv] of it rotates right when the key of [pv] is smaller
    than that of [rt] (then [pv] was the left child; its right subtree
    becomes the left subtree of [rt], and [rt] its right child) and rotates
    left otherwise (the mirror image).  [pv] takes over the parent link of
    [rt], the slot that referenced [rt] (child slot of the grandparent, or
    root slot of the treap) references [pv], the parent of [rt] is [pv], and
    the in-order key sequence of the treap is unchanged. *)
Theorem treapRotate_correct s t rt pv nr np :
  models s t → bst t →
  rt ∈ addrs t →
  mem s !! rt = Some nr → mem s !! pv = Some np →
  L nr = Some pv ∨ R nr = Some pv →
  ∃ s' nr' np' t',
    treapRotate (Some rt) (Some pv) s = Done tt s'
    ∧ mem s' !! rt = Some nr' ∧ mem s' !! pv = Some np'
    (* the direction is decided by the keys, and agrees with the side *)
    ∧ (treeKey np < treeKey nr ↔ L nr = Some pv)
    (* right-rotation *)
    ∧ (treeKey np < treeKey nr →
       L nr' = R np ∧ R np' = Some rt ∧ R nr' = R nr ∧ L np' = L np)
    (* left-rotation *)
    ∧ (¬ treeKey np < treeKey nr →
       R nr' = L np ∧ L np' = Some rt ∧ L nr' = L nr ∧ R np' = R np)
    (* common finish *)
    ∧ P np' = P nr
    ∧ P nr' = Some pv
    ∧ match P nr with
      | None => root s = Some rt ∧ root s' = Some pv
      | Some g =>
          root s' = root s
          ∧ ∃ ng ng', mem s !! g = Some ng ∧ mem s' !! g = Some ng'
              ∧ ((L ng = Some rt ∧ L ng' = Some pv ∧ R ng' = R ng)
                 ∨ (R ng = Some rt ∧ R ng' = Some pv ∧ L ng' = L ng))
      end
    ∧ models s' t' ∧ bst t' ∧ keys t' = keys t.
Proof.
  intros Hm Hb Hin Hnr Hnp Hchild.
  pose proof (models_NoDup _ _ Hm Hb) as Hnd.
  destruct (in_addrs_plug _ _ Hin) as (c & l & k & h & r & ->).
  pose proof (models_plug_node _ _ _ _ _ _ _ Hm) as Hrt.
  rewrite Hnr in Hrt. injection Hrt as ->.
  pose proof (bst_slot_ok _ _ _ _ _ _ Hb) as Hslot.
  cbn [L R P treeKey] in *.
  assert (tptr l ≠ tptr r ∨ tptr l = None) as Hlr.
  { destruct l as [|ll la lk lh lr], r as [|rl ra rk rh rr]; simpl; auto.
    left. intros [= ->]. rewrite addrs_plug in Hnd. simpl in Hnd.
    nodup_split Hnd. congruence. }
  destruct Hchild as [Hc|Hc].
  - destruct l as [|ll pa pk ph lr]; [done|]. injection Hc as ->.
    pose proof (models_plug_child_l _ _ _ _ _ _ _ _ _ _ _ Hm) as Hpv.
    rewrite Hnp in Hpv. injection Hpv as ->.
    pose proof (bst_left_lt _ _ _ _ _ _ _ _ _ _ Hb) as Hlt.
    destruct (rotate_right_models _ _ _ _ _ _ _ _ _ _ _ Hm Hnd Hlt Hslot)
      as (s' & Hrun & Hm').
    exists s'. do 2 eexists. eexists.
    split; [exact Hrun|].
    split; [apply (models_plug_child_r _ _ _ _ _ _ _ _ _ _ _ Hm')|].
    split; [apply (models_plug_node _ _ _ _ _ _ _ Hm')|].
    cbn [L R P treeKey tptr].
    split; [tauto|]. split; [done|]. split; [done|]. split; [done|].
    split; [done|]. split.
    { destruct c as [|f c]; cbn [cptr].
      - split; [apply (models_plug_root _ _ _ Hm)|apply (models_plug_root _ _ _ Hm')].
      - split.
        + rewrite (models_plug_root _ _ _ Hm), (models_plug_root _ _ _ Hm'). done.
        + do 2 eexists.
          split; [apply (models_plug_parent _ _ _ _ Hm)|].
          split; [apply (models_plug_parent _ _ _ _ Hm')|].
          destruct f; cbn [L R tptr]; auto. }
    split; [exact Hm'|]. split; [by apply bst_plug_rotate_right|].
    apply keys_plug_eq. symmetry. apply keys_rotate.
  - destruct r as [|rl pa pk ph rr]; [done|]. injection Hc as ->.
    pose proof (models_plug_child_r _ _ _ _ _ _ _ _ _ _ _ Hm) as Hpv.
    rewrite Hnp in Hpv. injection Hpv as ->.
    pose proof (bst_right_gt _ _ _ _ _ _ _ _ _ _ Hb) as Hlt.
    assert (¬ pk < k) as Hnlt by lia.
    destruct (rotate_left_models _ _ _ _ _ _ _ _ _ _ _ Hm Hnd Hnlt Hslot)
      as (s' & Hrun & Hm').
    exists s'. do 2 eexists. eexists.
    split; [exact Hrun|].
    split; [apply (models_plug_child_l _ _ _ _ _ _ _ _ _ _ _ Hm')|].
    split; [apply (models_plug_node _ _ _ _ _ _ _ Hm')|].
    cbn [L R P treeKey tptr].
    split.
    { split; [lia|]. intros Hl. destruct Hlr as [Hlr|Hlr]; [|congruence].
      simpl in Hlr. congruence. }
    split; [lia|]. split; [done|]. split; [done|].
    split; [done|]. split.
    { destruct c as [|f c]; cbn [cptr].
      - split; [apply (models_plug_root _ _ _ Hm)|apply (models_plug_root _ _ _ Hm')].
      - split.
        + rewrite (models_plug_root _ _ _ Hm), (models_plug_root _ _ _ Hm'). done.
        + do 2 eexists.
          split; [apply (models_plug_parent _ _ _ _ Hm)|].
          split; [apply (models_plug_parent _ _ _ _ Hm')|].
          destruct f; cbn [L R tptr]; auto. }
    split; [exact Hm'|]. split; [by apply bst_plug_rotate_left|].
    apply keys_plug_eq. apply keys_rotate.
Qed.

Lemma treapRotate_correct_witness :
  ∃ s' nr' np' t',
    treapRotate (Some 1%positive) (Some 2%positive) ex3_state = Done tt s'
    ∧ mem s' !! 1%positive = Some nr' ∧ mem s' !! 2%positive = Some np'
    ∧ (treeKey (mkNode 1 1 None None (Some 1%positive))
       < treeKey (mkNode 2 10 (Some 2%positive) (Some 3%positive) None)
       ↔ L (mkNode 2 10 (Some 2%positive) (Some 3%positive) None) = Some 2%positive)
    ∧ (treeKey (mkNode 1 1 None None (Some 1%positive))
       < treeKey (mkNode 2 10 (Some 2%positive) (Some 3%positive) None) →
       L nr' = R (mkNode 1 1 None None (Some 1%positive))
       ∧ R np' = Some 1%positive
       ∧ R nr' = R (mkNode 2 10 (Some 2%positive) (Some 3%positive) None)
       ∧ L np' = L (mkNode 1 1 None None (Some 1%positive)))
    ∧ (¬ treeKey (mkNode 1 1 None None (Some 1%positive))
         < treeKey (mkNode 2 10 (Some 2%positive) (Some 3%positive) None) →
       R nr' = L (mkNode 1 1 None None (Some 1%positive))
       ∧ L np' = Some 1%positive
       ∧ L nr' = L (mkNode 2 10 (Some 2%positive) (Some 3%positive) None)
       ∧ R np' = R (mkNode 1 1 None None (Some 1%positive)))
    ∧ P np' = P (mkNode 2 10 (Some 2%positive) (Some 3%positive) None)
    ∧ P nr' = Some 2%positive
    ∧ match P (mkNode 2 10 (Some 2%positive) (Some 3%positive) None) with
      | None => root ex3_state = Some 1%positive ∧ root s' = Some 2%positive
      | Some g =>
          root s' = root ex3_state
          ∧ ∃ ng ng', mem ex3_state !! g = Some ng ∧ mem s' !! g = Some ng'
              ∧ ((L ng = Some 1%positive ∧ L ng' = Some 2%positive ∧ R ng' = R ng)
                 ∨ (R ng = Some 1%positive ∧ R ng' = Some 2%positive ∧ L ng' = L ng))
      end
    ∧ models s' t' ∧ bst t' ∧ keys t' = keys ex3_tree.
Proof.
  apply (treapRotate_correct ex3_state ex3_tree 1%positive 2%positive
           (mkNode 2 10 (Some 2%positive) (Some 3%positive) None)
           (mkNode 1 1 None None (Some 1%positive))).
  - exact ex3_models.
  - exact ex3_bst.
  - simpl. apply elem_of_cons. right. left.
  - reflexivity.
  - reflexivity.
  - left. reflexivity.
Defined.

(** ** [treapUsurpingFind] on a node below the root *)

Lemma swap_models m rt f c l a k h r :
  models (mkState m rt) (plug (f :: c) (Bin l a k h r)) →
  NoDup (addrs (plug (f :: c) (Bin l a k h r))) →
  ∃ nf na,
    m !! faddr f = Some nf ∧ m !! a = Some na
    ∧ P na = Some (faddr f) ∧ heapKey na = h
    ∧ models (mkState (<[faddr f := set_heapKey h nf]>
                         (<[a := set_heapKey (heapKey nf) na]> m)) rt)
        (plug (fset_prio h f :: c) (Bin l a k (heapKey nf) r)).
Proof.
  intros [Hrt Hrep] Hnd. cbn [mem root] in *.
  rewrite tptr_plug in Hrt.
  apply repr_plug in Hrep as [Hc Ht]. cbn [repr tptr] in Ht, Hc.
  destruct Ht as (Ha & Hl & Hr).
  rewrite addrs_plug in Hnd. cbn [addrs] in Hnd.
  destruct f as [g gk gh gr|gl g gk gh];
    cbn [repr_ctx cptr caddrs faddrs faddr ctx_root tptr] in *;
    destruct Hc as (Hg & Hgs & Hc'); nodup_split Hnd;
    do 2 eexists; (split; [exact Hg|]); (split; [exact Ha|]);
    (split; [done|]); (split; [done|]);
    (split; cbn [mem root];
     [rewrite tptr_plug; cbn [ctx_root tptr faddr fset_prio]; done|]);
    apply repr_plug; cbn [repr_ctx repr tptr cptr faddr fset_prio];
    unfold set_heapKey; cbn [treeKey heapKey L R P];
    split_and!; try lk; frame_solve [a; g].
Qed.

Lemma usurp_step s f c l a k h r fuel :
  models s (plug (f :: c) (Bin l a k h r)) →
  bst (plug (f :: c) (Bin l a k h r)) →
  (height (plug (f :: c) (Bin l a k h r)) < fuel)%nat →
  ∃ s', treapUsurpingFind fuel k s = Done (Some a) s'
        ∧ models s' (plug c (usurped f l a k h r))
        ∧ bst (plug c (usurped f l a k h r)).
Proof.
  intros Hm Hb Hf.
  pose proof (models_NoDup _ _ Hm Hb) as Hnd.
  unfold treapUsurpingFind.
  erewrite bind_Done by (by apply treapFind_tfind).
  rewrite tfind_node by done.
  destruct s as [m rt].
  destruct (swap_models _ _ _ _ _ _ _ _ _ Hm Hnd)
    as (nf & na & Hnf & Hna & HP & Hh & Hm1).
  repeat exec1. rewrite HP. repeat exec1.
  rewrite HP. repeat exec1.
  assert (faddr f ≠ a) as Hne.
  { rewrite addrs_plug in Hnd. destruct f; simpl in Hnd; nodup_split Hnd; done. }
  repeat exec1. rewrite HP. repeat exec1. rewrite HP. rewrite Hh.
  pose proof (models_plug_parent _ _ _ _ Hm) as Hnf'. cbn [mem] in Hnf'.
  rewrite Hnf in Hnf'. injection Hnf' as Hnf'.
  assert (NoDup (addrs (plug (fset_prio h f :: c) (Bin l a k (heapKey nf) r)))) as Hnd1.
  { cbn [plug] in *. erewrite addrs_plug_eq; [exact Hnd|]. by destruct f. }
  assert (bst (plug (fset_prio h f :: c) (Bin l a k (heapKey nf) r))) as Hb1.
  { revert Hb. simpl. intros Hb. eapply bst_by_plug_perm; [| |exact Hb].
    - by destruct f.
    - apply bst_by_plug_inv in Hb. by destruct f. }
  destruct f as [g gk gh gr|gl g gk gh]; cbn [faddr fset_prio plug fill usurped] in *;
    subst nf; cbn [heapKey] in *.
  - pose proof (bst_left_lt _ _ _ _ _ _ _ _ _ _ Hb1) as Hlt.
    pose proof (bst_slot_ok _ _ _ _ _ _ Hb1) as Hslot.
    destruct (rotate_right_models _ _ _ _ _ _ _ _ _ _ _ Hm1 Hnd1 Hlt Hslot)
      as (s' & Hrun & Hm').
    erewrite bind_Done by exact Hrun.
    exists s'. split; [reflexivity|]. split; [done|].
    by apply bst_plug_rotate_right.
  - pose proof (bst_right_gt _ _ _ _ _ _ _ _ _ _ Hb1) as Hlt.
    pose proof (bst_slot_ok _ _ _ _ _ _ Hb1) as Hslot.
    assert (¬ k < gk) as Hnlt by lia.
    destruct (rotate_left_models _ _ _ _ _ _ _ _ _ _ _ Hm1 Hnd1 Hnlt Hslot)
      as (s' & Hrun & Hm').
    erewrite bind_Done by exact Hrun.
    exists s'. split; [reflexivity|]. split; [done|].
    by apply bst_plug_rotate_left.
Qed.

Lemma depth_in_None x t : x ∉ addrs t → depth_in x t = None.
Proof.
  induction t as [|l IHl a k h r IHr]; simpl; [done|].
  rewrite not_elem_of_app, not_elem_of_cons. intros (Hl & Ha & Hr).
  rewrite decide_False by done. by rewrite IHl, IHr.
Qed.

Lemma depth_in_fill x f t d :
  depth_in x t = Some d → x ∉ faddrs f →
  depth_in x (fill f t) = Some (S d).
Proof.
  destruct f as [g gk gh gr|gl g gk gh]; simpl;
    rewrite not_elem_of_cons; intros Hd [Hne Hs];
    rewrite decide_False by done.
  - by rewrite Hd.
  - by rewrite depth_in_None, Hd.
Qed.

Lemma depth_in_plug x c t d :
  depth_in x t = Some d → x ∉ caddrs c →
  depth_in x (plug c t) = Some (d + length c)%nat.
Proof.
  revert t d. induction c as [|f c IH]; intros t d Hd Hc; simpl.
  - by rewrite Nat.add_0_r.
  - simpl in Hc. apply not_elem_of_app in Hc as [Hf Hc].
    rewrite (IH _ (S d)); [f_equal; lia| |done].
    by apply depth_in_fill.
Qed.

Lemma depth_in_node c l a k h r :
  NoDup (addrs (plug c (Bin l a k h r))) →
  depth_in a (plug c (Bin l a k h r)) = Some (length c).
Proof.
  intros Hnd. rewrite (depth_in_plug _ _ _ O); [done| |].
  - simpl. by rewrite decide_True.
  - rewrite addrs_plug in Hnd. simpl in Hnd. nodup_split Hnd. assumption.
Qed.

Lemma size_addrs t : size t = length (addrs t).
Proof.
  induction t as [|l IHl a k h r IHr]; simpl; [done|].
  rewrite length_app. simpl. lia.
Qed.

Lemma height_le_size t : (height t ≤ size t)%nat.
Proof. induction t; simpl; lia. Qed.

Lemma addrs_usurped f l a k h r :
  addrs (usurped f l a k h r) = addrs (fill f (Bin l a k h r)).
Proof. destruct f; simpl; by rewrite <-?app_assoc. Qed.

Lemma keys_usurped f l a k h r :
  keys (usurped f l a k h r) = keys (fill f (Bin l a k h r)).
Proof. destruct f; simpl; by rewrite <-?app_assoc. Qed.

Lemma usurp_at_root s l a k h r fuel :
  models s (Bin l a k h r) → (height (Bin l a k h r) < fuel)%nat →
  treapUsurpingFind fuel k s = Done (Some a) s.
Proof.
  intros Hm Hf. unfold treapUsurpingFind.
  erewrite bind_Done by (by apply treapFind_tfind).
  rewrite tfind_here. destruct Hm as [_ (Ha & _)].
  exec1. by exec1.
Qed.

Lemma usurp_times_spec n : ∀ s c l a k h r fuel,
  models s (plug c (Bin l a k h r)) →
  bst (plug c (Bin l a k h r)) →
  (size (plug c (Bin l a k h r)) < fuel)%nat →
  ∃ s' c' l' h' r',
    usurp_times n fuel k s = Done tt s'
    ∧ models s' (plug c' (Bin l' a k h' r'))
    ∧ bst (plug c' (Bin l' a k h' r'))
    ∧ length c' = (length c - n)%nat
    ∧ keys (plug c' (Bin l' a k h' r')) = keys (plug c (Bin l a k h r)).
Proof.
  induction n as [|n IH]; intros s c l a k h r fuel Hm Hb Hf.
  - exists s, c, l, h, r. split_and!; auto; simpl; lia.
  - cbn [usurp_times]. destruct c as [|f c].
    + erewrite bind_Done by
        (apply (usurp_at_root _ l a k h r); [done|];
         pose proof (height_le_size (Bin l a k h r)); simpl in *; lia).
      destruct (IH s [] l a k h r fuel Hm Hb Hf) as (s' & c' & l' & h' & r' & H).
      exists s', c', l', h', r'. destruct H as (? & ? & ? & Hlen & ?).
      split_and!; auto; simpl in *; lia.
    + destruct (usurp_step s f c l a k h r fuel Hm Hb) as (s1 & Hrun & Hm1 & Hb1).
      { pose proof (height_le_size (plug (f :: c) (Bin l a k h r))). lia. }
      erewrite bind_Done by exact Hrun.
      assert (∃ l1 h1 r1, usurped f l a k h r = Bin l1 a k h1 r1)
        as (l1 & h1 & r1 & Hu) by (destruct f; simpl; eauto).
      assert (keys (plug c (usurped f l a k h r)) = keys (plug (f :: c) (Bin l a k h r))) as Hk.
      { simpl. apply keys_plug_eq, keys_usurped. }
      assert (size (plug c (usurped f l a k h r)) = size (plug (f :: c) (Bin l a k h r))) as Hs.
      { rewrite !size_addrs. f_equal. simpl. apply addrs_plug_eq, addrs_usurped. }
      rewrite Hu in *.
      destruct (IH s1 c l1 a k h1 r1 fuel Hm1 Hb1) as (s' & c' & l' & h' & r' & H);
        [lia|].
      exists s', c', l', h', r'. destruct H as (? & ? & ? & Hlen & Hk').
      split_and!; auto; congruence.
Qed.

Lemma has_key_plug s t a k :
  models s t → has_key s t a k → ∃ c l h r, t = plug c (Bin l a k h r).
Proof.
  intros Hm [Hin (n & Hn & Hk)].
  destruct (in_addrs_plug _ _ Hin) as (c & l & k' & h & r & ->).
  rewrite (models_plug_node _ _ _ _ _ _ _ Hm) in Hn. injection Hn as <-.
  simpl in Hk. subst k'. eauto.
Qed.

Lemma plug_has_key s c l a k h r :
  models s (plug c (Bin l a k h r)) → has_key s (plug c (Bin l a k h r)) a k.
Proof.
  intros Hm. split.
  - rewrite addrs_plug. apply elem_of_app. right. simpl.
    apply elem_of_app. right. left.
  - eexists. split; [by apply models_plug_node|done].
Qed.

(** C7, as the program has it: a call of [treapUsurpingFind] on the key of
    a node at depth [d > 0] puts that node at depth [d - 1]; [n] calls in a
    row put it at depth [d - n], one level per call whatever the priorities
    are, until the node is the root, where it stays. *)
Theorem usurping_promotes s t a k d fuel n :
  models s t → bst t → has_key s t a k → depth_in a t = Some d →
  (size t < fuel)%nat →
  (∃ s1 t1, treapUsurpingFind fuel k s = Done (Some a) s1
            ∧ models s1 t1 ∧ bst t1 ∧ keys t1 = keys t
            ∧ depth_in a t1 = Some (d - 1)%nat)
  ∧ (∃ sn tn, usurp_times n fuel k s = Done tt sn
              ∧ models sn tn ∧ bst tn ∧ keys tn = keys t
              ∧ has_key sn tn a k
              ∧ depth_in a tn = Some (d - n)%nat).
Proof.
  intros Hm Hb Hk Hd Hf.
  destruct (has_key_plug _ _ _ _ Hm Hk) as (c & l & h & r & ->).
  rewrite depth_in_node in Hd by (by eapply models_NoDup).
  injection Hd as <-. split.
  - destruct c as [|f c].
    + exists s. eexists. split; [|split_and!; try done].
      * eapply usurp_at_root; [done|].
        pose proof (height_le_size (Bin l a k h r)). simpl in *. lia.
      * simpl. by rewrite decide_True.
    + destruct (usurp_step s f c l a k h r fuel Hm Hb) as (s1 & Hrun & Hm1 & Hb1).
      { pose proof (height_le_size (plug (f :: c) (Bin l a k h r))). lia. }
      exists s1. eexists. split; [exact Hrun|]. split; [exact Hm1|].
      split; [exact Hb1|]. split.
      * simpl. apply keys_plug_eq, keys_usurped.
      * assert (∃ l1 h1 r1, usurped f l a k h r = Bin l1 a k h1 r1)
          as (l1 & h1 & r1 & Hu) by (destruct f; simpl; eauto).
        rewrite Hu in *. rewrite depth_in_node by (by eapply models_NoDup).
        f_equal. simpl. lia.
  - destruct (usurp_times_spec n s c l a k h r fuel Hm Hb Hf)
      as (sn & c' & l' & h' & r' & Hrun & Hmn & Hbn & Hlen & Hkeys).
    exists sn. eexists. split; [exact Hrun|]. split; [exact Hmn|].
    split; [exact Hbn|]. split; [exact Hkeys|].
    split; [by apply plug_has_key|].
    rewrite depth_in_node by (by eapply models_NoDup). by rewrite Hlen.
Qed.

Lemma ex_chain_models : models ex_chain_state ex_chain_tree.
Proof. split; [reflexivity|]. simpl. repeat split; reflexivity. Qed.

Lemma ex_chain_bst : bst ex_chain_tree.
Proof. unfold bst; simpl. unfold right_of. repeat constructor. Qed.

Lemma ex_chain_heap_ord : heap_ord ex_chain_tree.
Proof. simpl. repeat split; lia. Qed.

Lemma usurping_promotes_witness :
  (∃ s1 t1, treapUsurpingFind 4 1 ex3_state = Done (Some 2%positive) s1
            ∧ models s1 t1 ∧ bst t1 ∧ keys t1 = keys ex3_tree
            ∧ depth_in 2%positive t1 = Some (1 - 1)%nat)
  ∧ (∃ sn tn, usurp_times 2 4 1 ex3_state = Done tt sn
              ∧ models sn tn ∧ bst tn ∧ keys tn = keys ex3_tree
              ∧ has_key sn tn 2%positive 1
              ∧ depth_in 2%positive tn = Some (1 - 2)%nat).
Proof.
  apply (usurping_promotes ex3_state ex3_tree 2%positive 1 1%nat 4%nat 2%nat).
  - exact ex3_models.
  - exact ex3_bst.
  - split.
    + simpl. left.
    + eexists. split; reflexivity.
  - reflexivity.
  - simpl. lia.
Defined.

(** C7 as stated fails: on the chain 3 - 2 - 1 (priorities 30, 20, 10) one
    call for key 1 leaves its node below a parent of strictly higher
    priority (30 against 20), and the next call still moves the node up, to
    the root. *)
Lemma usurping_ignores_priorities :
  Inv ex_chain_state ex_chain_tree
  ∧ ∃ s1 t1 na np s2 t2,
      treapUsurpingFind 4 1 ex_chain_state = Done (Some 3%positive) s1
      ∧ models s1 t1 ∧ depth_in 3%positive t1 = Some 1%nat
      ∧ mem s1 !! 3%positive = Some na ∧ P na = Some 1%positive
      ∧ mem s1 !! 1%positive = Some np ∧ heapKey na < heapKey np
      ∧ treapUsurpingFind 4 1 s1 = Done (Some 3%positive) s2
      ∧ models s2 t2 ∧ depth_in 3%positive t2 = Some 0%nat.
Proof.
  split; [split_and!; [exact ex_chain_models|exact ex_chain_bst|exact ex_chain_heap_ord]|].
  eexists.
  exists (Bin (Bin Nil 3%positive 1 20 (Bin Nil 2%positive 2 10 Nil)) 1%positive 3 30 Nil).
  do 2 eexists. eexists.
  exists (Bin Nil 3%positive 1 30 (Bin (Bin Nil 2%positive 2 10 Nil) 1%positive 3 20 Nil)).
  split; [vm_compute; reflexivity|].
  split; [split; [reflexivity|simpl; repeat split; reflexivity]|].
  split; [reflexivity|].
  split; [reflexivity|].
  split; [reflexivity|].
  split; [reflexivity|].
  split; [reflexivity|].
  split; [vm_compute; reflexivity|].
  split; [split; [reflexivity|simpl; repeat split; reflexivity]|].
  reflexivity.
Qed.

(** ** [treapAppend] *)

Lemma plug_seek key t c : plug (seek key t c) Nil = plug c t.
Proof.
  revert c. induction t as [|l IHl a k h r IHr]; intros c; simpl; [done|].
  destruct (key <? k); [by rewrite IHl|by rewrite IHr].
Qed.

Lemma path_ok_seek key t c : path_ok key c → path_ok key (seek key t c).
Proof.
  unfold path_ok. revert c.
  induction t as [|l IHl a k h r IHr]; intros c Hc; simpl; [done|].
  destruct (key <? k) eqn:E.
  - apply IHl. constructor; [|done]. simpl. by apply N.ltb_lt.
  - apply IHr. constructor; [|done]. simpl. by apply N.ltb_nlt.
Qed.

Lemma length_seek key t c : (length (seek key t c) ≤ height t + length c)%nat.
Proof.
  revert c. induction t as [|l IHl a k h r IHr]; intros c; simpl; [done|].
  destruct (key <? k).
  - specialize (IHl (FL a k h r :: c)). simpl in IHl. lia.
  - specialize (IHr (FR l a k h :: c)). simpl in IHr. lia.
Qed.

Lemma seek_cons key l a k h r c :
  ∃ f c', seek key (Bin l a k h r) c = f :: c'.
Proof.
  assert (∀ t c f, ∃ f' c', seek key t (f :: c) = f' :: c') as H.
  { induction t as [|l' IHl a' k' h' r' IHr]; intros c0 f; simpl; [eauto|].
    destruct (key <? k'); auto. }
  simpl. destruct (key <? k); apply H.
Qed.

Lemma bst_chain_ok c t : bst (plug c t) → chain_ok c.
Proof.
  revert t. induction c as [|f c IH]; intros t Hb; simpl; [done|].
  simpl in Hb. split; [|by eapply IH].
  destruct f; simpl in *; by eapply bst_slot_ok.
Qed.

Lemma append_seek_ok m rt key : ∀ t c fuel,
  t ≠ Nil →
  models (mkState m rt) (plug c t) → (height t ≤ fuel)%nat →
  append_seek fuel key (tptr t) (mkState m rt)
  = Done (cptr (seek key t c)) (mkState m rt).
Proof.
  induction t as [|l IHl a k h r IHr]; intros c fuel Hne Hm Hf; [done|].
  destruct fuel as [|fuel]; [simpl in Hf; lia|]. simpl in Hf.
  pose proof (models_plug_node _ _ _ _ _ _ _ Hm) as Ha. cbn [mem] in Ha.
  cbn [append_seek tptr seek]. exec1.
  destruct (key <? k).
  - exec1. destruct l as [|ll la lk lh lr].
    + reflexivity.
    + apply (IHl (FL a k h r :: c)); [done|done|lia].
  - exec1. destruct r as [|rl ra rk rh rr].
    + reflexivity.
    + apply (IHr (FR l a k h :: c)); [done|done|lia].
Qed.

Lemma repr_dom m p t a : repr m p t → a ∈ addrs t → is_Some (m !! a).
Proof.
  intros Hr Ha. destruct (repr_lookup _ _ _ _ Hr Ha) as (n & Hn & _). eauto.
Qed.

(** Allocation and linking of the new leaf, followed by any continuation. *)
Lemma append_link_models m rt c key hk nw :
  models (mkState m rt) (plug c Nil) →
  NoDup (addrs (plug c Nil)) →
  m !! nw = None →
  ∃ s1, models s1 (plug c (Bin Nil nw key hk Nil))
        ∧ ∀ B (K : ptr → M B),
            (let* newNode := malloc nw in
             wr newNode (set_P (cptr c)) >>
             wr newNode (set_L None) >>
             wr newNode (set_R None) >>
             wr newNode (set_treeKey key) >>
             wr newNode (set_heapKey hk) >>
             wr_slot (match c with
                      | [] => RootSlot
                      | FL g _ _ _ :: _ => LSlot (Some g)
                      | FR _ g _ _ :: _ => RSlot (Some g)
                      end) newNode >>
             K newNode) (mkState m rt) = K (Some nw) s1.
Proof.
  intros Hm Hnd Hnw.
  assert (nw ∉ addrs (plug c Nil)) as Hfresh.
  { intros Hin. destruct Hm as [_ Hr].
    destruct (repr_dom _ _ _ _ Hr Hin) as [n Hn]. cbn [mem] in Hn. congruence. }
  destruct Hm as [Hrt Hrep]. cbn [mem root] in *.
  rewrite tptr_plug in Hrt. cbn [tptr] in Hrt.
  apply repr_plug in Hrep as [Hc _]. cbn [tptr] in Hc.
  rewrite addrs_plug in Hnd, Hfresh. cbn [addrs] in Hnd, Hfresh.
  destruct c as [|[g gk gh gr|gl g gk gh] c'];
    cbn [repr_ctx cptr caddrs faddrs faddr wr_slot] in *;
    [|destruct Hc as (Hg & Hgs & Hc')..];
    nodup_split Hnd;
    rewrite ?not_elem_of_app, ?not_elem_of_cons in Hfresh; destruct_and? Hfresh;
    (eexists; split;
     [|intros B K; erewrite bind_Done by (by apply malloc_Done);
       repeat exec1; reflexivity]).
  - split; cbn [mem root plug tptr]; [done|].
    cbn [repr tptr]. split_and!; try done.
    unfold set_P, set_L, set_R, set_treeKey, set_heapKey;
      cbn [treeKey heapKey L R P]. lk.
  - split; cbn [mem root]; [rewrite tptr_plug; cbn [ctx_root tptr faddr]; done|].
    apply repr_plug; cbn [repr_ctx repr tptr cptr faddr].
    unfold set_P, set_L, set_R, set_treeKey, set_heapKey;
      cbn [treeKey heapKey L R P].
    split_and!; try lk; try done; frame_solve [nw; g].
  - split; cbn [mem root]; [rewrite tptr_plug; cbn [ctx_root tptr faddr]; done|].
    apply repr_plug; cbn [repr_ctx repr tptr cptr faddr].
    unfold set_P, set_L, set_R, set_treeKey, set_heapKey;
      cbn [treeKey heapKey L R P].
    split_and!; try lk; try done; frame_solve [nw; g].
Qed.

Lemma addrs_fill_eq f t t' : addrs t = addrs t' → addrs (fill f t) = addrs (fill f t').
Proof. intros H. destruct f; simpl; by rewrite H. Qed.

(** The priority loop: it ends within [length c + 1] tests, on the tree
    [bubble] computes. *)
Lemma append_bubble_ok nw key hk : ∀ c l r s fuel,
  models s (plug c (Bin l nw key hk r)) →
  NoDup (addrs (plug c (Bin l nw key hk r))) →
  path_ok key c → chain_ok c →
  (length c < fuel)%nat →
  ∃ s', append_bubble fuel (Some nw) s = Done tt s'
        ∧ models s' (bubble c l nw key hk r)
        ∧ NoDup (addrs (bubble c l nw key hk r)).
Proof.
  induction c as [|f c IH]; intros l r s fuel Hm Hnd Hp Hch Hf;
    (destruct fuel as [|fuel]; [simpl in Hf; lia|]); simpl in Hf;
    pose proof (models_plug_node _ _ _ _ _ _ _ Hm) as Hnw;
    cbn [append_bubble bubble].
  - exec1. cbn [cptr]. exists s. by split_and!.
  - pose proof (models_plug_parent _ _ _ _ Hm) as Hg.
    exec1. cbn [cptr]. do 2 exec1.
    replace (heapKey _) with (fprio f) by (by destruct f).
    destruct (fprio f <? hk); [|exists s; by split_and!].
    repeat exec1. cbn [cptr].
    apply Forall_cons in Hp as [Hside Hp]. destruct Hch as [Hslot Hch].
    destruct f as [g gk gh gr|gl g gk gh]; cbn [faddr side_ok fkey plug fill] in *.
    + destruct (rotate_right_models _ _ _ _ _ _ _ _ _ _ _ Hm Hnd Hside Hslot)
        as (s1 & Hrun & Hm1).
      erewrite bind_Done by exact Hrun.
      apply (IH l (Bin r g gk gh gr)); [done| |done|done|lia].
      erewrite addrs_plug_eq; [exact Hnd|]. symmetry. apply addrs_rotate.
    + destruct (rotate_left_models _ _ _ _ _ _ _ _ _ _ _ Hm Hnd Hside Hslot)
        as (s1 & Hrun & Hm1).
      erewrite bind_Done by exact Hrun.
      apply (IH (Bin gl g gk gh l) r); [done| |done|done|lia].
      erewrite addrs_plug_eq; [exact Hnd|]. apply addrs_rotate.
Qed.

Lemma NoDup_plug_leaf c nw key hk :
  NoDup (addrs (plug c Nil)) → nw ∉ addrs (plug c Nil) →
  NoDup (addrs (plug c (Bin Nil nw key hk Nil))).
Proof.
  rewrite !addrs_plug. simpl. rewrite app_nil_r. intros Hnd Hnw.
  apply NoDup_app. split_and!; [done| |apply NoDup_singleton].
  intros x Hx [->|Hx']%elem_of_cons; [done|]. by apply elem_of_nil in Hx'.
Qed.

Lemma treapAppend_spec s t key hk nw fuel :
  models s t → bst t → mem s !! nw = None → (height t < fuel)%nat →
  ∃ s', treapAppend fuel key hk nw s = Done (append_handle key nw t) s'
        ∧ models s' (appended key hk nw t)
        ∧ NoDup (addrs (appended key hk nw t))
        ∧ (appended key hk nw t = t → s' = s).
Proof.
  intros Hm Hb Hnw Hf.
  pose proof (models_NoDup _ _ Hm Hb) as Hnd.
  assert (nw ∉ addrs t) as Hfresh.
  { intros Hin. destruct Hm as [_ Hr].
    destruct (repr_dom _ _ _ _ Hr Hin) as [n Hn]. congruence. }
  destruct s as [m rt]. cbn [mem] in *.
  unfold treapAppend, appended, append_handle. rewrite bind_get_root.
  pose proof (proj1 Hm) as Hrt. cbn [root] in *. subst rt.
  destruct t as [|l a k h r]; cbn [tptr].
  - (* empty treap *)
    cbn [seek].
    destruct (append_link_models m _ [] key hk nw Hm Hnd Hnw) as (s1 & Hm1 & Hrun).
    specialize (Hrun _ (λ newNode, append_bubble fuel newNode >> ret newNode)).
    change (append_new fuel key hk nw None RootSlot (mkState m None)
            = (append_bubble fuel (Some nw) >> ret (Some nw)) s1) in Hrun.
    rewrite Hrun.
    destruct (append_bubble_ok nw key hk [] Nil Nil s1 fuel) as (s' & Hb' & Hm' & Hnd');
      [done|apply NoDup_singleton|constructor|done|simpl; lia|].
    erewrite bind_Done by exact Hb'.
    exists s'. split; [reflexivity|]. split; [done|]. split; [done|].
    intros [=].
  - (* seek from the root *)
    erewrite bind_Done by
      (apply (append_seek_ok m _ key (Bin l a k h r) []); [done|done|lia]).
    pose proof (plug_seek key (Bin l a k h r) []) as Hplug. cbn [plug] in Hplug.
    pose proof (path_ok_seek key (Bin l a k h r) [] (Forall_nil_2 _)) as Hp.
    pose proof (length_seek key (Bin l a k h r) []) as Hlen.
    destruct (seek_cons key l a k h r []) as (f & c' & Hs).
    rewrite Hs in *. clear Hs.
    assert (models (mkState m (Some a)) (plug (f :: c') Nil)) as Hm0 by (by rewrite Hplug).
    pose proof (models_plug_parent _ _ _ _ Hm0) as Hg. cbn [mem] in Hg.
    cbn [cptr]. exec1.
    replace (treeKey _) with (fkey f) by (by destruct f).
    destruct (key =? fkey f) eqn:Ek.
    + eexists. split; [reflexivity|]. by split_and!.
    + exec1. replace (treeKey _) with (fkey f) by (by destruct f).
      assert (NoDup (addrs (plug (f :: c') Nil))) as Hnd0 by (by rewrite Hplug).
      assert (nw ∉ addrs (plug (f :: c') Nil)) as Hfresh0 by (by rewrite Hplug).
      destruct (append_link_models m _ (f :: c') key hk nw Hm0 Hnd0 Hnw)
        as (s1 & Hm1 & Hrun).
      specialize (Hrun _ (λ newNode, append_bubble fuel newNode >> ret newNode)).
      pose proof Hp as Hp'. apply Forall_cons in Hp' as [Hside _].
      assert ((if key <? fkey f then LSlot (Some (faddr f)) else RSlot (Some (faddr f)))
              = match f with
                | FL g _ _ _ => LSlot (Some g)
                | FR _ g _ _ => RSlot (Some g)
                end) as ->.
      { destruct f; simpl in *.
        - apply N.ltb_lt in Hside. by rewrite Hside.
        - apply N.ltb_nlt in Hside. by rewrite Hside. }
      change (append_new fuel key hk nw (Some (faddr f))
                match f with
                | FL g _ _ _ => LSlot (Some g)
                | FR _ g _ _ => RSlot (Some g)
                end (mkState m (Some a))
              = (append_bubble fuel (Some nw) >> ret (Some nw)) s1) in Hrun.
      rewrite Hrun.
      destruct (append_bubble_ok nw key hk (f :: c') Nil Nil s1 fuel)
        as (s' & Hb' & Hm' & Hnd'); [done| |done| |simpl in *; lia|].
      { by apply NoDup_plug_leaf. }
      { apply (bst_chain_ok _ Nil). by rewrite Hplug. }
      erewrite bind_Done by exact Hb'.
      exists s'. split; [reflexivity|]. split; [done|]. split; [done|].
      intros Heq. exfalso. apply Hfresh.
      rewrite <-Heq.
      assert (∀ c l r, nw ∈ addrs (bubble c l nw key hk r)) as Hin.
      { clear. induction c as [|f0 c0 IH]; intros l0 r0; cbn [bubble].
        - simpl. apply elem_of_app. right. left.
        - destruct (fprio f0 <? hk); [destruct f0; apply IH|].
          rewrite addrs_plug. apply elem_of_app. right. simpl.
          apply elem_of_app. right. left. }
      apply Hin.
Qed.

(** ** [treapDecouple] *)

Lemma heap_ord_fill_inv f t : heap_ord (fill f t) → heap_ord t.
Proof. destruct f; simpl; tauto. Qed.

Lemma heap_ord_plug_inv c t : heap_ord (plug c t) → heap_ord t.
Proof.
  revert t. induction c as [|f c IH]; intros t; simpl; [done|].
  intros H. by eapply heap_ord_fill_inv, IH.
Qed.

Lemma prio_le_trans t h h' : prio_le t h → h ≤ h' → prio_le t h'.
Proof. destruct t; simpl; [done|lia]. Qed.

Lemma heap_ord_plug_lower c t x :
  heap_ord (plug c t) → heap_ord x → (∀ h, prio_le t h → prio_le x h) →
  heap_ord (plug c x).
Proof.
  revert t x. induction c as [|f c IH]; intros t x Ht Hx Hle; simpl in *; [done|].
  apply (IH (fill f t)); [done| |].
  - apply heap_ord_plug_inv in Ht.
    destruct f; simpl in *; destruct Ht as (? & ? & ? & ?); split_and!; auto.
  - intros h. by destruct f.
Qed.

Lemma hole_heap_init c l a k h r :
  heap_ord (plug c (Bin l a k h r)) → hole_heap c l r.
Proof.
  intros H. pose proof (heap_ord_plug_inv _ _ H) as (Hl & Hr & Ol & Or).
  split_and!; [done..|]. intros x Hx Hb.
  eapply heap_ord_plug_lower; [exact H|done|].
  intros h'. simpl. intros Hh. apply Hb; eapply prio_le_trans; eauto.
Qed.

Lemma hole_heap_left c ll la lk lh lr r :
  hole_heap c (Bin ll la lk lh lr) r → prio_le r lh →
  hole_heap (FR ll la lk lh :: c) lr r.
Proof.
  intros (Hl & Hr & Hx) Hle. simpl in Hl. destruct Hl as (Hll & Hlr & Oll & Olr).
  split_and!; [done..|]. intros x Ox Hb. simpl.
  apply Hx.
  - simpl. split_and!; auto.
  - intros hmax Hlm _. simpl in *. done.
Qed.

Lemma hole_heap_right c l rl ra rk rh rr :
  hole_heap c l (Bin rl ra rk rh rr) → prio_le l rh →
  hole_heap (FL ra rk rh rr :: c) l rl.
Proof.
  intros (Hl & Hr & Hx) Hle. simpl in Hr. destruct Hr as (Hrl & Hrr & Orl & Orr).
  split_and!; [done..|]. intros x Ox Hb. simpl.
  apply Hx.
  - simpl. split_and!; auto.
  - intros hmax _ Hrm. simpl in *. done.
Qed.

Lemma hole_heap_only_child c l r :
  hole_heap c l r → heap_ord (plug c (only_child l r)).
Proof.
  intros (Hl & Hr & Hx). apply Hx.
  - by destruct r.
  - intros hmax ? ?. by destruct r.
Qed.

(** The down-swap loop: it rotates [length c' - length c] times, one level
    down each time and at most [height l + height r] times in all, and
    leaves the node with at most one subtree. *)
Lemma decouple_loop_ok a k h : ∀ n c l r s,
  (height l + height r ≤ n)%nat →
  models s (plug c (Bin l a k h r)) →
  bst (plug c (Bin l a k h r)) →
  ∃ s' c' l' r',
    (∀ fuel, (length c' - length c < fuel)%nat →
             decouple_loop fuel (Some a) s = Done tt s')
    ∧ (length c ≤ length c')%nat
    ∧ (length c' ≤ length c + (height l + height r))%nat
    ∧ models s' (plug c' (Bin l' a k h r'))
    ∧ bst (plug c' (Bin l' a k h r'))
    ∧ (l' = Nil ∨ r' = Nil)
    ∧ keys (plug c' (Bin l' a k h r')) = keys (plug c (Bin l a k h r))
    ∧ addrs (plug c' (Bin l' a k h r')) = addrs (plug c (Bin l a k h r))
    ∧ (hole_heap c l r → hole_heap c' l' r').
Proof.
  assert (∀ c l r s,
    models s (plug c (Bin l a k h r)) → l = Nil ∨ r = Nil →
    ∀ fuel, (length c - length c < fuel)%nat →
            decouple_loop fuel (Some a) s = Done tt s) as Hstop.
  { intros c l r s Hm Hlr fuel Hf. destruct fuel as [|fuel]; [lia|].
    pose proof (models_plug_node _ _ _ _ _ _ _ Hm) as Ha.
    cbn [decouple_loop]. exec1.
    destruct Hlr as [->| ->]; cbn [tptr]; [done|].
    destruct l; cbn [tptr]; [done|]. by exec1. }
  induction n as [|n IH]; intros c l r s Hn Hm Hb.
  - assert (l = Nil ∨ r = Nil) as Hlr.
    { destruct l, r; simpl in Hn; auto; lia. }
    exists s, c, l, r. split_and!; auto; [by eapply Hstop|lia].
  - destruct l as [|ll la lk lh lr].
    { exists s, c, Nil, r. split_and!; auto; [eapply Hstop; eauto|lia]. }
    destruct r as [|rl ra rk rh rr].
    { exists s, c, (Bin ll la lk lh lr), Nil.
      split_and!; auto; [eapply Hstop; eauto|lia]. }
    pose proof (models_plug_node _ _ _ _ _ _ _ Hm) as Ha.
    pose proof (models_NoDup _ _ Hm Hb) as Hnd.
    pose proof (bst_slot_ok _ _ _ _ _ _ Hb) as Hslot.
    simpl in Hn. cbn [tptr] in Ha.
    assert (∀ fuel s1,
      treapRotate (Some a) (Some (if rh <? lh then la else ra)) s = Done tt s1 →
      decouple_loop (S fuel) (Some a) s = decouple_loop fuel (Some a) s1) as Hunf.
    { intros fuel s1 Hrun. cbn [decouple_loop]. repeat exec1.
      erewrite bind_Done by
        (apply rd_Some; apply (models_plug_child_l _ _ _ _ _ _ _ _ _ _ _ Hm)).
      erewrite bind_Done by
        (apply rd_Some; apply (models_plug_child_r _ _ _ _ _ _ _ _ _ _ _ Hm)).
      cbn [heapKey].
      destruct (rh <? lh); repeat exec1; by erewrite bind_Done by exact Hrun. }
    destruct (rh <? lh) eqn:Eh.
    + pose proof (bst_left_lt _ _ _ _ _ _ _ _ _ _ Hb) as Hlt.
      destruct (rotate_right_models _ _ _ _ _ _ _ _ _ _ _ Hm Hnd Hlt Hslot)
        as (s1 & Hrun & Hm1).
      pose proof (bst_plug_rotate_right _ _ _ _ _ _ _ _ _ _ Hb) as Hb1.
      destruct (IH (FR ll la lk lh :: c) lr (Bin rl ra rk rh rr) s1)
        as (s' & c' & l' & r' & Hrun' & Hlen1 & Hlen2 & Hm' & Hb' & Hnil & Hk
            & Had & Hh);
        [simpl; lia|exact Hm1|exact Hb1|].
      simpl in Hlen1, Hlen2.
      exists s', c', l', r'. split_and!; try done; try (simpl; lia).
      * intros fuel Hf. destruct fuel as [|fuel]; [lia|].
        rewrite (Hunf fuel s1 Hrun). apply Hrun'. simpl. lia.
      * rewrite Hk. simpl. apply keys_plug_eq. symmetry. apply keys_rotate.
      * rewrite Had. simpl. apply addrs_plug_eq. symmetry. apply addrs_rotate.
      * intros Hh0. apply Hh, hole_heap_left; [done|].
        simpl. apply N.ltb_lt in Eh. lia.
    + pose proof (bst_right_gt _ _ _ _ _ _ _ _ _ _ Hb) as Hlt.
      assert (¬ rk < k) as Hnlt by lia.
      destruct (rotate_left_models _ _ _ _ _ _ _ _ _ _ _ Hm Hnd Hnlt Hslot)
        as (s1 & Hrun & Hm1).
      pose proof (bst_plug_rotate_left _ _ _ _ _ _ _ _ _ _ Hb) as Hb1.
      destruct (IH (FL ra rk rh rr :: c) (Bin ll la lk lh lr) rl s1)
        as (s' & c' & l' & r' & Hrun' & Hlen1 & Hlen2 & Hm' & Hb' & Hnil & Hk
            & Had & Hh);
        [simpl; lia|exact Hm1|exact Hb1|].
      simpl in Hlen1, Hlen2.
      exists s', c', l', r'. split_and!; try done; try (simpl; lia).
      * intros fuel Hf. destruct fuel as [|fuel]; [lia|].
        rewrite (Hunf fuel s1 Hrun). apply Hrun'. simpl. lia.
      * rewrite Hk. simpl. apply keys_plug_eq. apply keys_rotate.
      * rewrite Had. simpl. apply addrs_plug_eq. apply addrs_rotate.
      * intros Hh0. apply Hh, hole_heap_right; [done|].
        simpl. apply N.ltb_nlt in Eh. lia.
Qed.

Lemma bst_by_fill_incl s f t t' :
  (∀ x, x ∈ keys t' → x ∈ keys t) → bst_by s t' →
  bst_by s (fill f t) → bst_by s (fill f t').
Proof.
  intros Hi Ht'. destruct f; simpl; intros (Hl & Hr & Bl & Br);
    split_and!; auto;
    rewrite Forall_forall in *; intros y Hy; auto.
Qed.

Lemma keys_fill_incl f t t' :
  (∀ x, x ∈ keys t' → x ∈ keys t) →
  ∀ x, x ∈ keys (fill f t') → x ∈ keys (fill f t).
Proof.
  intros Hi x. destruct f; simpl; rewrite !elem_of_app, !elem_of_cons;
    intuition auto.
Qed.

Lemma bst_by_plug_incl s c t t' :
  (∀ x, x ∈ keys t' → x ∈ keys t) → bst_by s t' →
  bst_by s (plug c t) → bst_by s (plug c t').
Proof.
  revert t t'. induction c as [|f c IH]; intros t t' Hi Ht'; simpl; [done|].
  intros H. eapply IH; [by apply keys_fill_incl| |done].
  apply (bst_by_fill_incl s f t t'); [done|done|]. by eapply bst_by_plug_inv.
Qed.

Lemma keys_only_child_incl l a k h r :
  ∀ x, x ∈ keys (only_child l r) → x ∈ keys (Bin l a k h r).
Proof.
  intros x. simpl. rewrite elem_of_app, elem_of_cons.
  destruct r; simpl; tauto.
Qed.

Lemma bst_only_child l a k h r : bst (Bin l a k h r) → bst (only_child l r).
Proof. unfold bst. simpl. destruct r; simpl; tauto. Qed.

(** The splice of a node with at most one child. *)
Lemma decouple_splice_ok s c l a k h r :
  models s (plug c (Bin l a k h r)) →
  bst (plug c (Bin l a k h r)) →
  l = Nil ∨ r = Nil →
  ∃ s', decouple_splice (Some a) s = Done tt s'
        ∧ models s' (plug c (only_child l r))
        ∧ mem s' !! a = mem s !! a.
Proof.
  intros Hm Hb Hnil.
  pose proof (models_NoDup _ _ Hm Hb) as Hnd.
  pose proof (bst_slot_ok _ _ _ _ _ _ Hb) as Hslot.
  destruct s as [m rt]. destruct Hm as [Hrt Hrep]. cbn [mem root] in *.
  rewrite tptr_plug in Hrt. cbn [tptr] in Hrt.
  apply repr_plug in Hrep as [Hc Ht]. cbn [repr tptr] in Ht, Hc.
  destruct Ht as (Ha & Hl & Hr).
  rewrite addrs_plug in Hnd. cbn [addrs] in Hnd.
  unfold decouple_splice.
  assert (∃ x, (l = Nil ∧ r = x) ∨ (r = Nil ∧ l = x)) as (x & Hx).
  { destruct Hnil; subst; eauto. }
  assert (only_child l r = x) as ->.
  { destruct Hx as [[-> ->]|[-> ->]]; [by destruct x|done]. }
  destruct Hx as [[-> ->]|[-> ->]];
  (destruct x as [|xl xa xk xh xr]; cbn [tptr repr addrs] in *;
   [|try destruct Hl as (Hxa & Hxl & Hxr); try destruct Hr as (Hxa & Hxl & Hxr)]);
  (destruct c as [|[g gk gh gr|gl g gk gh] c'];
    cbn [repr_ctx cptr caddrs faddrs faddr slot_ok side_ok] in *;
    [|destruct Hc as (Hg & Hgs & Hc'); apply N.ltb_lt in Hslot as Hslot'
     |destruct Hc as (Hg & Hgs & Hc'); apply N.ltb_nlt in Hslot as Hslot']);
  nodup_split Hnd;
  repeat exec1; rewrite ?Hslot'; cbn [wr_slot]; repeat exec1.
  all: eexists; split; [reflexivity|]; cbn [mem root].
  all: split; [|lk].
  all: split; cbn [mem root];
    [rewrite tptr_plug; cbn [ctx_root tptr faddr] in *; done|].
  all: apply repr_plug; cbn [repr_ctx repr tptr cptr faddr];
    unfold set_P, set_L, set_R; cbn [treeKey heapKey L R P];
    split_and!; try lk; try done.
  all: try frame_solve [g; xa].
  all: try frame_solve [g].
  all: try frame_solve [xa].
Qed.

Lemma tptr_in t x : tptr t = Some x → x ∈ addrs t.
Proof.
  destruct t; simpl; [done|]. intros [= ->]. apply elem_of_app. right. left.
Qed.

(** Every link stored in a node of a represented tree leads to a node of
    that tree (or, for the root, is the given parent link). *)
Lemma repr_ptrs m p t b nb :
  repr m p t → b ∈ addrs t → m !! b = Some nb →
  (∀ x, L nb = Some x → x ∈ addrs t)
  ∧ (∀ x, R nb = Some x → x ∈ addrs t)
  ∧ (∀ x, P nb = Some x → x ∈ addrs t ∨ p = Some x).
Proof.
  revert p. induction t as [|l IHl a k h r IHr]; intros p; simpl.
  - intros _ H. by apply elem_of_nil in H.
  - intros (Ha & Hl & Hr). rewrite elem_of_app, elem_of_cons.
    intros [Hb|[->|Hb]] Hnb.
    + destruct (IHl _ Hl Hb Hnb) as (H1 & H2 & H3). split_and!.
      * intros x Hx. apply elem_of_app. left. eauto.
      * intros x Hx. apply elem_of_app. left. eauto.
      * intros x Hx. left. apply elem_of_app.
        destruct (H3 x Hx) as [?|[= ->]]; [by left|right; left].
    + rewrite Ha in Hnb. injection Hnb as <-. simpl. split_and!.
      * intros x Hx. apply elem_of_app. left. by apply tptr_in.
      * intros x Hx. apply elem_of_app. right. right. by apply tptr_in.
      * intros x Hx. by right.
    + destruct (IHr _ Hr Hb Hnb) as (H1 & H2 & H3). split_and!.
      * intros x Hx. apply elem_of_app. right. right. eauto.
      * intros x Hx. apply elem_of_app. right. right. eauto.
      * intros x Hx. left. apply elem_of_app.
        destruct (H3 x Hx) as [?|[= ->]]; [right; by right|right; left].
Qed.

Lemma height_fill_ge f t : (height t ≤ height (fill f t))%nat.
Proof. destruct f; simpl; lia. Qed.

Lemma height_plug_ge c t : (height t ≤ height (plug c t))%nat.
Proof.
  revert t. induction c as [|f c IH]; intros t; simpl; [done|].
  etrans; [apply (height_fill_ge f)|apply IH].
Qed.

Lemma keys_plug_cons c k X Y :
  keys X ≡ₚ k :: keys Y → keys (plug c X) ≡ₚ k :: keys (plug c Y).
Proof.
  revert X Y. induction c as [|f c IH]; intros X Y H; simpl; [done|].
  apply IH. destruct f; simpl; rewrite H.
  - done.
  - by rewrite <-!Permutation_middle, Permutation_swap.
Qed.

Lemma keys_only_child l (a : addr) k h r :
  l = Nil ∨ r = Nil → keys (Bin l a k h r) ≡ₚ k :: keys (only_child l r).
Proof.
  intros [->| ->]; simpl.
  - by destruct r.
  - by rewrite <-Permutation_middle, app_nil_r.
Qed.

Lemma addrs_only_child_incl l r x :
  x ∈ addrs (only_child l r) → x ∈ addrs l ∨ x ∈ addrs r.
Proof. destruct r; simpl; auto. Qed.

(** The whole of [treapDecouple], with what it leaves behind. *)
Lemma treapDecouple_spec s c l a k h r fuel :
  models s (plug c (Bin l a k h r)) →
  bst (plug c (Bin l a k h r)) →
  (2 * height (plug c (Bin l a k h r)) ≤ fuel)%nat →
  ∃ s1 s2 c' l' r',
    decouple_loop fuel (Some a) s = Done tt s1
    ∧ decouple_splice (Some a) s1 = Done tt s2
    ∧ treapDecouple fuel (Some a) s = Done tt s2
    ∧ (∀ fuel', (length c' - length c < fuel')%nat →
                decouple_loop fuel' (Some a) s = Done tt s1)
    ∧ (length c ≤ length c')%nat
    ∧ (length c' ≤ length c + (height l + height r))%nat
    ∧ models s1 (plug c' (Bin l' a k h r'))
    ∧ bst (plug c' (Bin l' a k h r'))
    ∧ (l' = Nil ∨ r' = Nil)
    ∧ models s2 (plug c' (only_child l' r'))
    ∧ mem s2 !! a = mem s1 !! a
    ∧ bst (plug c' (only_child l' r'))
    ∧ (a ∉ addrs (plug c' (only_child l' r')))
    ∧ keys (plug c (Bin l a k h r)) ≡ₚ k :: keys (plug c' (only_child l' r'))
    ∧ (heap_ord (plug c (Bin l a k h r)) → heap_ord (plug c' (only_child l' r'))).
Proof.
  intros Hm Hb Hf.
  pose proof (models_NoDup _ _ Hm Hb) as Hnd.
  pose proof (height_plug_ge c (Bin l a k h r)) as Hh. simpl in Hh.
  destruct (decouple_loop_ok a k h (height l + height r) c l r s)
    as (s1 & c' & l' & r' & Hrun1 & Hlen1 & Hlen2 & Hm1 & Hb1 & Hnil & Hk
        & Had & Hhp);
    [lia|done|done|].
  destruct (decouple_splice_ok s1 c' l' a k h r' Hm1 Hb1 Hnil)
    as (s2 & Hrun2 & Hm2 & Ha2).
  assert (decouple_loop fuel (Some a) s = Done tt s1) as Hrun0
    by (apply Hrun1; lia).
  exists s1, s2, c', l', r'. split_and!; try done.
  - unfold treapDecouple. by erewrite bind_Done by exact Hrun0.
  - eapply bst_by_plug_incl; [| |exact Hb1].
    + apply keys_only_child_incl.
    + apply (bst_only_child l' a k h r'). by eapply bst_by_plug_inv.
  - rewrite <-Had in Hnd. rewrite addrs_plug in Hnd. simpl in Hnd.
    nodup_split Hnd. rewrite addrs_plug. intros [Hin|Hin]%elem_of_app; [done|].
    apply addrs_only_child_incl in Hin as [?|?]; done.
  - rewrite <-Hk. apply keys_plug_cons, keys_only_child. done.
  - intros Ho. apply hole_heap_only_child, Hhp. by eapply hole_heap_init.
Qed.

Lemma tptr_only_child l r :
  l = Nil ∨ r = Nil →
  tptr (only_child l r)
  = match tptr r with Some _ => tptr r | None => tptr l end.
Proof. intros [->| ->]; by destruct r || destruct l. Qed.

(** C6, as the program has it: [treapDecouple] rotates the node down until
    it has at most one child and then splices it out.  The slot that
    pointed to the node (root slot or child slot of its parent) then holds
    the node's single child (or [NULL]), that child's parent link is the
    node's former parent, the treap no longer contains the node and nothing
    in it points to the node.  The node's own fields are not cleared: it
    keeps the parent and child links it had at the splice. *)
Theorem treapDecouple_unlinks s t a fuel :
  Inv s t → a ∈ addrs t → (2 * height t ≤ fuel)%nat →
  ∃ s1 s2 n t2,
    decouple_loop fuel (Some a) s = Done tt s1
    ∧ decouple_splice (Some a) s1 = Done tt s2
    ∧ treapDecouple fuel (Some a) s = Done tt s2
    ∧ mem s1 !! a = Some n ∧ (L n = None ∨ R n = None)
    ∧ (let child := match R n with Some _ => R n | None => L n end in
       match P n with
       | None => root s1 = Some a ∧ root s2 = child
       | Some p =>
           root s2 = root s1
           ∧ ∃ np np', mem s1 !! p = Some np ∧ mem s2 !! p = Some np'
               ∧ ((L np = Some a ∧ L np' = child ∧ R np' = R np)
                  ∨ (R np = Some a ∧ R np' = child ∧ L np' = L np))
       end
       ∧ (∀ ch, child = Some ch → ∃ nc, mem s2 !! ch = Some nc ∧ P nc = P n))
    ∧ mem s2 !! a = Some n
    ∧ Inv s2 t2 ∧ (a ∉ addrs t2) ∧ root s2 ≠ Some a
    ∧ (∀ b nb, b ∈ addrs t2 → mem s2 !! b = Some nb →
               L nb ≠ Some a ∧ R nb ≠ Some a ∧ P nb ≠ Some a)
    ∧ keys t ≡ₚ treeKey n :: keys t2.
Proof.
  intros (Hm & Hb & Ho) Hin Hf.
  destruct (in_addrs_plug _ _ Hin) as (c & l & k & h & r & ->).
  destruct (treapDecouple_spec s c l a k h r fuel Hm Hb Hf)
    as (s1 & s2 & c' & l' & r' & Hrun1 & Hrun2 & Hrun & _ & _ & _ & Hm1 & _
        & Hnil & Hm2 & Ha2 & Hb2 & Hnotin & Hkeys & Hheap).
  pose proof (models_plug_node _ _ _ _ _ _ _ Hm1) as Ha1.
  exists s1, s2. eexists. exists (plug c' (only_child l' r')).
  split; [exact Hrun1|]. split; [exact Hrun2|]. split; [exact Hrun|].
  split; [exact Ha1|]. cbn [L R P treeKey].
  split. { destruct Hnil as [->| ->]; auto. }
  rewrite <-(tptr_only_child l' r' Hnil).
  split; [split|].
  - destruct c' as [|f c']; cbn [cptr].
    + split; [apply (models_plug_root _ _ _ Hm1)|apply (models_plug_root _ _ _ Hm2)].
    + split.
      * by rewrite (models_plug_root _ _ _ Hm1), (models_plug_root _ _ _ Hm2).
      * do 2 eexists.
        split; [apply (models_plug_parent _ _ _ _ Hm1)|].
        split; [apply (models_plug_parent _ _ _ _ Hm2)|].
        destruct f; cbn [L R tptr]; auto.
  - intros ch Hch. destruct (only_child l' r') as [|cl ca ck chh cr] eqn:E; [done|].
    injection Hch as ->. eexists.
    split; [apply (models_plug_node _ _ _ _ _ _ _ Hm2)|done].
  - split; [by rewrite Ha2|].
    split; [split_and!; auto|]. split; [done|].
    split.
    { intros Hr. apply Hnotin. apply tptr_in. by rewrite <-(proj1 Hm2). }
    split; [|done].
    intros b nb Hb' Hnb.
    destruct (repr_ptrs _ _ _ _ _ (proj2 Hm2) Hb' Hnb) as (H1 & H2 & H3).
    split_and!; intros Hx; apply Hnotin; auto.
    by destruct (H3 _ Hx).
Qed.

Lemma treapDecouple_unlinks_witness :
  ∃ s1 s2 n t2,
    decouple_loop 4 (Some 1%positive) ex3_state = Done tt s1
    ∧ decouple_splice (Some 1%positive) s1 = Done tt s2
    ∧ treapDecouple 4 (Some 1%positive) ex3_state = Done tt s2
    ∧ mem s1 !! 1%positive = Some n ∧ (L n = None ∨ R n = None)
    ∧ (let child := match R n with Some _ => R n | None => L n end in
       match P n with
       | None => root s1 = Some 1%positive ∧ root s2 = child
       | Some p =>
           root s2 = root s1
           ∧ ∃ np np', mem s1 !! p = Some np ∧ mem s2 !! p = Some np'
               ∧ ((L np = Some 1%positive ∧ L np' = child ∧ R np' = R np)
                  ∨ (R np = Some 1%positive ∧ R np' = child ∧ L np' = L np))
       end
       ∧ (∀ ch, child = Some ch → ∃ nc, mem s2 !! ch = Some nc ∧ P nc = P n))
    ∧ mem s2 !! 1%positive = Some n
    ∧ Inv s2 t2 ∧ (1%positive ∉ addrs t2) ∧ root s2 ≠ Some 1%positive
    ∧ (∀ b nb, b ∈ addrs t2 → mem s2 !! b = Some nb →
               L nb ≠ Some 1%positive ∧ R nb ≠ Some 1%positive
               ∧ P nb ≠ Some 1%positive)
    ∧ keys ex3_tree ≡ₚ treeKey n :: keys t2.
Proof.
  apply (treapDecouple_unlinks ex3_state ex3_tree 1%positive 4%nat).
  - split_and!; [exact ex3_models|exact ex3_bst|exact ex3_heap_ord].
  - simpl. apply elem_of_cons. right. left.
  - simpl. lia.
Defined.

(** C6 as stated fails in its last part: after the leaf with key 1 of the
    example treap is decoupled, its parent field still points to its former
    parent, the root. *)
Lemma treapDecouple_keeps_parent_link :
  Inv ex3_state ex3_tree
  ∧ (2%positive ∈ addrs ex3_tree)
  ∧ ∃ s2 n, treapDecouple 4 (Some 2%positive) ex3_state = Done tt s2
            ∧ mem s2 !! 2%positive = Some n
            ∧ P n = Some 1%positive ∧ P n ≠ None.
Proof.
  split; [split_and!; [exact ex3_models|exact ex3_bst|exact ex3_heap_ord]|].
  split; [simpl; left|].
  do 2 eexists. split; [vm_compute; reflexivity|].
  split; [reflexivity|]. split; [reflexivity|done].
Qed.

(** ** Insertion and the invariants *)

Lemma keys_bubble c l a k h r :
  keys (bubble c l a k h r) = keys (plug c (Bin l a k h r)).
Proof.
  revert l r. induction c as [|f c IH]; intros l r; cbn [bubble]; [done|].
  destruct (fprio f <? h); [|done].
  destruct f as [g gk gh gr|gl g gk gh]; rewrite IH; simpl;
    apply keys_plug_eq.
  - symmetry. apply keys_rotate.
  - apply keys_rotate.
Qed.

Lemma bst_bubble c l a k h r :
  bst (plug c (Bin l a k h r)) → bst (bubble c l a k h r).
Proof.
  revert l r. induction c as [|f c IH]; intros l r Hb; cbn [bubble]; [done|].
  destruct (fprio f <? h); [|done].
  destruct f as [g gk gh gr|gl g gk gh]; apply IH; simpl in Hb.
  - by apply bst_plug_rotate_right.
  - by apply bst_plug_rotate_left.
Qed.

Lemma heap_ord_bubble c l a k h r :
  hole_heap c l r → prio_le l h → prio_le r h →
  heap_ord (bubble c l a k h r).
Proof.
  revert l r. induction c as [|f c IH]; intros l r (Ol & Or & Hx) Hl Hr;
    cbn [bubble].
  - simpl. by split_and!.
  - pose proof (Hx l Ol (λ _ H _, H)) as Hpl.
    pose proof (Hx r Or (λ _ _ H, H)) as Hpr.
    simpl in Hpl, Hpr.
    pose proof (heap_ord_plug_inv _ _ Hpl) as Hfl.
    pose proof (heap_ord_plug_inv _ _ Hpr) as Hfr.
    destruct (fprio f <? h) eqn:E.
    + apply N.ltb_lt in E.
      destruct f as [g gk gh gr|gl g gk gh]; simpl in *; apply IH.
      * split_and!; [done|simpl; tauto|].
        intros x Ox Hb. eapply heap_ord_plug_lower; [exact Hpl|done|].
        intros hh Hhh. simpl in Hhh. apply Hb; simpl.
        -- eapply prio_le_trans; [|exact Hhh]. tauto.
        -- done.
      * done.
      * simpl. lia.
      * split_and!; [simpl; tauto|done|].
        intros x Ox Hb. eapply heap_ord_plug_lower; [exact Hpr|done|].
        intros hh Hhh. simpl in Hhh. apply Hb; simpl.
        -- done.
        -- eapply prio_le_trans; [|exact Hhh]. tauto.
      * simpl. lia.
      * done.
    + apply N.ltb_nlt in E. simpl.
      eapply heap_ord_plug_lower; [exact Hpl| |].
      * destruct f as [g gk gh gr|gl g gk gh]; simpl in *;
          split_and!; try tauto; lia.
      * intros hh. by destruct f.
Qed.

Lemma hole_heap_leaf c : heap_ord (plug c Nil) → hole_heap c Nil Nil.
Proof.
  intros H. split_and!; [done..|]. intros x Ox Hb.
  eapply heap_ord_plug_lower; [exact H|done|].
  intros hh _. by apply Hb.
Qed.

(** The frames the seek pushes carry keys of the tree. *)
Lemma seek_keys key t c f :
  f ∈ seek key t c → f ∈ c ∨ fkey f ∈ keys t.
Proof.
  revert c. induction t as [|l IHl a k h r IHr]; intros c; simpl; [auto|].
  destruct (key <? k).
  - intros [[->|H]%elem_of_cons|H]%IHl; auto; right.
    + simpl. apply elem_of_app. right. left.
    + apply elem_of_app. by left.
  - intros [[->|H]%elem_of_cons|H]%IHr; auto; right.
    + simpl. apply elem_of_app. right. left.
    + apply elem_of_app. right. by right.
Qed.

(** A new leaf at the place the seek ends keeps search order. *)
Lemma bst_plug_insert key : ∀ c X X',
  bst (plug c X) → bst X' →
  (∀ x, x ∈ keys X' → x ∈ keys X ∨ x = key) →
  Forall (λ f, side_ok f key ∧ fkey f ≠ key) c →
  bst (plug c X').
Proof.
  induction c as [|f c IH]; intros X X' Hb Hb' Hk Hc; simpl in *; [done|].
  apply Forall_cons in Hc as [[Hs Hne] Hc].
  apply (IH (fill f X)); [done| | |done].
  - pose proof (bst_by_plug_inv _ _ _ Hb) as Hf. unfold bst in *.
    destruct f as [g gk gh gr|gl g gk gh]; simpl in *;
      destruct Hf as (Fl & Fr & Bl & Br); split_and!; try done;
      rewrite Forall_forall in *; intros x Hx;
      destruct (Hk x Hx) as [?| ->]; auto.
    unfold right_of. lia.
  - intros x. destruct f; simpl; rewrite !elem_of_app, !elem_of_cons;
      intros [?|[?|?]]; auto;
      match goal with H : x ∈ keys X' |- _ => destruct (Hk x H); auto end.
Qed.

(** [treapAppend] with a key that is not in the treap: a node is added, the
    invariants are kept. *)
Lemma treapAppend_new_key s t key hk nw fuel :
  Inv s t → key ∉ keys t → mem s !! nw = None → (height t < fuel)%nat →
  ∃ s' t', treapAppend fuel key hk nw s = Done (Some nw) s'
           ∧ Inv s' t' ∧ keys t' ≡ₚ key :: keys t
           ∧ has_key s' t' nw key.
Proof.
  intros (Hm & Hb & Ho) Hnew Hnw Hf.
  destruct (treapAppend_spec s t key hk nw fuel Hm Hb Hnw Hf)
    as (s' & Hrun & Hm' & Hnd' & _).
  pose proof (plug_seek key t []) as Hplug. cbn [plug] in Hplug.
  pose proof (path_ok_seek key t [] (Forall_nil_2 _)) as Hp.
  assert (Forall (λ f, side_ok f key ∧ fkey f ≠ key) (seek key t [])) as Hside.
  { apply Forall_forall. intros f Hf'. split.
    - unfold path_ok in Hp. rewrite Forall_forall in Hp. auto.
    - destruct (seek_keys _ _ _ _ Hf') as [Hin|Hin].
      + by apply elem_of_nil in Hin.
      + intros E. by rewrite E in Hin. }
  assert (append_handle key nw t = Some nw
          ∧ appended key hk nw t = bubble (seek key t []) Nil nw key hk Nil)
    as [Hh Ha].
  { unfold append_handle, appended. destruct (seek key t []) as [|f c']; [done|].
    apply Forall_cons in Hside as [[_ Hne] _].
    apply N.eqb_neq in Hne. rewrite N.eqb_sym in Hne |- *.
    rewrite N.eqb_sym. by rewrite Hne. }
  rewrite Hh in Hrun. rewrite Ha in Hm'.
  assert (bst (plug (seek key t []) (Bin Nil nw key hk Nil))) as Hb1.
  { apply (bst_plug_insert key _ Nil); [by rewrite Hplug| | |done].
    - unfold bst. simpl. by split_and!.
    - simpl. intros x [->|H]%elem_of_cons; [auto|]. by apply elem_of_nil in H. }
  exists s'. eexists. split; [exact Hrun|]. split; [split_and!|split].
  - exact Hm'.
  - by apply bst_bubble.
  - apply heap_ord_bubble; [|done..]. apply hole_heap_leaf. by rewrite Hplug.
  - rewrite keys_bubble. rewrite <-Hplug at 2.
    apply keys_plug_cons. simpl. done.
  - assert (∀ c l r, ∃ c' l' h' r',
              bubble c l nw key hk r = plug c' (Bin l' nw key h' r')) as Hshape.
    { clear. induction c as [|f c IH]; intros l r; cbn [bubble].
      - by exists [], l, hk, r.
      - destruct (fprio f <? hk); [destruct f; apply IH|].
        by exists (f :: c), l, hk, r. }
    destruct (Hshape (seek key t []) Nil Nil) as (c' & l' & h' & r' & E).
    rewrite E in *. by apply plug_has_key.
Qed.

(** [treapAppend] keeps heap order, for every key: the priority loop does
    its work also on a node that duplicates a key. *)
Lemma treapAppend_keeps_heap_order s t key hk nw fuel :
  Inv s t → mem s !! nw = None → (height t < fuel)%nat →
  ∃ r s' t', treapAppend fuel key hk nw s = Done r s'
             ∧ models s' t' ∧ heap_ord t'.
Proof.
  intros (Hm & Hb & Ho) Hnw Hf.
  destruct (treapAppend_spec s t key hk nw fuel Hm Hb Hnw Hf)
    as (s' & Hrun & Hm' & _).
  exists (append_handle key nw t), s', (appended key hk nw t).
  split; [done|]. split; [done|].
  pose proof (plug_seek key t []) as Hplug. cbn [plug] in Hplug.
  unfold appended. destruct (seek key t []) as [|f c'] eqn:E.
  - simpl. by split_and!.
  - destruct (key =? fkey f); [done|].
    apply heap_ord_bubble; [|done..]. apply hole_heap_leaf. by rewrite Hplug.
Qed.

(** ** Insertion, lookup, removal *)

Lemma size_keys t : size t = length (keys t).
Proof.
  induction t as [|l IHl a k h r IHr]; simpl; [done|].
  rewrite length_app. simpl. lia.
Qed.

Lemma bst_NoDup_keys t : bst t → NoDup (keys t).
Proof.
  unfold bst. induction t as [|l IHl a k h r IHr]; simpl; [constructor|].
  intros (Fl & Fr & Bl & Br). rewrite Forall_forall in Fl, Fr.
  unfold right_of in Fr.
  apply NoDup_app. split_and!; [auto| |].
  - intros x Hx [->|Hx']%elem_of_cons.
    + specialize (Fl _ Hx). lia.
    + specialize (Fl _ Hx). specialize (Fr _ Hx'). lia.
  - apply NoDup_cons. split; [|auto].
    intros Hk. specialize (Fr _ Hk). lia.
Qed.

(** Insertion of a new key, lookup, removal, lookup: the round trip works
    for keys that are not in the treap. *)
Lemma roundtrip_new_key s t key hk nw fuel :
  Inv s t → key ∉ keys t → mem s !! nw = None →
  (2 * size t + 2 ≤ fuel)%nat →
  ∃ s1 s2,
    treapAppend fuel key hk nw s = Done (Some nw) s1
    ∧ treapFind fuel key s1 = Done (Some nw) s1
    ∧ treapDecouple fuel (Some nw) s1 = Done tt s2
    ∧ treapFind fuel key s2 = Done None s2.
Proof.
  intros HI Hnew Hnw Hf.
  pose proof (height_le_size t) as Hht.
  destruct (treapAppend_new_key s t key hk nw fuel HI Hnew Hnw)
    as (s1 & t1 & Hrun1 & (Hm1 & Hb1 & Ho1) & Hk1 & Hhas); [lia|].
  assert (size t1 = S (size t)) as Hsz.
  { rewrite !size_keys. by rewrite Hk1. }
  pose proof (height_le_size t1) as Hht1.
  destruct (has_key_plug _ _ _ _ Hm1 Hhas) as (c & l & h & r & ->).
  destruct (treapDecouple_spec s1 c l nw key h r fuel Hm1 Hb1)
    as (s1' & s2 & c' & l' & r' & _ & _ & Hrun2 & _ & _ & _ & _ & _ & _
        & Hm2 & _ & Hb2 & _ & Hk2 & _); [lia|].
  exists s1, s2. split; [done|]. split; [|split; [done|]].
  - rewrite (treapFind_tfind _ _ _ _ Hm1) by lia. by rewrite tfind_node.
  - pose proof (height_le_size (plug c' (only_child l' r'))) as Hht2.
    assert (size (plug c' (only_child l' r')) = size t) as Hsz2.
    { rewrite !size_keys in *.
      apply Permutation_length in Hk2. simpl in Hk2. lia. }
    rewrite (treapFind_tfind _ _ _ _ Hm2) by lia.
    rewrite tfind_None; [done|].
    pose proof (bst_NoDup_keys _ Hb1) as Hnd. rewrite Hk2 in Hnd.
    by apply NoDup_cons in Hnd as [? _].
Qed.

(** ** Termination measures *)














(** ** The program run on the example treaps *)

Lemma ex12_models : models ex12_state ex12_tree.
Proof. split; [reflexivity|]. simpl. repeat split; reflexivity. Qed.

Lemma ex12_bst : bst ex12_tree.
Proof. unfold bst; simpl. unfold right_of. repeat constructor. Qed.

Lemma ex12_heap_ord : heap_ord ex12_tree.
Proof. simpl. repeat split; lia. Qed.

(** The insertion scenario of the specification: keys 5, 3, 8, 1, 4 with
    priorities 10, 30, 20, 5, 15.  The node of key 3 ends up at the root and
    the in-order key sequence is 1, 3, 4, 5, 8. *)
Example scenario_insert :
  ∃ s t,
    (treapAppend 5 5 10 1%positive >> treapAppend 5 3 30 2%positive >>
     treapAppend 5 8 20 3%positive >> treapAppend 5 1 5 4%positive >>
     treapAppend 5 4 15 5%positive) empty_state = Done (Some 5%positive) s
    ∧ Inv s t
    ∧ t = Bin (Bin Nil 4%positive 1 5 Nil) 2%positive 3 30
            (Bin (Bin Nil 5%positive 4 15 (Bin Nil 1%positive 5 10 Nil))
               3%positive 8 20 Nil)
    ∧ keys t = [1; 3; 4; 5; 8].
Proof.
  do 2 eexists.
  split; [vm_compute; reflexivity|].
  split; [|split; reflexivity].
  split_and!.
  - split; [reflexivity|simpl; repeat split; reflexivity].
  - unfold bst; simpl. unfold right_of. repeat constructor.
  - simpl. repeat split; lia.
Qed.

(** The removal scenario of the specification, on a smaller treap: keys
    0 to 5 inserted in ascending order (priorities 3, 9, 4, 7, 1, 6), then
    keys 2 and 3 found and decoupled.  The in-order key sequence of the rest
    is 0, 1, 4, 5 and the invariants hold. *)
Example scenario_remove :
  ∃ s t,
    (treapAppend 7 0 3 1%positive >> treapAppend 7 1 9 2%positive >>
     treapAppend 7 2 4 3%positive >> treapAppend 7 3 7 4%positive >>
     treapAppend 7 4 1 5%positive >> treapAppend 7 5 6 6%positive >>
     let* bill := treapFind 7 2 in treapDecouple 7 bill >>
     let* bill := treapFind 7 3 in treapDecouple 7 bill) empty_state
    = Done tt s
    ∧ Inv s t
    ∧ keys t = [0; 1; 4; 5].
Proof.
  eexists.
  exists (Bin (Bin Nil 1%positive 0 3 Nil) 2%positive 1 9
            (Bin (Bin Nil 5%positive 4 1 Nil) 6%positive 5 6 Nil)).
  split; [vm_compute; reflexivity|].
  split; [|reflexivity].
  split_and!.
  - split; [reflexivity|simpl; repeat split; reflexivity].
  - unfold bst; simpl. unfold right_of. repeat constructor.
  - simpl. repeat split; lia.
Qed.

(** C1 fails on the program: the example treap is built by three
    insertions and satisfies the invariants; [treapUsurpingFind] for key 1
    swaps the priorities 1 and 10 of node and root and rotates, which leaves
    the old root (now priority 1) above its other child of priority 5.  No
    heap-ordered tree is held by the resulting state. *)
Theorem usurping_breaks_heap_order :
  (treapAppend 2 2 10 1%positive >> treapAppend 2 1 1 2%positive >>
   treapAppend 2 3 5 3%positive) empty_state = Done (Some 3%positive) ex3_state
  ∧ Inv ex3_state ex3_tree
  ∧ ∃ s' t', treapUsurpingFind 3 1 ex3_state = Done (Some 2%positive) s'
             ∧ models s' t'
             ∧ t' = Bin Nil 2%positive 1 10
                      (Bin Nil 1%positive 2 1 (Bin Nil 3%positive 3 5 Nil))
             ∧ ¬ heap_ord t'
             ∧ ∀ t'', ¬ Inv s' t''.
Proof.
  split; [vm_compute; reflexivity|].
  split; [split_and!; [exact ex3_models|exact ex3_bst|exact ex3_heap_ord]|].
  eexists. eexists.
  split; [vm_compute; reflexivity|].
  match goal with |- models ?s ?t ∧ _ =>
    assert (models s (Bin Nil 2%positive 1 10
                      (Bin Nil 1%positive 2 1 (Bin Nil 3%positive 3 5 Nil)))) as Hm
      by (split; [reflexivity|simpl; repeat split; reflexivity])
  end.
  assert (¬ heap_ord (Bin Nil 2%positive 1 10
                      (Bin Nil 1%positive 2 1 (Bin Nil 3%positive 3 5 Nil)))) as Hno.
  { simpl. intros (_ & _ & _ & (_ & H & _)). lia. }
  split; [exact Hm|]. split; [reflexivity|]. split; [exact Hno|].
  intros t'' (Hm'' & _ & Ho). apply Hno.
  by rewrite (models_functional _ _ _ Hm Hm'').
Qed.

(** C2 fails on the program: key 1 sits at the root of the example treap,
    and its node has a right child.  Inserting key 1 again walks into the
    right subtree, allocates block 3, links it below the node of key 2 and
    returns its handle, not the handle 1 of the existing node.  The same
    happens to a key inserted twice in a row when the first insertion
    rotates its node above a larger key: from the empty treap, insert 2,
    insert 1 (handle 2), insert 1 (handle 3). *)
Theorem duplicate_insert_adds_node :
  (treapAppend 2 1 10 1%positive >> treapAppend 2 2 5 2%positive) empty_state
  = Done (Some 2%positive) ex12_state
  ∧ Inv ex12_state ex12_tree
  ∧ has_key ex12_state ex12_tree 1%positive 1
  ∧ (∃ s' t',
      treapAppend 3 1 0 3%positive ex12_state = Done (Some 3%positive) s'
      ∧ models s' t'
      ∧ t' = Bin Nil 1%positive 1 10
               (Bin (Bin Nil 3%positive 1 0 Nil) 2%positive 2 5 Nil)
      ∧ mem ex12_state !! 3%positive = None
      ∧ mem s' !! 3%positive = Some (mkNode 1 0 None None (Some 2%positive))
      ∧ mem ex12_state !! 2%positive = Some (mkNode 2 5 None None (Some 1%positive))
      ∧ mem s' !! 2%positive
        = Some (mkNode 2 5 (Some 3%positive) None (Some 1%positive)))
  ∧ (∃ sA sB,
      (treapAppend 2 2 5 1%positive >> treapAppend 2 1 7 2%positive) empty_state
      = Done (Some 2%positive) sA
      ∧ treapAppend 3 1 0 3%positive sA = Done (Some 3%positive) sB).
Proof.
  split; [vm_compute; reflexivity|].
  split; [split_and!; [exact ex12_models|exact ex12_bst|exact ex12_heap_ord]|].
  split. { split; [simpl; left|]. eexists. split; reflexivity. }
  split.
  - do 2 eexists.
    split; [vm_compute; reflexivity|].
    split; [|split; [reflexivity|repeat split; reflexivity]].
    split; [reflexivity|simpl; repeat split; reflexivity].
  - do 2 eexists. split; vm_compute; reflexivity.
Qed.

(** C3 fails on the program: inserting 1, 2 and 1 again into the empty
    treap leaves a treap whose in-order key sequence is 1, 1, 2: search
    order holds only in the weak sense, with the equal key to the right. *)
Theorem duplicate_insert_breaks_order :
  ∃ s t,
    (treapAppend 3 1 10 1%positive >> treapAppend 3 2 5 2%positive >>
     treapAppend 3 1 0 3%positive) empty_state = Done (Some 3%positive) s
    ∧ models s t
    ∧ keys t = [1; 1; 2]
    ∧ ¬ ascending (keys t)
    ∧ ¬ bst t
    ∧ wbst t.
Proof.
  eexists.
  exists (Bin Nil 1%positive 1 10
            (Bin (Bin Nil 3%positive 1 0 Nil) 2%positive 2 5 Nil)).
  split; [vm_compute; reflexivity|].
  split; [split; [reflexivity|simpl; repeat split; reflexivity]|].
  split; [reflexivity|]. split; [|split].
  - simpl. intros (H & _). apply Forall_cons in H as [H _]. lia.
  - unfold bst. simpl. intros (_ & H & _).
    apply Forall_cons in H as [H _]. unfold right_of in H. lia.
  - unfold wbst. simpl. unfold right_of. repeat constructor; lia.
Qed.

(** C5 fails on the program: on the example treap, inserting key 1 returns
    the handle 3 of a new node while [treapFind] for key 1 returns the
    handle 1 of the old one; and after the returned handle is decoupled,
    [treapFind] for key 1 still finds a node. *)
Theorem find_after_duplicate_insert :
  (treapAppend 2 1 10 1%positive >> treapAppend 2 2 5 2%positive) empty_state
  = Done (Some 2%positive) ex12_state
  ∧ Inv ex12_state ex12_tree
  ∧ ∃ s1 s2,
      treapAppend 3 1 0 3%positive ex12_state = Done (Some 3%positive) s1
      ∧ treapFind 3 1 s1 = Done (Some 1%positive) s1
      ∧ treapDecouple 3 (Some 3%positive) s1 = Done tt s2
      ∧ treapFind 3 1 s2 = Done (Some 1%positive) s2.
Proof.
  split; [vm_compute; reflexivity|].
  split; [split_and!; [exact ex12_models|exact ex12_bst|exact ex12_heap_ord]|].
  do 2 eexists.
  split; [vm_compute; reflexivity|].
  split; [vm_compute; reflexivity|].
  split; [vm_compute; reflexivity|].
  vm_compute; reflexivity.
Qed.

(** ** What a run leaves alone *)

Lemma keeps_ret {A X} (f : treap_node → X) E (x : A) : keeps f E (ret x).
Proof. intros s y s' [= _ <-]. done. Qed.

Lemma keeps_fault {A X} (f : treap_node → X) E : keeps f E (@fault A).
Proof. intros s y s' [=]. Qed.

Lemma keeps_timeout {A X} (f : treap_node → X) E : keeps f E (@timeout A).
Proof. intros s y s' [=]. Qed.

Lemma keeps_bind_run {A B X} (f : treap_node → X) E (c : M A) (k : A → M B) :
  keeps f E c →
  (∀ x, (∃ s s', c s = Done x s') → keeps f E (k x)) →
  keeps f E (bind c k).
Proof.
  intros Hc Hk s y s' Hrun a Ha. unfold bind in Hrun.
  destruct (c s) as [x s1| |] eqn:E1; [|done..].
  rewrite (Hk x (ex_intro _ s (ex_intro _ s1 E1)) _ _ _ Hrun a Ha).
  by eapply Hc.
Qed.

Lemma keeps_bind {A B X} (f : treap_node → X) E (c : M A) (k : A → M B) :
  keeps f E c → (∀ x, keeps f E (k x)) → keeps f E (bind c k).
Proof. intros Hc Hk. apply keeps_bind_run; auto. Qed.

Lemma keeps_rd {X Y} (f : treap_node → X) E p (g : treap_node → Y) :
  keeps f E (rd p g).
Proof.
  intros s y s' Hrun. unfold rd in Hrun.
  destruct p as [b|]; [|done]. destruct (mem s !! b); [|done].
  by injection Hrun as _ <-.
Qed.

Lemma keeps_get_root {X} (f : treap_node → X) E : keeps f E get_root.
Proof. intros s y s' [= _ <-]. done. Qed.

Lemma keeps_set_root {X} (f : treap_node → X) E v : keeps f E (set_root v).
Proof. intros s y s' [= _ <-]. done. Qed.

Lemma keeps_wr {X} (f : treap_node → X) E p upd :
  (∀ n, f (upd n) = f n) → keeps f E (wr p upd).
Proof.
  intros Hupd s y s' Hrun a _. unfold wr in Hrun.
  destruct p as [b|]; [|done]. destruct (mem s !! b) as [n|] eqn:Hb; [|done].
  injection Hrun as _ <-. cbn [mem].
  destruct (decide (a = b)) as [->|Hne].
  - rewrite lookup_insert_eq, Hb. simpl. by rewrite Hupd.
  - by rewrite lookup_insert_ne.
Qed.

Lemma keeps_wr_at {X} (f : treap_node → X) E b upd :
  b ∈ E → keeps f E (wr (Some b) upd).
Proof.
  intros Hin s y s' Hrun a Ha. unfold wr in Hrun.
  destruct (mem s !! b) as [n|] eqn:Hb; [|done].
  injection Hrun as _ <-. cbn [mem].
  rewrite lookup_insert_ne; [done|]. by intros <-.
Qed.

Lemma keeps_malloc {X} (f : treap_node → X) E nw :
  nw ∈ E → keeps f E (malloc nw).
Proof.
  intros Hin s y s' Hrun a Ha. unfold malloc in Hrun.
  destruct (mem s !! nw) eqn:Hb; [done|].
  injection Hrun as _ <-. cbn [mem].
  rewrite lookup_insert_ne; [done|]. by intros <-.
Qed.

(** One step through a computation that is built from the primitives. *)
Ltac keeps_step :=
  first
    [ assumption
    | apply keeps_ret | apply keeps_fault | apply keeps_timeout
    | apply keeps_rd | apply keeps_get_root | apply keeps_set_root
    | apply keeps_wr; reflexivity
    | apply keeps_bind; [|intros ?]
    | match goal with
      | |- keeps _ _ (match ?x with _ => _ end) => destruct x
      end ].

Lemma keeps_wr_slot {X} (f : treap_node → X) E i v :
  (∀ v n, f (set_L v n) = f n) → (∀ v n, f (set_R v n) = f n) →
  keeps f E (wr_slot i v).
Proof.
  intros HL HR. destruct i; cbn [wr_slot];
    [apply keeps_set_root|apply keeps_wr, HL|apply keeps_wr, HR].
Qed.

Lemma keeps_treapRotate E rt pv : keeps node_data E (treapRotate rt pv).
Proof. unfold treapRotate. repeat keeps_step. Qed.

Lemma keeps_key_treapRotate E rt pv : keeps treeKey E (treapRotate rt pv).
Proof. unfold treapRotate. repeat keeps_step. Qed.

Lemma keeps_find_loop {X} (f : treap_node → X) E key fuel :
  ∀ cur, keeps f E (find_loop fuel key cur).
Proof.
  induction fuel as [|fuel IH]; intros cur; cbn [find_loop];
    repeat keeps_step; apply IH.
Qed.

Lemma keeps_treapFind {X} (f : treap_node → X) E fuel key :
  keeps f E (treapFind fuel key).
Proof. unfold treapFind. repeat keeps_step. apply keeps_find_loop. Qed.

Lemma keeps_treapUsurpingFind E fuel key :
  keeps treeKey E (treapUsurpingFind fuel key).
Proof.
  unfold treapUsurpingFind.
  repeat first [apply keeps_treapFind | apply keeps_key_treapRotate | keeps_step].
Qed.

Lemma keeps_decouple_loop E node fuel :
  keeps node_data E (decouple_loop fuel node).
Proof.
  induction fuel as [|fuel IH]; cbn [decouple_loop];
    repeat first [apply keeps_treapRotate | keeps_step].
Qed.

Lemma keeps_decouple_splice E node : keeps node_data E (decouple_splice node).
Proof.
  unfold decouple_splice.
  repeat first [apply keeps_wr_slot; reflexivity | keeps_step].
Qed.

Lemma keeps_treapDecouple E fuel node :
  keeps node_data E (treapDecouple fuel node).
Proof.
  unfold treapDecouple. apply keeps_bind; [apply keeps_decouple_loop|].
  intros _. apply keeps_decouple_splice.
Qed.

Lemma keeps_append_seek {X} (f : treap_node → X) E key fuel :
  ∀ cur, keeps f E (append_seek fuel key cur).
Proof.
  induction fuel as [|fuel IH]; intros cur; cbn [append_seek];
    repeat keeps_step; apply IH.
Qed.

Lemma keeps_append_bubble E node fuel :
  keeps node_data E (append_bubble fuel node).
Proof.
  induction fuel as [|fuel IH]; cbn [append_bubble];
    repeat first [apply keeps_treapRotate | keeps_step].
Qed.

Lemma keeps_append_new E fuel key hk nw cur i :
  nw ∈ E → keeps node_data E (append_new fuel key hk nw cur i).
Proof.
  intros Hin. unfold append_new.
  apply keeps_bind_run; [by apply keeps_malloc|].
  intros x (s & s' & Hrun).
  assert (x = Some nw) as ->.
  { unfold malloc in Hrun. destruct (mem s !! nw); [done|]. by injection Hrun. }
  repeat first [ apply keeps_append_bubble
               | apply keeps_wr_slot; reflexivity
               | by apply keeps_wr_at
               | keeps_step ].
Qed.

Lemma keeps_treapAppend E fuel key hk nw :
  nw ∈ E → keeps node_data E (treapAppend fuel key hk nw).
Proof.
  intros Hin. unfold treapAppend.
  repeat first [ by apply keeps_append_new | apply keeps_append_seek | keeps_step ].
Qed.

Lemma readonly_ret {A} (x : A) : readonly (ret x).
Proof. by intros s y s' [= _ <-]. Qed.

Lemma readonly_fault {A} : readonly (@fault A).
Proof. intros s y s' [=]. Qed.

Lemma readonly_timeout {A} : readonly (@timeout A).
Proof. intros s y s' [=]. Qed.

Lemma readonly_bind {A B} (c : M A) (k : A → M B) :
  readonly c → (∀ x, readonly (k x)) → readonly (bind c k).
Proof.
  intros Hc Hk s y s' Hrun. unfold bind in Hrun.
  destruct (c s) as [x s1| |] eqn:E1; [|done..].
  apply Hc in E1 as ->. by eapply Hk.
Qed.

Lemma readonly_rd {Y} p (g : treap_node → Y) : readonly (rd p g).
Proof.
  intros s y s' Hrun. unfold rd in Hrun.
  destruct p as [b|]; [|done]. destruct (mem s !! b); [|done].
  by injection Hrun as _ <-.
Qed.

Lemma readonly_get_root : readonly get_root.
Proof. by intros s y s' [= _ <-]. Qed.

Ltac readonly_step :=
  first
    [ assumption
    | apply readonly_ret | apply readonly_fault | apply readonly_timeout
    | apply readonly_rd | apply readonly_get_root
    | apply readonly_bind; [|intros ?]
    | match goal with
      | |- readonly (match ?x with _ => _ end) => destruct x
      end ].

Lemma readonly_find_loop key fuel : ∀ cur, readonly (find_loop fuel key cur).
Proof.
  induction fuel as [|fuel IH]; intros cur; cbn [find_loop];
    repeat readonly_step; apply IH.
Qed.

Lemma readonly_treapFind fuel key : readonly (treapFind fuel key).
Proof. unfold treapFind. repeat readonly_step. apply readonly_find_loop. Qed.

(** ** Priorities under promotion *)

Lemma prios_plug_perm c t t' :
  prios t ≡ₚ prios t' → prios (plug c t) ≡ₚ prios (plug c t').
Proof.
  revert t t'. induction c as [|f c IH]; intros t t' H; simpl; [done|].
  apply IH. destruct f; simpl; by rewrite H.
Qed.

Lemma prios_usurped f l a k h r :
  prios (usurped f l a k h r) ≡ₚ prios (fill f (Bin l a k h r)).
Proof.
  destruct f as [g gk gh gr|gl g gk gh]; simpl;
    rewrite <-!app_assoc; simpl; apply Permutation_app_head;
    rewrite <-!Permutation_middle; apply Permutation_swap.
Qed.

(** After the swap and the rotation the one place where heap order can
    fail is between the former parent, which now carries the priority of
    the promoted node, and the sibling subtree it keeps. *)
Lemma heap_ord_usurped f c l a k h r :
  heap_ord (plug (f :: c) (Bin l a k h r)) →
  heap_ord (plug c (usurped f l a k h r)) ↔ prio_le (fsib f) h.
Proof.
  intros H. cbn [plug] in H.
  pose proof (heap_ord_plug_inv _ _ H) as Hf. split.
  - intros H'. apply heap_ord_plug_inv in H'.
    destruct f; simpl in *; tauto.
  - intros Hs. eapply heap_ord_plug_lower; [exact H| |].
    + destruct f as [g gk gh gr|gl g gk gh]; simpl in *;
        destruct Hf as (H1 & H2 & (H3 & H4 & H5 & H6) & H7) ||
        destruct Hf as (H1 & H2 & H7 & (H3 & H4 & H5 & H6));
        split_and!; try done;
        try (eapply prio_le_trans; [eassumption|done]).
    + intros h'. by destruct f.
Qed.

Lemma sibling_plug s f c l a k h r :
  models s (plug (f :: c) (Bin l a k h r)) →
  NoDup (addrs (plug (f :: c) (Bin l a k h r))) →
  sibling s a = tptr (fsib f).
Proof.
  intros Hm Hnd. unfold sibling.
  rewrite (models_plug_node _ _ _ _ _ _ _ Hm). cbn [P cptr].
  rewrite (models_plug_parent _ _ _ _ Hm).
  rewrite addrs_plug in Hnd.
  destruct f as [g gk gh gr|gl g gk gh]; cbn [L R tptr fsib faddr].
  - by rewrite decide_True.
  - rewrite decide_False; [done|].
    intros E. apply tptr_in in E.
    simpl in Hnd. nodup_split Hnd.
    done.
Qed.

Lemma prio_le_sibling s f c t h :
  models s (plug (f :: c) t) →
  prio_le (fsib f) h
  ↔ ∀ b nb, tptr (fsib f) = Some b → mem s !! b = Some nb → heapKey nb ≤ h.
Proof.
  intros [_ Hr]. apply repr_plug in Hr as [Hc _].
  assert (∃ q, repr (mem s) q (fsib f)) as [q Hq].
  { exists (Some (faddr f)). destruct f; simpl in *; tauto. }
  destruct (fsib f) as [|sl sa sk sh sr]; simpl.
  - split; [intros _ ? ? [=]|done].
  - destruct Hq as (Hsa & _). split.
    + intros Hle b nb [= <-] Hb. rewrite Hsa in Hb. by injection Hb as <-.
    + intros H. by apply (H sa _ eq_refl Hsa).
Qed.

(** ** The seek of [treapAppend] on a key of the treap *)

Lemma seek_plug key : ∀ c X c0,
  bst (plug c X) → key ∈ keys X →
  seek key (plug c X) c0 = seek key X (c ++ c0).
Proof.
  induction c as [|f c IH]; intros X c0 Hb Hin; cbn [plug]; [done|].
  cbn [plug] in Hb. rewrite IH by (by try apply keys_fill_in).
  apply bst_by_plug_inv in Hb. unfold bst in Hb.
  destruct f as [g gk gh gr|gl g gk gh]; simpl in *;
    destruct Hb as (Fl & Fr & _); rewrite Forall_forall in Fl, Fr.
  - specialize (Fl _ Hin). apply N.ltb_lt in Fl. by rewrite Fl.
  - specialize (Fr _ Hin). unfold right_of in Fr.
    assert ((key <? gk) = false) as -> by (apply N.ltb_ge; lia). done.
Qed.

Lemma seek_head key t c :
  t ≠ Nil → ∃ f c', seek key t c = f :: c' ∧ fkey f ∈ keys t.
Proof.
  revert c. induction t as [|l IHl a k h r IHr]; intros c Hne; [done|].
  simpl. destruct (key <? k).
  - destruct l as [|ll la lk lh lr].
    + eexists _, _. split; [done|]. simpl. left.
    + destruct (IHl (FL a k h r :: c)) as (f & c' & -> & Hin); [done|].
      eexists _, _. split; [done|]. apply elem_of_app. by left.
  - destruct r as [|rl ra rk rh rr].
    + eexists _, _. split; [done|]. simpl. apply elem_of_app. right. left.
    + destruct (IHr (FR l a k h :: c)) as (f & c' & -> & Hin); [done|].
      eexists _, _. split; [done|]. apply elem_of_app. right. by right.
Qed.

(** On a key that a node of the treap carries, the seek ends at that node
    when it has no right child, and below it otherwise. *)
Lemma seek_present c l a k h r :
  bst (plug c (Bin l a k h r)) →
  (r = Nil → ∀ hk nw,
       append_handle k nw (plug c (Bin l a k h r)) = Some a
       ∧ appended k hk nw (plug c (Bin l a k h r)) = plug c (Bin l a k h r))
  ∧ (r ≠ Nil → ∀ hk nw,
       append_handle k nw (plug c (Bin l a k h r)) = Some nw
       ∧ appended k hk nw (plug c (Bin l a k h r))
         = bubble (seek k (plug c (Bin l a k h r)) []) Nil nw k hk Nil).
Proof.
  intros Hb.
  assert (seek k (plug c (Bin l a k h r)) [] = seek k r (FR l a k h :: c ++ []))
    as Hs.
  { rewrite seek_plug; [|done|simpl; apply elem_of_app; right; left].
    simpl. by rewrite N.ltb_irrefl. }
  unfold append_handle, appended. rewrite Hs. split.
  - intros -> hk nw. simpl. by rewrite N.eqb_refl.
  - intros Hne hk nw.
    destruct (seek_head k r (FR l a k h :: c ++ []) Hne) as (f & c' & -> & Hin).
    apply bst_by_plug_inv in Hb. simpl in Hb. destruct Hb as (_ & Fr & _).
    rewrite Forall_forall in Fr. specialize (Fr _ Hin). unfold right_of in Fr.
    assert ((k =? fkey f) = false) as -> by (apply N.eqb_neq; lia). done.
Qed.

(** ** The checks of the test drivers *)

Lemma testInOrder_run m rt : ∀ t p fuel value,
  repr m p t → t ≠ Nil → (height t ≤ fuel)%nat →
  testInOrder fuel (tptr t) value (mkState m rt)
  = Done (in_order_flag t value) (mkState m rt).
Proof.
  induction t as [|l IHl a k h r IHr]; intros p fuel value Hr Hne Hf; [done|].
  destruct fuel as [|fuel]; [simpl in Hf; lia|]. simpl in Hf.
  destruct Hr as (Ha & Hl & Hr).
  cbn [testInOrder tptr in_order_flag]. exec1.
  assert (∀ v, (match tptr l with
                | Some _ => let* nl := rd (Some a) L in testInOrder fuel nl v
                | None => ret v
                end) (mkState m rt) = Done (in_order_flag l v) (mkState m rt))
    as Hleft.
  { intros v. destruct l as [|ll la lk lh lr]; [done|].
    cbn [tptr]. exec1. eapply IHl; [done|done|simpl in *; lia]. }
  erewrite bind_Done by apply Hleft. exec1.
  assert (∀ v, (match tptr r with
                | Some _ => let* nr := rd (Some a) R in testInOrder fuel nr v
                | None => ret v
                end) (mkState m rt) = Done (in_order_flag r v) (mkState m rt))
    as Hright.
  { intros v. destruct r as [|rl ra rk rh rr]; [done|].
    cbn [tptr]. exec1. eapply IHr; [done|done|simpl in *; lia]. }
  destruct l as [|ll la lk lh lr]; cbn [tptr].
  - exec1. exec1. destruct r as [|rl ra rk rh rr]; cbn [tptr].
    + exec1. by exec1.
    + destruct Hr as (Hra & _). repeat exec1.
      destruct (rk <=? k); exec1; exec1; apply Hright.
  - destruct Hl as (Hla & _). repeat exec1.
    destruct (k <=? lk); exec1; exec1;
      (destruct r as [|rl ra rk rh rr]; cbn [tptr];
       [exec1; by exec1|]);
      destruct Hr as (Hra & _); repeat exec1;
      destruct (rk <=? k); exec1; exec1; apply Hright.
Qed.

Lemma in_order_flag_0 t : in_order_flag t 0 = 0.
Proof.
  induction t as [|l IHl a k h r IHr]; simpl; [done|].
  rewrite IHl.
  replace (match l with
           | Nil => 0
           | Bin _ _ lk _ _ => if k <=? lk then 0 else 0
           end) with 0 by (destruct l; [done|by destruct (k <=? _)]).
  replace (match r with
           | Nil => 0
           | Bin _ _ rk _ _ => if rk <=? k then 0 else 0
           end) with 0 by (destruct r; [done|by destruct (_ <=? k)]).
  done.
Qed.

Lemma in_order_flag_ok t value : child_ok t → in_order_flag t value = value.
Proof.
  revert value. induction t as [|l IHl a k h r IHr]; intros value; simpl; [done|].
  intros (Hl & Hlk & Hrk & Hr). rewrite IHl by done.
  replace (match l with
           | Nil => value
           | Bin _ _ lk _ _ => if k <=? lk then 0 else value
           end) with value.
  2:{ destruct l; [done|]. simpl in Hlk.
      assert ((k <=? k0) = false) as -> by (apply N.leb_gt; lia). done. }
  replace (match r with
           | Nil => value
           | Bin _ _ rk _ _ => if rk <=? k then 0 else value
           end) with value.
  2:{ destruct r; [done|]. simpl in Hrk.
      assert ((k0 <=? k) = false) as -> by (apply N.leb_gt; lia). done. }
  by apply IHr.
Qed.

Lemma child_ok_em t : child_ok t ∨ ¬ child_ok t.
Proof.
  induction t as [|l IHl a k h r IHr]; simpl; [by left|].
  assert (root_lt l k ∨ ¬ root_lt l k) as [Hl|Hl].
  { destruct l; simpl; [by left|]. destruct (decide (k0 < k)); auto. }
  2:{ right. tauto. }
  assert (root_gt r k ∨ ¬ root_gt r k) as [Hr|Hr].
  { destruct r; simpl; [by left|]. destruct (decide (k < k0)); auto. }
  2:{ right. tauto. }
  destruct IHl, IHr; tauto.
Qed.

Lemma in_order_flag_bad t value : ¬ child_ok t → in_order_flag t value = 0.
Proof.
  revert value. induction t as [|l IHl a k h r IHr]; intros value; simpl;
    [tauto|].
  intros Hbad.
  assert (∀ v, v = 0 → in_order_flag r v = 0) as Hr0
    by (intros v ->; apply in_order_flag_0).
  destruct (decide (in_order_flag l value = 0)) as [E|E].
  { apply Hr0. rewrite E.
    destruct r; destruct l; try done;
      repeat match goal with |- context [if ?b then _ else _] => destruct b end;
      done. }
  assert (child_ok l) as Hl.
  { destruct (child_ok_em l) as [Hl|Hl]; [done|]. by elim E; apply IHl. }
  destruct l as [|ll la lk lh lr].
  - destruct r as [|rl ra rk rh rr]; [simpl in *; tauto|].
    destruct (rk <=? k) eqn:E1; [apply in_order_flag_0|].
    apply N.leb_gt in E1. apply IHr. simpl in *. tauto.
  - destruct (k <=? lk) eqn:E0.
    { apply Hr0. by destruct r; [|destruct (_ <=? k)]. }
    apply N.leb_gt in E0.
    destruct r as [|rl ra rk rh rr]; [simpl in *; tauto|].
    destruct (rk <=? k) eqn:E1; [apply in_order_flag_0|].
    apply N.leb_gt in E1. apply IHr. simpl in *. tauto.
Qed.

Lemma bst_child_ok t : bst t → child_ok t.
Proof.
  unfold bst. induction t as [|l IHl a k h r IHr]; simpl; [done|].
  intros (Fl & Fr & Bl & Br). rewrite Forall_forall in Fl, Fr.
  split_and!; auto.
  - destruct l; simpl; [done|]. apply Fl. simpl.
    apply elem_of_app. right. left.
  - destruct r; simpl; [done|]. apply (Fr k0). simpl.
    apply elem_of_app. right. left.
Qed.

Lemma properParentTest_run m rt : ∀ t p fuel,
  repr m p t → (height t < fuel)%nat →
  properParentTest fuel (tptr t) (mkState m rt)
  = Done (match t, p with Bin _ _ _ _ _, None => 1 | _, _ => 0 end)
      (mkState m rt).
Proof.
  induction t as [|l IHl a k h r IHr]; intros p fuel Hr Hf;
    (destruct fuel as [|fuel]; [simpl in Hf; lia|]); [done|].
  simpl in Hf. destruct Hr as (Ha & Hl & Hr).
  cbn [properParentTest tptr]. exec1.
  erewrite bind_Done by (eapply IHl; [done|lia]). exec1.
  erewrite bind_Done by (eapply IHr; [done|lia]). exec1.
  replace (match l with Nil | _ => 0 end) with 0 by (by destruct l).
  replace (match r with Nil | _ => 0 end) with 0 by (by destruct r).
  by destruct p.
Qed.

Lemma getMaxHeight_run m rt : ∀ t p fuel,
  repr m p t → t ≠ Nil → (height t ≤ fuel)%nat →
  (Z.of_nat (height t) ≤ INT_MAX + 1)%Z →
  getMaxHeight fuel (tptr t) (mkState m rt)
  = Done (Z.of_nat (height t) - 1)%Z (mkState m rt).
Proof.
  induction t as [|l IHl a k h r IHr]; intros p fuel Hr Hne Hf Hmax; [done|].
  destruct fuel as [|fuel]; [simpl in Hf; lia|]. simpl in Hf.
  destruct Hr as (Ha & Hl & Hr).
  cbn [height] in Hmax.
  assert ((match tptr l with
           | None => ret 0%Z
           | Some _ =>
               let* rl := rd (Some a) L in
               let* h := getMaxHeight fuel rl in int_succ h
           end) (mkState m rt) = Done (Z.of_nat (height l)) (mkState m rt))
    as Hleft.
  { destruct l as [|ll la lk lh lr]; [done|].
    cbn [tptr]. exec1.
    erewrite bind_Done by (eapply IHl; [done|done|lia|lia]).
    unfold int_succ.
    assert ((Z.of_nat (height (Bin ll la lk lh lr)) - 1 <? INT_MAX)%Z = true)
      as -> by (apply Z.ltb_lt; lia).
    unfold ret. f_equal. lia. }
  assert ((match tptr r with
           | None => ret 0%Z
           | Some _ =>
               let* rr := rd (Some a) R in
               let* h := getMaxHeight fuel rr in int_succ h
           end) (mkState m rt) = Done (Z.of_nat (height r)) (mkState m rt))
    as Hright.
  { destruct r as [|rl ra rk rh rr]; [done|].
    cbn [tptr]. exec1.
    erewrite bind_Done by (eapply IHr; [done|done|lia|lia]).
    unfold int_succ.
    assert ((Z.of_nat (height (Bin rl ra rk rh rr)) - 1 <? INT_MAX)%Z = true)
      as -> by (apply Z.ltb_lt; lia).
    unfold ret. f_equal. lia. }
  cbn [getMaxHeight tptr]. exec1.
  erewrite bind_Done by exact Hleft. exec1.
  erewrite bind_Done by exact Hright.
  unfold ret. f_equal. cbn [height].
  destruct (Z.ltb_spec (Z.of_nat (height l)) (Z.of_nat (height r))); lia.
Qed.

(** ** Insertion and removal: the nodes of the treap *)

Lemma addrs_bubble c l a k h r :
  addrs (bubble c l a k h r) = addrs (plug c (Bin l a k h r)).
Proof.
  revert l r. induction c as [|f c IH]; intros l r; cbn [bubble]; [done|].
  destruct (fprio f <? h); [|done].
  destruct f as [g gk gh gr|gl g gk gh]; rewrite IH; simpl;
    apply addrs_plug_eq.
  - symmetry. apply addrs_rotate.
  - apply addrs_rotate.
Qed.

Lemma bubble_shape c l a k h r :
  ∃ c' l' r', bubble c l a k h r = plug c' (Bin l' a k h r').
Proof.
  revert l r. induction c as [|f c IH]; intros l r; cbn [bubble].
  - by exists [], l, r.
  - destruct (fprio f <? h); [destruct f; apply IH|].
    by exists (f :: c), l, r.
Qed.

(** [treapAppend] with a key that is not in the treap, with the nodes of
    the treap it leaves and the content of the new node. *)
Lemma treapAppend_new_key_addrs s t key hk nw fuel :
  Inv s t → key ∉ keys t → mem s !! nw = None → (height t < fuel)%nat →
  ∃ s' t', treapAppend fuel key hk nw s = Done (Some nw) s'
           ∧ Inv s' t' ∧ keys t' ≡ₚ key :: keys t
           ∧ addrs t' ≡ₚ nw :: addrs t
           ∧ ∃ n, mem s' !! nw = Some n ∧ node_data n = (key, hk).
Proof.
  intros HI Hnew Hnw Hf.
  destruct (treapAppend_new_key s t key hk nw fuel HI Hnew Hnw Hf)
    as (s' & t' & Hrun & HI' & Hk & Hhas).
  exists s', t'. split; [done|]. split; [done|]. split; [done|].
  destruct HI as (Hm & Hb & _).
  destruct (treapAppend_spec s t key hk nw fuel Hm Hb Hnw Hf)
    as (s'' & Hrun' & Hm' & _).
  rewrite Hrun in Hrun'. injection Hrun' as Hh <-.
  rewrite (models_functional _ _ _ (proj1 HI') Hm').
  pose proof (plug_seek key t []) as Hplug. cbn [plug] in Hplug.
  assert (appended key hk nw t = bubble (seek key t []) Nil nw key hk Nil)
    as Ha.
  { unfold appended.
    destruct (seek key t []) as [|f c'] eqn:E; [done|].
    destruct (key =? fkey f) eqn:Ek; [|done].
    exfalso. apply N.eqb_eq in Ek.
    destruct (seek_keys key t [] f) as [Hin|Hin].
    - rewrite E. left.
    - by apply elem_of_nil in Hin.
    - apply Hnew. by rewrite Ek. }
  rewrite Ha in *. split.
  - rewrite addrs_bubble.
    trans (nw :: addrs (plug (seek key t []) Nil)); [|by rewrite Hplug].
    rewrite !addrs_plug. simpl.
    by rewrite app_nil_r, Permutation_app_comm.
  - destruct (bubble_shape (seek key t []) Nil nw key hk Nil)
      as (c1 & l1 & r1 & E1).
    rewrite E1 in Hm'. eexists. split; [by eapply models_plug_node|done].
Qed.

Lemma addrs_plug_cons c (a : addr) X Y :
  addrs X ≡ₚ a :: addrs Y → addrs (plug c X) ≡ₚ a :: addrs (plug c Y).
Proof.
  intros H. rewrite !addrs_plug, H. by rewrite <-Permutation_middle.
Qed.

Lemma addrs_only_child l (a : addr) k h r :
  l = Nil ∨ r = Nil → addrs (Bin l a k h r) ≡ₚ a :: addrs (only_child l r).
Proof.
  intros [->| ->]; simpl.
  - by destruct r.
  - by rewrite <-Permutation_middle, app_nil_r.
Qed.

(** [treapDecouple] on a node of a treap, with the nodes of the treap it
    leaves. *)
Lemma treapDecouple_addrs s c l a k h r fuel :
  models s (plug c (Bin l a k h r)) →
  bst (plug c (Bin l a k h r)) →
  (2 * height (plug c (Bin l a k h r)) ≤ fuel)%nat →
  ∃ s' t', treapDecouple fuel (Some a) s = Done tt s'
           ∧ models s' t' ∧ bst t'
           ∧ (heap_ord (plug c (Bin l a k h r)) → heap_ord t')
           ∧ keys (plug c (Bin l a k h r)) ≡ₚ k :: keys t'
           ∧ addrs (plug c (Bin l a k h r)) ≡ₚ a :: addrs t'.
Proof.
  intros Hm Hb Hf.
  pose proof (height_plug_ge c (Bin l a k h r)) as Hh. simpl in Hh.
  destruct (decouple_loop_ok a k h (height l + height r) c l r s)
    as (s1 & c' & l' & r' & Hrun1 & Hlen1 & Hlen2 & Hm1 & Hb1 & Hnil & Hk
        & Had & Hhp);
    [lia|done|done|].
  destruct (decouple_splice_ok s1 c' l' a k h r' Hm1 Hb1 Hnil)
    as (s2 & Hrun2 & Hm2 & Ha2).
  exists s2, (plug c' (only_child l' r')). split_and!.
  - unfold treapDecouple. erewrite bind_Done by (apply Hrun1; lia). done.
  - done.
  - eapply bst_by_plug_incl; [| |exact Hb1].
    + apply keys_only_child_incl.
    + apply (bst_only_child l' a k h r'). by eapply bst_by_plug_inv.
  - intros Ho. apply hole_heap_only_child, Hhp. by eapply hole_heap_init.
  - rewrite <-Hk. by apply keys_plug_cons, keys_only_child.
  - rewrite <-Had. by apply addrs_plug_cons, (addrs_only_child _ _ k h).
Qed.

(** ** [free] after [treapDecouple] *)

Lemma free_models s t a :
  models s t → a ∉ addrs t → is_Some (mem s !! a) →
  ∃ s', free (Some a) s = Done tt s'
        ∧ models s' t
        ∧ mem s' !! a = None
        ∧ ∀ b, b ≠ a → mem s' !! b = mem s !! b.
Proof.
  intros [Hrt Hr] Hnot [n Hn]. unfold free. rewrite Hn.
  eexists. split; [done|]. cbn [mem root]. split_and!.
  - split; [done|]. cbn [mem].
    apply (repr_off [a] (mem s)); [done| |].
    + intros b Hb. apply lookup_delete_ne. intros ->. apply Hb. left.
    + intros b Hb [->|H]%elem_of_cons; [done|]. by apply elem_of_nil in H.
  - apply lookup_delete_eq.
  - intros b Hb. by apply lookup_delete_ne.
Qed.

Lemma key_in_plug s t k :
  models s t → k ∈ keys t → ∃ c l a h r, t = plug c (Bin l a k h r).
Proof.
  intros Hm Hin.
  destruct (repr_key_node _ _ _ _ (proj2 Hm) Hin) as (a & n & Ha & Hn & Hk).
  destruct (has_key_plug s t a k Hm) as (c & l & h & r & ->).
  { split; [done|]. eauto. }
  eauto 6.
Qed.

(** Removal of the node that [treapFind] returns, as in the second loop of
    [testOne]: find, decouple, free. *)
Lemma find_decouple_free s t key fuel :
  Inv s t → key ∈ keys t → (2 * size t + 1 ≤ fuel)%nat →
  ∃ a s1 s2 t',
    treapFind fuel key s = Done (Some a) s
    ∧ (a ∈ addrs t)
    ∧ treapDecouple fuel (Some a) s = Done tt s1
    ∧ free (Some a) s1 = Done tt s2
    ∧ Inv s2 t'
    ∧ keys t ≡ₚ key :: keys t'
    ∧ addrs t ≡ₚ a :: addrs t'
    ∧ mem s2 !! a = None
    ∧ ∀ b, b ≠ a → node_data <$> mem s2 !! b = node_data <$> mem s !! b.
Proof.
  intros (Hm & Hb & Ho) Hin Hf.
  pose proof (height_le_size t) as Hht.
  destruct (key_in_plug s t key Hm Hin) as (c & l & a & h & r & ->).
  destruct (treapDecouple_addrs s c l a key h r fuel Hm Hb)
    as (s1 & t' & Hrun & Hm1 & Hb1 & Ho1 & Hk & Had); [lia|].
  pose proof (models_NoDup _ _ Hm Hb) as Hnd. rewrite Had in Hnd.
  apply NoDup_cons in Hnd as [Hnot _].
  pose proof (keeps_treapDecouple [] fuel (Some a) s tt s1 Hrun) as Hkeep.
  destruct (free_models s1 t' a Hm1 Hnot) as (s2 & Hfree & Hm2 & Hnone & Hoth).
  { specialize (Hkeep a (not_elem_of_nil _)).
    rewrite (models_plug_node _ _ _ _ _ _ _ Hm) in Hkeep.
    destruct (mem s1 !! a); [eauto|done]. }
  exists a, s1, s2, t'. split_and!; try done.
  - rewrite (treapFind_tfind _ _ _ _ Hm) by lia. by rewrite tfind_node.
  - rewrite Had. left.
  - split_and!; auto.
  - intros b Hne. rewrite Hoth by done. apply Hkeep, not_elem_of_nil.
Qed.

(** ** The two loops of [testOne] *)

Lemma wrap32_small x : x < 2 ^ 32 → wrap32 x = x.
Proof. intros H. unfold wrap32. by apply N.mod_small. Qed.

(** The upper bound of the second loop is at most [times], also when
    [3 * times] wraps around. *)
Lemma drain_bound times : times < 2 ^ 32 → wrap32 (3 * times) / 4 ≤ times.
Proof.
  intros H. unfold wrap32. change (2 ^ 32) with 4294967296 in *.
  zify. Z.to_euclidean_division_equations. lia.
Qed.

Lemma perm_elem_of_cons {A} (x : A) l l' y :
  l ≡ₚ x :: l' → y ∈ l ↔ y = x ∨ y ∈ l'.
Proof. intros ->. apply elem_of_cons. Qed.

Section testOne_fill.
Variables (rand : N → N) (block : N → addr) (times : N) (s0 : state).
Variable fuel : nat.
Hypothesis Hfresh : ∀ j, j < times → mem s0 !! block j = None.
Hypothesis Hinj : ∀ i j, i < times → j < times → block i = block j → i = j.
Hypothesis Htimes : times < 2 ^ 32.
Hypothesis Hfuel : (2 * N.to_nat times + 2 ≤ fuel)%nat.

(** The first loop, from round [i] on: the treap holds the keys below
    [i] in the blocks handed out so far. *)
Lemma testOne_fill_ok : ∀ (d : nat) i s t n,
  i ≤ times → d = N.to_nat (times - i) → (d < n)%nat →
  Inv s t →
  (∀ k, k ∈ keys t ↔ k < i) →
  length (keys t) = N.to_nat i →
  (∀ a, a ∈ addrs t → ∃ j, j < i ∧ a = block j) →
  (∀ a, a ∉ addrs t → node_data <$> mem s !! a = node_data <$> mem s0 !! a) →
  ∃ s' t',
    testOne_fill n fuel times i rand block s = Done tt s'
    ∧ Inv s' t'
    ∧ (∀ k, k ∈ keys t' ↔ k < times)
    ∧ length (keys t') = N.to_nat times
    ∧ (∀ a, a ∈ addrs t' → ∃ j, j < times ∧ a = block j)
    ∧ (∀ a, a ∉ addrs t' →
            node_data <$> mem s' !! a = node_data <$> mem s0 !! a).
Proof.
  induction d as [|d IH]; intros i s t n Hi Hd Hn HI Hkeys Hlen Hblk Hout;
    (destruct n as [|n]; [lia|]); cbn [testOne_fill].
  - assert (i = times) as -> by lia.
    rewrite N.ltb_irrefl. exists s, t. split_and!; done.
  - assert (i < times) as Hlt by lia.
    pose proof Hlt as Hlt'. apply N.ltb_lt in Hlt'. rewrite Hlt'.
    assert (block i ∉ addrs t) as Hnotin.
    { intros (j & Hj & E)%Hblk. apply Hinj in E; [lia|lia|lia]. }
    assert (mem s !! block i = None) as Hnw.
    { specialize (Hout _ Hnotin). rewrite Hfresh in Hout by done.
      by destruct (mem s !! block i). }
    destruct (treapAppend_new_key_addrs s t i (rand i) (block i) fuel HI)
      as (s1 & t1 & Hrun & HI1 & Hk1 & Ha1 & _).
    { rewrite Hkeys. lia. }
    { done. }
    { pose proof (height_le_size t). rewrite size_keys in *. lia. }
    erewrite bind_Done by exact Hrun.
    rewrite wrap32_small by lia.
    apply (IH (i + 1) s1 t1 n); [lia|lia|lia|done|..].
    + intros k. rewrite (perm_elem_of_cons _ _ _ _ Hk1), Hkeys. lia.
    + rewrite Hk1. simpl. lia.
    + intros a. rewrite (perm_elem_of_cons _ _ _ _ Ha1).
      intros [->|(j & Hj & ->)%Hblk].
      * exists i. split; [lia|done].
      * exists j. split; [lia|done].
    + intros a. rewrite (perm_elem_of_cons _ _ _ _ Ha1).
      intros Ha. rewrite <-Hout by tauto.
      apply (keeps_treapAppend [block i] fuel i (rand i) (block i)
               ltac:(left) _ _ _ Hrun).
      rewrite not_elem_of_cons. split; [tauto|apply not_elem_of_nil].
Qed.
End testOne_fill.

Section testOne_drain.
Variables (times : N) (s0 : state) (fuel : nat).
Hypothesis Htimes : times < 2 ^ 32.
Hypothesis Hfuel : (2 * N.to_nat times + 2 ≤ fuel)%nat.

(** The second loop, from round [i] on: every key it looks for is found,
    and the treap loses the keys from [times / 4] up to the bound. *)
Lemma testOne_drain_ok : ∀ (d : nat) i s t n,
  times / 4 ≤ i →
  i ≤ wrap32 (3 * times) / 4 ∨ i = times / 4 →
  d = N.to_nat (wrap32 (3 * times) / 4 - i) → (d < n)%nat →
  Inv s t →
  (∀ k, k ∈ keys t ↔ k < times ∧ (k < times / 4 ∨ i ≤ k)) →
  (length (keys t) ≤ N.to_nat times)%nat →
  (∀ a, a ∈ addrs t → mem s0 !! a = None) →
  (∀ a, a ∉ addrs t → node_data <$> mem s !! a = node_data <$> mem s0 !! a) →
  ∃ s' t',
    testOne_drain n fuel times i s = Done true s'
    ∧ Inv s' t'
    ∧ (∀ k, k ∈ keys t' ↔
            k < times ∧ ¬ (times / 4 ≤ k ∧ k < wrap32 (3 * times) / 4))
    ∧ (length (keys t') ≤ N.to_nat times)%nat
    ∧ (∀ a, a ∈ addrs t' → mem s0 !! a = None)
    ∧ (∀ a, a ∉ addrs t' →
            node_data <$> mem s' !! a = node_data <$> mem s0 !! a).
Proof.
  pose proof (drain_bound times Htimes) as Hhi.
  induction d as [|d IH];
    intros i s t n Hlo Hi Hd Hn HI Hkeys Hlen Hblk Hout;
    (destruct n as [|n]; [lia|]); cbn [testOne_drain].
  - assert ((i <? wrap32 (3 * times) / 4) = false) as ->
      by (apply N.ltb_ge; lia).
    exists s, t. split_and!; try done.
    intros k. rewrite Hkeys. lia.
  - assert (i < wrap32 (3 * times) / 4) as Hlt by lia.
    pose proof Hlt as Hlt'. apply N.ltb_lt in Hlt'. rewrite Hlt'.
    destruct (find_decouple_free s t i fuel HI)
      as (a & s1 & s2 & t' & Hfind & Hin & Hdec & Hfree & HI' & Hk & Ha
          & Hnone & Hoth).
    { rewrite Hkeys. lia. }
    { rewrite size_keys. lia. }
    erewrite bind_Done by exact Hfind. cbv beta iota.
    erewrite bind_Done by exact Hdec.
    erewrite bind_Done by exact Hfree.
    rewrite wrap32_small by lia.
    pose proof (bst_NoDup_keys _ (proj1 (proj2 HI))) as Hndk.
    rewrite Hk in Hndk. apply NoDup_cons in Hndk as [Hik _].
    apply (IH (i + 1) s2 t' n); [lia|lia|lia|lia|done|..].
    + intros k. specialize (Hkeys k).
      rewrite (perm_elem_of_cons _ _ _ _ Hk) in Hkeys.
      destruct (decide (k = i)) as [->|Hne].
      * split; [done|lia].
      * destruct Hkeys as [H1 H2]. split.
        -- intros Hk'. destruct H1 as [? ?]; [by right|]. split; lia.
        -- intros [? ?]. destruct H2 as [?|?]; [split; lia|done|done].
    + apply Permutation_length in Hk. simpl in Hk. lia.
    + intros b Hb. apply Hblk. rewrite (perm_elem_of_cons _ _ _ _ Ha). auto.
    + intros b Hb. destruct (decide (b = a)) as [->|Hne].
      * rewrite Hnone, (Hblk a Hin). done.
      * rewrite Hoth by done. apply Hout.
        rewrite (perm_elem_of_cons _ _ _ _ Ha). tauto.
Qed.
End testOne_drain.

(** ** Insertion: new keys, keys of the treap, any key *)

(** X1: [treapAppend] with a key that no node carries: the call returns the
    block it was given, now a node of the treap with that key and the
    priority drawn; the invariants hold again, the treap has exactly one
    node and one key more, and no other block is allocated, freed or
    changed in its key or priority. *)
Theorem treapAppend_adds_new_key s t key hk nw fuel :
  Inv s t → key ∉ keys t → mem s !! nw = None → (height t < fuel)%nat →
  ∃ s' t' n,
    treapAppend fuel key hk nw s = Done (Some nw) s'
    ∧ Inv s' t'
    ∧ keys t' ≡ₚ key :: keys t
    ∧ addrs t' ≡ₚ nw :: addrs t
    ∧ size t' = S (size t)
    ∧ mem s' !! nw = Some n ∧ treeKey n = key ∧ heapKey n = hk
    ∧ ∀ a, a ≠ nw → node_data <$> mem s' !! a = node_data <$> mem s !! a.
Proof.
  intros HI Hnew Hnw Hf.
  destruct (treapAppend_new_key_addrs s t key hk nw fuel HI Hnew Hnw Hf)
    as (s' & t' & Hrun & HI' & Hk & Ha & n & Hn & Hd).
  exists s', t', n. split_and!; try done.
  - rewrite !size_keys. by rewrite Hk.
  - by injection Hd.
  - by injection Hd.
  - intros a Hne.
    apply (keeps_treapAppend [nw] fuel key hk nw ltac:(left) _ _ _ Hrun).
    rewrite not_elem_of_cons. split; [done|apply not_elem_of_nil].
Qed.

Lemma treapAppend_adds_new_key_witness :
  ∃ s' t' n,
    treapAppend 3 4 7 4%positive ex3_state = Done (Some 4%positive) s'
    ∧ Inv s' t'
    ∧ keys t' ≡ₚ 4 :: keys ex3_tree
    ∧ addrs t' ≡ₚ 4%positive :: addrs ex3_tree
    ∧ size t' = S (size ex3_tree)
    ∧ mem s' !! 4%positive = Some n ∧ treeKey n = 4 ∧ heapKey n = 7
    ∧ ∀ a, a ≠ 4%positive →
           node_data <$> mem s' !! a = node_data <$> mem ex3_state !! a.
Proof.
  apply (treapAppend_adds_new_key ex3_state ex3_tree 4 7 4%positive 3).
  - split_and!; [exact ex3_models|exact ex3_bst|exact ex3_heap_ord].
  - simpl. rewrite !not_elem_of_cons. split_and!; [done..|apply not_elem_of_nil].
  - reflexivity.
  - simpl. lia.
Defined.

(** X2: [treapAppend] with the key of a node of the treap: when that node has
    no right child the call returns the node and changes nothing; when it
    has one, the call allocates the block it was given and links it in as a
    second node with the same key, so that the treap is no longer in
    search order. *)
Theorem treapAppend_present_key s t a na key hk nw fuel :
  models s t → bst t → has_key s t a key →
  mem s !! a = Some na → mem s !! nw = None → (height t < fuel)%nat →
  (R na = None → treapAppend fuel key hk nw s = Done (Some a) s)
  ∧ (R na ≠ None →
     ∃ s' t', treapAppend fuel key hk nw s = Done (Some nw) s'
              ∧ models s' t' ∧ keys t' ≡ₚ key :: keys t
              ∧ (nw ∈ addrs t') ∧ ¬ bst t').
Proof.
  intros Hm Hb Hhas Hna Hnw Hf.
  destruct (has_key_plug _ _ _ _ Hm Hhas) as (c & l & h & r & ->).
  rewrite (models_plug_node _ _ _ _ _ _ _ Hm) in Hna. injection Hna as <-.
  cbn [R].
  destruct (treapAppend_spec _ _ key hk nw fuel Hm Hb Hnw Hf)
    as (s' & Hrun & Hm' & _ & Hsame).
  destruct (seek_present c l a key h r Hb) as [Hnil Hbin]. split.
  - intros Hr. assert (r = Nil) as -> by (by destruct r).
    destruct (Hnil eq_refl hk nw) as [Hh Happ].
    rewrite (Hsame Happ) in Hrun. by rewrite Hrun, Hh.
  - intros Hr. assert (r ≠ Nil) as Hne by (by destruct r).
    destruct (Hbin Hne hk nw) as [Hh Happ].
    rewrite Hh in Hrun. rewrite Happ in Hm'.
    exists s'. eexists. split; [exact Hrun|]. split; [exact Hm'|].
    pose proof (plug_seek key (plug c (Bin l a key h r)) []) as Hplug.
    cbn [plug] in Hplug.
    assert (keys (bubble (seek key (plug c (Bin l a key h r)) []) Nil nw key hk Nil)
            ≡ₚ key :: keys (plug c (Bin l a key h r))) as Hk.
    { rewrite keys_bubble.
      trans (key :: keys (plug (seek key (plug c (Bin l a key h r)) []) Nil));
        [|by rewrite Hplug].
      by apply keys_plug_cons. }
    split; [exact Hk|]. split.
    + rewrite addrs_bubble, addrs_plug. apply elem_of_app. right. simpl. left.
    + intros Hb'. apply bst_NoDup_keys in Hb'. rewrite Hk in Hb'.
      apply NoDup_cons in Hb' as [Hnot _]. apply Hnot.
      destruct (repr_lookup _ _ _ a (proj2 Hm) (proj1 Hhas)) as (n & Hn & Hin).
      rewrite (models_plug_node _ _ _ _ _ _ _ Hm) in Hn. by injection Hn as <-.
Qed.

Lemma treapAppend_present_key_witness :
  (R (mkNode 1 1 None None (Some 1%positive)) = None →
   treapAppend 3 1 7 4%positive ex3_state = Done (Some 2%positive) ex3_state)
  ∧ (R (mkNode 1 1 None None (Some 1%positive)) ≠ None →
     ∃ s' t', treapAppend 3 1 7 4%positive ex3_state = Done (Some 4%positive) s'
              ∧ models s' t' ∧ keys t' ≡ₚ 1 :: keys ex3_tree
              ∧ (4%positive ∈ addrs t') ∧ ¬ bst t').
Proof.
  apply (treapAppend_present_key ex3_state ex3_tree 2%positive
           (mkNode 1 1 None None (Some 1%positive)) 1 7 4%positive 3).
  - exact ex3_models.
  - exact ex3_bst.
  - split; [simpl; left|]. eexists. split; reflexivity.
  - reflexivity.
  - reflexivity.
  - simpl. lia.
Defined.

(** X3: [treapAppend] with any key: the call returns a node, never [NULL];
    either the node is the block it was given, linked in as a new node, or
    it is a node of the treap with the key asked for and then the state is
    the one the call started from.  The treap is heap-ordered and its
    back-links are consistent afterwards in both cases. *)
Theorem treapAppend_any_key s t key hk nw fuel :
  Inv s t → mem s !! nw = None → (height t < fuel)%nat →
  ∃ r s' t',
    treapAppend fuel key hk nw s = Done r s'
    ∧ models s' t' ∧ heap_ord t'
    ∧ ((r = Some nw ∧ keys t' ≡ₚ key :: keys t ∧ addrs t' ≡ₚ nw :: addrs t)
       ∨ (s' = s ∧ t' = t ∧ ∃ a, r = Some a ∧ has_key s t a key)).
Proof.
  intros (Hm & Hb & Ho) Hnw Hf.
  destruct (treapAppend_spec s t key hk nw fuel Hm Hb Hnw Hf)
    as (s' & Hrun & Hm' & _ & Hsame).
  exists (append_handle key nw t), s', (appended key hk nw t).
  split; [done|]. split; [done|].
  pose proof (plug_seek key t []) as Hplug. cbn [plug] in Hplug.
  assert (keys (bubble (seek key t []) Nil nw key hk Nil) ≡ₚ key :: keys t
          ∧ addrs (bubble (seek key t []) Nil nw key hk Nil) ≡ₚ nw :: addrs t)
    as [Hk Ha].
  { rewrite keys_bubble, addrs_bubble. split.
    - trans (key :: keys (plug (seek key t []) Nil)); [|by rewrite Hplug].
      by apply keys_plug_cons.
    - trans (nw :: addrs (plug (seek key t []) Nil)); [|by rewrite Hplug].
      by apply addrs_plug_cons. }
  assert (heap_ord (bubble (seek key t []) Nil nw key hk Nil)) as Hho.
  { apply heap_ord_bubble; [|done..]. apply hole_heap_leaf. by rewrite Hplug. }
  unfold appended, append_handle in *.
  destruct (seek key t []) as [|f c'] eqn:E.
  - split; [done|]. left. done.
  - destruct (key =? fkey f) eqn:Ek.
    + split; [done|]. right. split; [auto|]. split; [done|].
      exists (faddr f). split; [done|].
      apply N.eqb_eq in Ek. subst key. rewrite <-Hplug in Hm |- *.
      cbn [plug] in *. destruct f; by apply plug_has_key.
    + split; [done|]. by left.
Qed.

Lemma treapAppend_any_key_witness :
  ∃ r s' t',
    treapAppend 3 1 7 4%positive ex3_state = Done r s'
    ∧ models s' t' ∧ heap_ord t'
    ∧ ((r = Some 4%positive ∧ keys t' ≡ₚ 1 :: keys ex3_tree
        ∧ addrs t' ≡ₚ 4%positive :: addrs ex3_tree)
       ∨ (s' = ex3_state ∧ t' = ex3_tree
          ∧ ∃ a, r = Some a ∧ has_key ex3_state ex3_tree a 1)).
Proof.
  apply (treapAppend_any_key ex3_state ex3_tree 1 7 4%positive 3).
  - split_and!; [exact ex3_models|exact ex3_bst|exact ex3_heap_ord].
  - reflexivity.
  - simpl. lia.
Defined.

(** ** Removal with [free] *)

(** X4: The removal of [testOne]: [treapFind] on a key of the treap returns
    its node, [treapDecouple] takes the node out and [free] gives the block
    back.  The invariants hold for what is left, which has that one node
    and that one key less; the key is no longer found; the block is not in
    use, and no other block is allocated, freed or changed in its key or
    priority. *)
Theorem find_decouple_free_removes s t key fuel :
  Inv s t → key ∈ keys t → (2 * size t + 1 ≤ fuel)%nat →
  ∃ a s1 s2 t',
    treapFind fuel key s = Done (Some a) s
    ∧ (a ∈ addrs t)
    ∧ treapDecouple fuel (Some a) s = Done tt s1
    ∧ free (Some a) s1 = Done tt s2
    ∧ Inv s2 t'
    ∧ keys t ≡ₚ key :: keys t'
    ∧ addrs t ≡ₚ a :: addrs t'
    ∧ size t = S (size t')
    ∧ treapFind fuel key s2 = Done None s2
    ∧ mem s2 !! a = None
    ∧ ∀ b, b ≠ a → node_data <$> mem s2 !! b = node_data <$> mem s !! b.
Proof.
  intros HI Hin Hf.
  destruct (find_decouple_free s t key fuel HI Hin Hf)
    as (a & s1 & s2 & t' & Hfind & Ha & Hdec & Hfree & HI' & Hk & Had
        & Hnone & Hoth).
  exists a, s1, s2, t'. split_and!; try done.
  - rewrite !size_keys. by rewrite Hk.
  - assert (size t = S (size t')) as Hsz by (rewrite !size_keys; by rewrite Hk).
    pose proof (height_le_size t').
    rewrite (treapFind_tfind _ _ _ _ (proj1 HI')) by lia.
    rewrite tfind_None; [done|].
    pose proof (bst_NoDup_keys _ (proj1 (proj2 HI))) as Hnd.
    rewrite Hk in Hnd. by apply NoDup_cons in Hnd as [? _].
Qed.

Lemma find_decouple_free_removes_witness :
  ∃ a s1 s2 t',
    treapFind 7 2 ex3_state = Done (Some a) ex3_state
    ∧ (a ∈ addrs ex3_tree)
    ∧ treapDecouple 7 (Some a) ex3_state = Done tt s1
    ∧ free (Some a) s1 = Done tt s2
    ∧ Inv s2 t'
    ∧ keys ex3_tree ≡ₚ 2 :: keys t'
    ∧ addrs ex3_tree ≡ₚ a :: addrs t'
    ∧ size ex3_tree = S (size t')
    ∧ treapFind 7 2 s2 = Done None s2
    ∧ mem s2 !! a = None
    ∧ ∀ b, b ≠ a →
           node_data <$> mem s2 !! b = node_data <$> mem ex3_state !! b.
Proof.
  apply (find_decouple_free_removes ex3_state ex3_tree 2 7).
  - split_and!; [exact ex3_models|exact ex3_bst|exact ex3_heap_ord].
  - simpl. apply elem_of_cons. right. left.
  - simpl. lia.
Defined.

(** X5: Insertion of a new key, lookup, removal with [free], lookup: the key
    is found in between and not afterwards, and the treap is back to the
    keys and the nodes it had, with every block in use and carrying the key
    and priority as before the insertion. *)
Theorem insert_find_remove_find s t key hk nw fuel :
  Inv s t → key ∉ keys t → mem s !! nw = None →
  (2 * size t + 3 ≤ fuel)%nat →
  ∃ s1 s2 s3 t3,
    treapAppend fuel key hk nw s = Done (Some nw) s1
    ∧ treapFind fuel key s1 = Done (Some nw) s1
    ∧ treapDecouple fuel (Some nw) s1 = Done tt s2
    ∧ free (Some nw) s2 = Done tt s3
    ∧ treapFind fuel key s3 = Done None s3
    ∧ Inv s3 t3
    ∧ keys t3 ≡ₚ keys t ∧ addrs t3 ≡ₚ addrs t
    ∧ ∀ a, node_data <$> mem s3 !! a = node_data <$> mem s !! a.
Proof.
  intros HI Hnew Hnw Hf.
  pose proof (height_le_size t) as Hht.
  destruct (treapAppend_new_key_addrs s t key hk nw fuel HI Hnew Hnw)
    as (s1 & t1 & Hrun & HI1 & Hk1 & Ha1 & n & Hn & Hd); [lia|].
  assert (size t1 = S (size t)) as Hsz by (rewrite !size_keys; by rewrite Hk1).
  destruct (find_decouple_free s1 t1 key fuel HI1)
    as (a & s2 & s3 & t3 & Hfind & Ha & Hdec & Hfree & HI3 & Hk3 & Had3
        & Hnone & Hoth).
  { rewrite Hk1. left. }
  { lia. }
  pose proof (height_le_size t1) as Hht1.
  assert (a = nw) as ->.
  { destruct HI1 as (Hm1 & Hb1 & _).
    destruct (has_key_plug s1 t1 nw key Hm1) as (c & l & h & r & ->).
    { split; [rewrite Ha1; left|]. exists n. split; [done|]. by injection Hd. }
    rewrite (treapFind_tfind _ _ _ _ Hm1) in Hfind by lia.
    rewrite tfind_node in Hfind by done. by injection Hfind. }
  assert (keys t3 ≡ₚ keys t) as Hk.
  { apply (Permutation_cons_inv (a := key)). by rewrite <-Hk1, <-Hk3. }
  exists s1, s2, s3, t3. split_and!; try done.
  - assert (size t3 = size t) as Hsz3 by (rewrite !size_keys; by rewrite Hk).
    pose proof (height_le_size t3).
    rewrite (treapFind_tfind _ _ _ _ (proj1 HI3)) by lia.
    rewrite tfind_None; [done|]. by rewrite Hk.
  - apply (Permutation_cons_inv (a := nw)). by rewrite <-Ha1, <-Had3.
  - intros a. destruct (decide (a = nw)) as [->|Hne].
    + by rewrite Hnone, Hnw.
    + rewrite Hoth by done.
      apply (keeps_treapAppend [nw] fuel key hk nw ltac:(left) _ _ _ Hrun).
      rewrite not_elem_of_cons. split; [done|apply not_elem_of_nil].
Qed.

Lemma insert_find_remove_find_witness :
  ∃ s1 s2 s3 t3,
    treapAppend 9 4 7 4%positive ex3_state = Done (Some 4%positive) s1
    ∧ treapFind 9 4 s1 = Done (Some 4%positive) s1
    ∧ treapDecouple 9 (Some 4%positive) s1 = Done tt s2
    ∧ free (Some 4%positive) s2 = Done tt s3
    ∧ treapFind 9 4 s3 = Done None s3
    ∧ Inv s3 t3
    ∧ keys t3 ≡ₚ keys ex3_tree ∧ addrs t3 ≡ₚ addrs ex3_tree
    ∧ ∀ a, node_data <$> mem s3 !! a = node_data <$> mem ex3_state !! a.
Proof.
  apply (insert_find_remove_find ex3_state ex3_tree 4 7 4%positive 9).
  - split_and!; [exact ex3_models|exact ex3_bst|exact ex3_heap_ord].
  - simpl. rewrite !not_elem_of_cons. split_and!; [done..|apply not_elem_of_nil].
  - reflexivity.
  - simpl. lia.
Defined.

(** ** Promotion: heap order, and a node and its parent in turn *)

(** X6: [treapUsurpingFind] on the key of a node below the root: search order,
    keys and nodes are kept, the priorities of the node and of its parent
    are exchanged, so that the treap carries the same priorities as
    before, and heap order holds afterwards exactly when the sibling of the
    node (if there is one) has a priority that is at most that of the
    node. *)
Theorem treapUsurpingFind_heap_order s t a na p np key fuel :
  Inv s t → has_key s t a key →
  mem s !! a = Some na → P na = Some p → mem s !! p = Some np →
  (height t < fuel)%nat →
  ∃ s' t' na' np',
    treapUsurpingFind fuel key s = Done (Some a) s'
    ∧ models s' t' ∧ bst t'
    ∧ keys t' = keys t ∧ addrs t' = addrs t ∧ prios t' ≡ₚ prios t
    ∧ mem s' !! a = Some na' ∧ mem s' !! p = Some np'
    ∧ heapKey na' = heapKey np ∧ heapKey np' = heapKey na
    ∧ (heap_ord t' ↔
       ∀ b nb, sibling s a = Some b → mem s !! b = Some nb →
               heapKey nb ≤ heapKey na).
Proof.
  intros (Hm & Hb & Ho) Hhas Hna HP Hnp Hf.
  destruct (has_key_plug _ _ _ _ Hm Hhas) as (c0 & l & h & r & ->).
  rewrite (models_plug_node _ _ _ _ _ _ _ Hm) in Hna. injection Hna as <-.
  cbn [P heapKey] in *.
  destruct c0 as [|f c]; [done|]. injection HP as <-.
  rewrite (models_plug_parent _ _ _ _ Hm) in Hnp. injection Hnp as <-.
  pose proof (models_NoDup _ _ Hm Hb) as Hnd.
  destruct (usurp_step s f c l a key h r fuel Hm Hb Hf) as (s' & Hrun & Hm' & Hb').
  assert (heap_ord (plug c (usurped f l a key h r)) ↔
          ∀ b nb, sibling s a = Some b → mem s !! b = Some nb → heapKey nb ≤ h)
    as Hiff.
  { rewrite (sibling_plug _ _ _ _ _ _ _ _ Hm Hnd).
    etrans; [apply (heap_ord_usurped f c l a key h r Ho)|].
    apply (prio_le_sibling _ _ _ _ _ Hm). }
  assert (keys (plug c (usurped f l a key h r))
          = keys (plug (f :: c) (Bin l a key h r))) as Hk
    by (simpl; apply keys_plug_eq, keys_usurped).
  assert (addrs (plug c (usurped f l a key h r))
          = addrs (plug (f :: c) (Bin l a key h r))) as Ha
    by (simpl; apply addrs_plug_eq, addrs_usurped).
  assert (prios (plug c (usurped f l a key h r))
          ≡ₚ prios (plug (f :: c) (Bin l a key h r))) as Hp
    by (simpl; apply prios_plug_perm, prios_usurped).
  exists s', (plug c (usurped f l a key h r)).
  destruct f as [g gk gh gr|gl g gk gh]; cbn [usurped faddr heapKey] in *;
    do 2 eexists; (split; [exact Hrun|]); (split; [exact Hm'|]);
    (split; [exact Hb'|]); (split; [exact Hk|]); (split; [exact Ha|]);
    (split; [exact Hp|]);
    (split; [apply (models_plug_node _ _ _ _ _ _ _ Hm')|]).
  - split; [apply (models_plug_child_r _ _ _ _ _ _ _ _ _ _ _ Hm')|]. done.
  - split; [apply (models_plug_child_l _ _ _ _ _ _ _ _ _ _ _ Hm')|]. done.
Qed.

Lemma treapUsurpingFind_heap_order_witness :
  ∃ s' t' na' np',
    treapUsurpingFind 3 1 ex3_state = Done (Some 2%positive) s'
    ∧ models s' t' ∧ bst t'
    ∧ keys t' = keys ex3_tree ∧ addrs t' = addrs ex3_tree
    ∧ prios t' ≡ₚ prios ex3_tree
    ∧ mem s' !! 2%positive = Some na' ∧ mem s' !! 1%positive = Some np'
    ∧ heapKey na'
      = heapKey (mkNode 2 10 (Some 2%positive) (Some 3%positive) None)
    ∧ heapKey np' = heapKey (mkNode 1 1 None None (Some 1%positive))
    ∧ (heap_ord t' ↔
       ∀ b nb, sibling ex3_state 2%positive = Some b →
               mem ex3_state !! b = Some nb →
               heapKey nb ≤ heapKey (mkNode 1 1 None None (Some 1%positive))).
Proof.
  apply (treapUsurpingFind_heap_order ex3_state ex3_tree 2%positive
           (mkNode 1 1 None None (Some 1%positive)) 1%positive
           (mkNode 2 10 (Some 2%positive) (Some 3%positive) None) 1 3).
  - split_and!; [exact ex3_models|exact ex3_bst|exact ex3_heap_ord].
  - split; [simpl; left|]. eexists. split; reflexivity.
  - reflexivity.
  - reflexivity.
  - reflexivity.
  - simpl. lia.
Defined.

(** A node below its parent, promoted, and then the former parent,
    promoted: the treap is the one it was. *)
Lemma usurp_pair s f c l a k h r fuel :
  models s (plug (f :: c) (Bin l a k h r)) →
  bst (plug (f :: c) (Bin l a k h r)) →
  (size (plug (f :: c) (Bin l a k h r)) < fuel)%nat →
  ∃ s1 s2,
    treapUsurpingFind fuel k s = Done (Some a) s1
    ∧ treapUsurpingFind fuel (fkey f) s1 = Done (Some (faddr f)) s2
    ∧ models s2 (plug (f :: c) (Bin l a k h r)).
Proof.
  intros Hm Hb Hf.
  pose proof (height_le_size (plug (f :: c) (Bin l a k h r))) as Hh.
  destruct (usurp_step s f c l a k h r fuel Hm Hb) as (s1 & Hrun1 & Hm1 & Hb1);
    [lia|].
  assert (size (plug c (usurped f l a k h r))
          = size (plug (f :: c) (Bin l a k h r))) as Hsz.
  { rewrite !size_addrs. f_equal. simpl. apply addrs_plug_eq, addrs_usurped. }
  pose proof (height_le_size (plug c (usurped f l a k h r))) as Hh1.
  exists s1.
  destruct f as [g gk gh gr|gl g gk gh]; cbn [usurped fkey faddr] in *.
  - destruct (usurp_step s1 (FR l a k gh) c r g gk h gr fuel Hm1 Hb1)
      as (s2 & Hrun2 & Hm2 & _); [simpl in *; lia|].
    exists s2. split_and!; done.
  - destruct (usurp_step s1 (FL a k gh r) c gl g gk h l fuel Hm1 Hb1)
      as (s2 & Hrun2 & Hm2 & _); [simpl in *; lia|].
    exists s2. split_and!; done.
Qed.

(** X7: [treapUsurpingFind] on the key of a node below the root and then on
    the key of the node that was its parent: the second call undoes the
    first, rotation and exchange of priorities alike, and the treap is the
    one it was. *)
Theorem usurp_child_then_parent s t a na p np fuel :
  models s t → bst t → a ∈ addrs t →
  mem s !! a = Some na → P na = Some p → mem s !! p = Some np →
  (size t < fuel)%nat →
  ∃ s1 s2,
    treapUsurpingFind fuel (treeKey na) s = Done (Some a) s1
    ∧ treapUsurpingFind fuel (treeKey np) s1 = Done (Some p) s2
    ∧ s1 ≠ s
    ∧ models s2 t.
Proof.
  intros Hm Hb Hin Hna HP Hnp Hf.
  destruct (in_addrs_plug _ _ Hin) as (c0 & l & k & h & r & ->).
  rewrite (models_plug_node _ _ _ _ _ _ _ Hm) in Hna. injection Hna as <-.
  cbn [P treeKey] in *.
  destruct c0 as [|f c]; [done|]. injection HP as <-.
  rewrite (models_plug_parent _ _ _ _ Hm) in Hnp. injection Hnp as <-.
  destruct (usurp_pair s f c l a k h r fuel Hm Hb Hf)
    as (s1 & s2 & Hrun1 & Hrun2 & Hm2).
  exists s1, s2. split; [done|].
  split; [by destruct f|]. split; [|done].
  intros ->.
  pose proof (height_le_size (plug (f :: c) (Bin l a k h r))) as Hh.
  destruct (usurp_step s f c l a k h r fuel Hm Hb) as (s1 & Hrun & Hm1 & _);
    [lia|].
  rewrite Hrun1 in Hrun. injection Hrun as <-.
  pose proof (models_plug_node _ _ _ _ _ _ _ Hm) as Hn.
  pose proof (models_NoDup _ _ Hm Hb) as Hnd. rewrite addrs_plug in Hnd.
  destruct f as [g gk gh gr|gl g gk gh]; cbn [usurped] in Hm1;
    pose proof (models_plug_node _ _ _ _ _ _ _ Hm1) as Hn1;
    rewrite Hn in Hn1; injection Hn1 as _ Hc _; apply tptr_in in Hc;
    simpl in Hnd; nodup_split Hnd; done.
Qed.

Lemma usurp_child_then_parent_witness :
  ∃ s1 s2,
    treapUsurpingFind 4
      (treeKey (mkNode 1 1 None None (Some 1%positive))) ex3_state
    = Done (Some 2%positive) s1
    ∧ treapUsurpingFind 4
        (treeKey (mkNode 2 10 (Some 2%positive) (Some 3%positive) None)) s1
      = Done (Some 1%positive) s2
    ∧ s1 ≠ ex3_state
    ∧ models s2 ex3_tree.
Proof.
  apply (usurp_child_then_parent ex3_state ex3_tree 2%positive
           (mkNode 1 1 None None (Some 1%positive)) 1%positive
           (mkNode 2 10 (Some 2%positive) (Some 3%positive) None) 4).
  - exact ex3_models.
  - exact ex3_bst.
  - simpl. left.
  - reflexivity.
  - reflexivity.
  - reflexivity.
  - simpl. lia.
Defined.

Lemma testTwo_loop_rounds f c l a h r fuel :
  bst (plug (f :: c) (Bin l a 1 h r)) → fkey f = 8 →
  (size (plug (f :: c) (Bin l a 1 h r)) < fuel)%nat →
  ∀ (d : nat) i n s,
    d = Z.to_nat (20 - i) → (d < n)%nat →
    models s (plug (f :: c) (Bin l a 1 h r)) →
    ∃ s', testTwo_loop n fuel i s = Done tt s'
          ∧ models s' (plug (f :: c) (Bin l a 1 h r)).
Proof.
  intros Hb Hf8 Hf.
  induction d as [|d IH]; intros i n s Hd Hn Hm;
    (destruct n as [|n]; [lia|]); cbn [testTwo_loop].
  - assert ((i <? 20)%Z = false) as -> by (apply Z.ltb_ge; lia).
    by exists s.
  - assert ((i <? 20)%Z = true) as -> by (apply Z.ltb_lt; lia).
    destruct (usurp_pair s f c l a 1 h r fuel Hm Hb Hf)
      as (s1 & s2 & Hrun1 & Hrun2 & Hm2).
    rewrite Hf8 in Hrun2.
    erewrite bind_Done by exact Hrun1.
    erewrite bind_Done by exact Hrun2.
    apply IH; [lia|lia|done].
Qed.

(** X8: The loop of [testTwo] on a treap in which the node with key 8 is the
    parent of the node with key 1: each round promotes the node with key 1
    above its parent and then the former parent back above it, and after
    the twenty rounds the treap is the one the loop started from.  Neither
    node has come nearer to the root. *)
Theorem testTwo_loop_restores s t a1 n1 a8 n8 n fuel :
  models s t → bst t → a1 ∈ addrs t →
  mem s !! a1 = Some n1 → treeKey n1 = 1 → P n1 = Some a8 →
  mem s !! a8 = Some n8 → treeKey n8 = 8 →
  (size t < fuel)%nat → (20 < n)%nat →
  ∃ s', testTwo_loop n fuel 0 s = Done tt s' ∧ models s' t.
Proof.
  intros Hm Hb Hin Hn1 Hk1 HP Hn8 Hk8 Hf Hn.
  destruct (in_addrs_plug _ _ Hin) as (c0 & l & k & h & r & ->).
  rewrite (models_plug_node _ _ _ _ _ _ _ Hm) in Hn1. injection Hn1 as <-.
  cbn [P treeKey] in *. subst k.
  destruct c0 as [|f c]; [done|]. injection HP as <-.
  rewrite (models_plug_parent _ _ _ _ Hm) in Hn8. injection Hn8 as <-.
  apply (testTwo_loop_rounds f c l a1 h r fuel Hb) with (d := 20%nat);
    [by destruct f|done|lia|done|done].
Qed.

Lemma ex81_models : models ex81_state ex81_tree.
Proof. split; [reflexivity|]. simpl. repeat split; reflexivity. Qed.

Lemma ex81_bst : bst ex81_tree.
Proof. unfold bst; simpl. unfold right_of. repeat constructor. Qed.

Lemma testTwo_loop_restores_witness :
  ∃ s', testTwo_loop 21 3 0 ex81_state = Done tt s' ∧ models s' ex81_tree.
Proof.
  apply (testTwo_loop_restores ex81_state ex81_tree 2%positive
           (mkNode 1 5 None None (Some 1%positive)) 1%positive
           (mkNode 8 10 (Some 2%positive) None None) 21 3).
  - exact ex81_models.
  - exact ex81_bst.
  - simpl. left.
  - reflexivity.
  - reflexivity.
  - reflexivity.
  - reflexivity.
  - reflexivity.
  - simpl. lia.
  - lia.
Defined.

(** ** What the operations leave alone, on any memory

    The statements of this section make no assumption on the state: they
    hold for every run that returns, from a well-formed treap or not. *)

Lemma bind_Done_inv {A B} (c : M A) (k : A → M B) s y s' :
  bind c k s = Done y s' → ∃ x s1, c s = Done x s1 ∧ k x s1 = Done y s'.
Proof. unfold bind. destruct (c s) as [x s1| |]; [eauto|done..]. Qed.

Lemma rd_Done_inv {X} p (f : treap_node → X) s x s' :
  rd p f s = Done x s' → ∃ a n, p = Some a ∧ mem s !! a = Some n
                                ∧ x = f n ∧ s' = s.
Proof.
  unfold rd. destruct p as [a|]; [|done].
  destruct (mem s !! a) as [n|] eqn:E; [|done].
  intros [= <- <-]. eauto 6.
Qed.

Lemma find_loop_sound key fuel : ∀ cur s r s',
  find_loop fuel key cur s = Done r s' →
  ∀ a, r = Some a → ∃ n, mem s !! a = Some n ∧ treeKey n = key.
Proof.
  induction fuel as [|fuel IH]; intros cur s r s' Hrun; [done|].
  cbn [find_loop] in Hrun. destruct cur as [b|].
  - apply bind_Done_inv in Hrun as (ck & s1 & Hck & Hrun).
    apply rd_Done_inv in Hck as (b' & n & [= <-] & Hn & -> & ->).
    destruct (key <? treeKey n) eqn:E1.
    { apply bind_Done_inv in Hrun as (nx & s1 & Hnx & Hrun).
      apply rd_Done_inv in Hnx as (? & ? & _ & _ & _ & ->). eauto. }
    destruct (treeKey n <? key) eqn:E2.
    { apply bind_Done_inv in Hrun as (nx & s1 & Hnx & Hrun).
      apply rd_Done_inv in Hnx as (? & ? & _ & _ & _ & ->). eauto. }
    injection Hrun as <- <-. intros a [= <-]. exists n. split; [done|].
    apply N.ltb_ge in E1, E2. lia.
  - by injection Hrun as <- <-.
Qed.

(** X9: [treapFind] writes nothing, and a node it returns carries the key
    asked for. *)
Theorem treapFind_sound fuel key s r s' :
  treapFind fuel key s = Done r s' →
  s' = s ∧ ∀ a, r = Some a → ∃ n, mem s !! a = Some n ∧ treeKey n = key.
Proof.
  intros Hrun. split; [by eapply readonly_treapFind|].
  unfold treapFind in Hrun. rewrite bind_get_root in Hrun.
  by eapply find_loop_sound.
Qed.

Lemma treapFind_sound_witness :
  ex3_state = ex3_state
  ∧ ∀ a, Some 3%positive = Some a →
         ∃ n, mem ex3_state !! a = Some n ∧ treeKey n = 3.
Proof.
  apply (treapFind_sound 3 3 ex3_state (Some 3%positive) ex3_state).
  reflexivity.
Defined.

(** X10: [treapRotate] allocates and frees nothing and changes no key and no
    priority: the blocks in use, and the key and the priority each one
    holds, are the same before and after. *)
Theorem treapRotate_keeps_node_data rt pv s s' :
  treapRotate rt pv s = Done tt s' →
  ∀ a, node_data <$> mem s' !! a = node_data <$> mem s !! a.
Proof.
  intros Hrun a.
  apply (keeps_treapRotate [] rt pv s tt s' Hrun), not_elem_of_nil.
Qed.

Lemma treapRotate_keeps_node_data_witness :
  ∃ s', treapRotate (Some 1%positive) (Some 2%positive) ex3_state = Done tt s'
        ∧ ∀ a, node_data <$> mem s' !! a = node_data <$> mem ex3_state !! a.
Proof.
  eexists. split; [vm_compute; reflexivity|].
  apply (treapRotate_keeps_node_data (Some 1%positive) (Some 2%positive)).
  vm_compute. reflexivity.
Defined.

(** X11: [treapDecouple] allocates and frees nothing and changes no key and no
    priority; in particular the block of the node it takes out stays in use
    and keeps its key and priority. *)
Theorem treapDecouple_keeps_node_data fuel node s s' :
  treapDecouple fuel node s = Done tt s' →
  ∀ a, node_data <$> mem s' !! a = node_data <$> mem s !! a.
Proof.
  intros Hrun a.
  apply (keeps_treapDecouple [] fuel node s tt s' Hrun), not_elem_of_nil.
Qed.

Lemma treapDecouple_keeps_node_data_witness :
  ∃ s', treapDecouple 4 (Some 1%positive) ex3_state = Done tt s'
        ∧ ∀ a, node_data <$> mem s' !! a = node_data <$> mem ex3_state !! a.
Proof.
  eexists. split; [vm_compute; reflexivity|].
  apply (treapDecouple_keeps_node_data 4 (Some 1%positive)).
  vm_compute. reflexivity.
Defined.

(** X12: [treapUsurpingFind] returns what [treapFind] returns, allocates and
    frees nothing and changes no search key. *)
Theorem treapUsurpingFind_keeps_keys fuel key s r s' :
  treapUsurpingFind fuel key s = Done r s' →
  treapFind fuel key s = Done r s
  ∧ ∀ a, treeKey <$> mem s' !! a = treeKey <$> mem s !! a.
Proof.
  intros Hrun. split.
  - unfold treapUsurpingFind in Hrun.
    apply bind_Done_inv in Hrun as (cur & s1 & Hfind & Hrun).
    apply bind_Done_inv in Hrun as ([] & s2 & _ & Hret).
    injection Hret as <- _.
    by rewrite (readonly_treapFind _ _ _ _ _ Hfind) in Hfind.
  - intros a.
    apply (keeps_treapUsurpingFind [] fuel key s r s' Hrun), not_elem_of_nil.
Qed.

Lemma treapUsurpingFind_keeps_keys_witness :
  ∃ s', treapUsurpingFind 3 1 ex3_state = Done (Some 2%positive) s'
        ∧ treapFind 3 1 ex3_state = Done (Some 2%positive) ex3_state
        ∧ ∀ a, treeKey <$> mem s' !! a = treeKey <$> mem ex3_state !! a.
Proof.
  eexists. split; [vm_compute; reflexivity|].
  apply (treapUsurpingFind_keeps_keys 3 1 ex3_state (Some 2%positive)).
  vm_compute. reflexivity.
Defined.

Lemma append_new_result fuel key hk nw cur i s r s' :
  append_new fuel key hk nw cur i s = Done r s' → r = Some nw.
Proof.
  unfold append_new. intros Hrun.
  apply bind_Done_inv in Hrun as (newNode & s1 & Hmal & Hrun).
  assert (newNode = Some nw) as ->.
  { unfold malloc in Hmal. destruct (mem s !! nw); [done|]. by injection Hmal. }
  do 7 (apply bind_Done_inv in Hrun as ([] & ? & _ & Hrun)).
  by injection Hrun.
Qed.

(** X13: [treapAppend] never returns [NULL], and it allocates, frees or changes
    in key or priority no block but the one [malloc] hands out. *)
Theorem treapAppend_keeps_other_blocks fuel key hk nw s r s' :
  treapAppend fuel key hk nw s = Done r s' →
  r ≠ None
  ∧ ∀ a, a ≠ nw → node_data <$> mem s' !! a = node_data <$> mem s !! a.
Proof.
  intros Hrun. split.
  - unfold treapAppend in Hrun. rewrite bind_get_root in Hrun.
    destruct (root s) as [c|].
    + apply bind_Done_inv in Hrun as (cur & s1 & _ & Hrun).
      apply bind_Done_inv in Hrun as (ck & s2 & Hck & Hrun).
      apply rd_Done_inv in Hck as (b & n & -> & _ & -> & ->).
      destruct (key =? treeKey n).
      * by injection Hrun as <- _.
      * apply bind_Done_inv in Hrun as (ck & s2 & _ & Hrun).
        by rewrite (append_new_result _ _ _ _ _ _ _ _ _ Hrun).
    + by rewrite (append_new_result _ _ _ _ _ _ _ _ _ Hrun).
  - intros a Hne.
    apply (keeps_treapAppend [nw] fuel key hk nw ltac:(left) _ _ _ Hrun).
    rewrite not_elem_of_cons. split; [done|apply not_elem_of_nil].
Qed.

Lemma treapAppend_keeps_other_blocks_witness :
  ∃ s', treapAppend 3 4 7 4%positive ex3_state = Done (Some 4%positive) s'
        ∧ Some 4%positive ≠ None
        ∧ ∀ a, a ≠ 4%positive →
               node_data <$> mem s' !! a = node_data <$> mem ex3_state !! a.
Proof.
  eexists. split; [vm_compute; reflexivity|].
  apply (treapAppend_keeps_other_blocks 3 4 7 4%positive ex3_state).
  vm_compute. reflexivity.
Defined.

(** ** The checks of the test drivers on a treap *)

(** X14: [getMaxHeight] on a treap that is not empty returns the number of
    links on the longest path from the root, and writes nothing. *)
Theorem getMaxHeight_depth s t fuel :
  models s t → t ≠ Nil → (height t ≤ fuel)%nat →
  (Z.of_nat (height t) ≤ 2 ^ 31)%Z →
  getMaxHeight fuel (root s) s = Done (Z.of_nat (height t) - 1)%Z s.
Proof.
  destruct s as [m rt]. intros [Hrt Hr] Hne Hf Hmax. cbn [mem root] in *.
  subst rt. by eapply getMaxHeight_run.
Qed.

Lemma getMaxHeight_depth_witness :
  getMaxHeight 2 (root ex3_state) ex3_state
  = Done (Z.of_nat (height ex3_tree) - 1)%Z ex3_state.
Proof.
  apply (getMaxHeight_depth ex3_state ex3_tree 2).
  - exact ex3_models.
  - done.
  - simpl. lia.
  - simpl. lia.
Defined.

(** X15: [testInOrder] on a treap that is not empty writes nothing and leaves
    the flag as it was when every node lies between its two children in
    key, and cleared otherwise.  On a treap in search order the flag is
    left as it was. *)
Theorem testInOrder_flag s t value fuel :
  models s t → t ≠ Nil → (height t ≤ fuel)%nat →
  ∃ v, testInOrder fuel (root s) value s = Done v s
       ∧ (child_ok t → v = value)
       ∧ (¬ child_ok t → v = 0)
       ∧ (bst t → v = value).
Proof.
  destruct s as [m rt]. intros [Hrt Hr] Hne Hf. cbn [mem root] in *.
  subst rt. exists (in_order_flag t value).
  split; [by eapply testInOrder_run|].
  split; [apply in_order_flag_ok|].
  split; [apply in_order_flag_bad|].
  intros Hb. by apply in_order_flag_ok, bst_child_ok.
Qed.

Lemma testInOrder_flag_witness :
  ∃ v, testInOrder 2 (root ex3_state) 1 ex3_state = Done v ex3_state
       ∧ (child_ok ex3_tree → v = 1)
       ∧ (¬ child_ok ex3_tree → v = 0)
       ∧ (bst ex3_tree → v = 1).
Proof.
  apply (testInOrder_flag ex3_state ex3_tree 1 2).
  - exact ex3_models.
  - done.
  - simpl. lia.
Defined.

(** X16: [properParentTest] writes nothing; from the root of a treap it returns
    1 when the treap has a node and 0 when it is empty, and from a node
    below the root it returns 0: the root is the one node of a treap whose
    parent link is [NULL]. *)
Theorem properParentTest_counts_root s t fuel :
  models s t → (height t < fuel)%nat →
  properParentTest fuel (root s) s
  = Done (match t with Nil => 0 | Bin _ _ _ _ _ => 1 end) s
  ∧ ∀ f c l a k h r, t = plug (f :: c) (Bin l a k h r) →
                     properParentTest fuel (Some a) s = Done 0 s.
Proof.
  destruct s as [m rt]. intros [Hrt Hr] Hf. cbn [mem root] in *. subst rt.
  split.
  - rewrite (properParentTest_run m _ t None fuel Hr Hf). by destruct t.
  - intros f c l a k h r ->.
    apply repr_plug in Hr as [_ Hr].
    pose proof (height_plug_ge (f :: c) (Bin l a k h r)) as Hh.
    by rewrite (properParentTest_run m _ (Bin l a k h r) _ fuel Hr)
      by lia.
Qed.

Lemma properParentTest_counts_root_witness :
  properParentTest 3 (root ex3_state) ex3_state
  = Done (match ex3_tree with Nil => 0 | Bin _ _ _ _ _ => 1 end) ex3_state
  ∧ ∀ f c l a k h r, ex3_tree = plug (f :: c) (Bin l a k h r) →
                     properParentTest 3 (Some a) ex3_state = Done 0 ex3_state.
Proof.
  apply (properParentTest_counts_root ex3_state ex3_tree 3).
  - exact ex3_models.
  - simpl. lia.
Defined.

(** ** [testOne] *)

Lemma models_run_root {A} (c : ptr → M A) s t :
  models s t → (let* r := get_root in c r) s = c (tptr t) s.
Proof. intros [Hrt _]. rewrite bind_get_root. by rewrite Hrt. Qed.

Lemma in_order_run s t value fuel :
  models s t → bst t → t ≠ Nil → (height t ≤ fuel)%nat →
  testInOrder fuel (tptr t) value s = Done value s.
Proof.
  destruct s as [m rt]. intros [_ Hr] Hb Hne Hf.
  rewrite (testInOrder_run m rt t None fuel value Hr Hne Hf).
  by rewrite in_order_flag_ok by (by apply bst_child_ok).
Qed.

Lemma max_height_run s t fuel :
  models s t → t ≠ Nil → (height t ≤ fuel)%nat →
  (Z.of_nat (height t) ≤ 2 ^ 31)%Z →
  getMaxHeight fuel (tptr t) s = Done (Z.of_nat (height t) - 1)%Z s.
Proof.
  destruct s as [m rt]. intros [_ Hr] Hne Hf Hmax. by eapply getMaxHeight_run.
Qed.

(** X17: [testOne] with a positive number of rounds, whatever [rand] returns:
    the function does not end in [exit(2)], both in-order flags it prints
    are 1 and both depths lie below [times].  At the end the treap
    satisfies the invariants and holds the keys below [times] that the
    second loop did not remove, and the blocks in use are those in use at
    the start together with the nodes of the treap: every removed node has
    been freed and no node of the treap has. *)
Theorem testOne_passes rand block times s n fuel :
  0 < times → times ≤ 2 ^ 31 →
  (∀ j, j < times → mem s !! block j = None) →
  (∀ i j, i < times → j < times → block i = block j → i = j) →
  (N.to_nat times < n)%nat → (2 * N.to_nat times + 2 ≤ fuel)%nat →
  ∃ d1 d2 s' t',
    testOne n fuel times rand block s = Done (Some (1, d1, 1, d2)) s'
    ∧ (0 ≤ d1 < Z.of_N times)%Z ∧ (0 ≤ d2 < Z.of_N times)%Z
    ∧ Inv s' t'
    ∧ (∀ k, k ∈ keys t' ↔
            k < times ∧ ¬ (times / 4 ≤ k ∧ k < wrap32 (3 * times) / 4))
    ∧ (∀ a, is_Some (mem s' !! a) ↔ is_Some (mem s !! a) ∨ a ∈ addrs t')
    ∧ (∀ a, a ∈ addrs t' → mem s !! a = None).
Proof.
  intros Hpos Hmax Hfresh Hinj Hn Hfuel.
  assert (times < 2 ^ 32) as Htimes.
  { eapply N.le_lt_trans; [exact Hmax|]. done. }
  pose proof (drain_bound times Htimes) as Hhi.
  unfold testOne. rewrite bind_set_root.
  destruct (testOne_fill_ok rand block times s fuel Hfresh Hinj Htimes Hfuel
              (N.to_nat times) 0 (mkState (mem s) None) Nil n)
    as (s1 & t1 & Hrun1 & HI1 & Hk1 & Hlen1 & Hblk1 & Hout1);
    [lia|lia|lia| | | | | |].
  { split_and!; done. }
  { intros k. simpl. split; [by intros ?%elem_of_nil|lia]. }
  { done. }
  { intros a Ha. by apply elem_of_nil in Ha. }
  { done. }
  erewrite bind_Done by exact Hrun1.
  pose proof HI1 as (Hm1 & Hb1 & _).
  pose proof (height_le_size t1) as Hh1. rewrite size_keys, Hlen1 in Hh1.
  assert (t1 ≠ Nil) as Hne1.
  { intros ->. pose proof (proj2 (Hk1 0) Hpos) as H0. by apply elem_of_nil in H0. }
  assert (0 < height t1)%nat as Hpos1 by (destruct t1; [done|simpl; lia]).
  rewrite (models_run_root _ _ _ Hm1).
  erewrite bind_Done by (apply in_order_run; [done|done|done|lia]).
  rewrite (models_run_root _ _ _ Hm1).
  erewrite bind_Done by (apply max_height_run; [done|done|lia|lia]).
  destruct (testOne_drain_ok times s fuel Htimes Hfuel
              (N.to_nat (wrap32 (3 * times) / 4 - times / 4)) (times / 4)
              s1 t1 n)
    as (s2 & t2 & Hrun2 & HI2 & Hk2 & Hlen2 & Hblk2 & Hout2);
    [lia|by right|done| |done| | | |done|].
  { pose proof (N.le_0_l (times / 4)). lia. }
  { intros k. rewrite Hk1. lia. }
  { lia. }
  { intros a (j & Hj & ->)%Hblk1. by apply Hfresh. }
  erewrite bind_Done by exact Hrun2. cbv beta iota.
  pose proof HI2 as (Hm2 & Hb2 & _).
  pose proof (height_le_size t2) as Hh2. rewrite size_keys in Hh2.
  assert (t2 ≠ Nil) as Hne2.
  { intros ->. assert (times - 1 ∈ keys Nil) as H0; [|by apply elem_of_nil in H0].
    apply Hk2. split; [lia|]. intros [_ Hlt].
    revert Hlt. unfold wrap32. change (2 ^ 32) with 4294967296 in *.
    change (2 ^ 31) with 2147483648 in *.
    zify. Z.to_euclidean_division_equations. lia. }
  assert (0 < height t2)%nat as Hpos2 by (destruct t2; [done|simpl; lia]).
  rewrite (models_run_root _ _ _ Hm2).
  erewrite bind_Done by (apply in_order_run; [done|done|done|lia]).
  rewrite (models_run_root _ _ _ Hm2).
  erewrite bind_Done by (apply max_height_run; [done|done|lia|lia]).
  do 2 eexists. exists s2, t2. split; [reflexivity|].
  split; [lia|]. split; [lia|]. split; [done|]. split; [done|].
  split; [|done].
  intros a. destruct (decide (a ∈ addrs t2)) as [Hin|Hnin].
  - split; [by right|]. intros _.
    by apply (repr_dom _ _ _ _ (proj2 Hm2)).
  - specialize (Hout2 a Hnin).
    rewrite <-(fmap_is_Some node_data (mem s2 !! a)),
      <-(fmap_is_Some node_data (mem s !! a)).
    rewrite Hout2. tauto.
Qed.

Lemma testOne_passes_witness :
  ∃ d1 d2 s' t',
    testOne 5 10 4 (λ i, 5 + i) N.succ_pos empty_state
    = Done (Some (1, d1, 1, d2)) s'
    ∧ (0 ≤ d1 < Z.of_N 4)%Z ∧ (0 ≤ d2 < Z.of_N 4)%Z
    ∧ Inv s' t'
    ∧ (∀ k, k ∈ keys t' ↔ k < 4 ∧ ¬ (4 / 4 ≤ k ∧ k < wrap32 (3 * 4) / 4))
    ∧ (∀ a, is_Some (mem s' !! a) ↔
            is_Some (mem empty_state !! a) ∨ a ∈ addrs t')
    ∧ (∀ a, a ∈ addrs t' → mem empty_state !! a = None).
Proof.
  apply (testOne_passes (λ i, 5 + i) N.succ_pos 4 empty_state 5 10).
  - lia.
  - vm_compute. discriminate.
  - intros j _. reflexivity.
  - intros i j _ _ E. apply (f_equal N.pos) in E.
    rewrite !N.succ_pos_spec in E. lia.
  - simpl. lia.
  - simpl. lia.
Defined.

(** ** A rotation and the rotation back *)

(** X18: [treapRotate] on a node and a child of it, followed by [treapRotate]
    on the two nodes in the other order: the second rotation undoes the
    first, and the treap is the one it was. *)
Theorem treapRotate_undo s t rt pv nr fuel :
  models s t → bst t → rt ∈ addrs t →
  mem s !! rt = Some nr → L nr = Some pv ∨ R nr = Some pv →
  (height t < fuel)%nat →
  ∃ s1 s2 t1,
    treapRotate (Some rt) (Some pv) s = Done tt s1
    ∧ models s1 t1 ∧ t1 ≠ t
    ∧ treapRotate (Some pv) (Some rt) s1 = Done tt s2
    ∧ models s2 t
    ∧ ∀ key, treapFind fuel key s2 = Done (tfind key t) s2.
Proof.
  intros Hm Hb Hin Hnr Hchild Hf.
  pose proof (models_NoDup _ _ Hm Hb) as Hnd.
  destruct (in_addrs_plug _ _ Hin) as (c & l & k & h & r & ->).
  pose proof (models_plug_node _ _ _ _ _ _ _ Hm) as Hrt.
  rewrite Hnr in Hrt. injection Hrt as ->.
  pose proof (bst_slot_ok _ _ _ _ _ _ Hb) as Hslot.
  cbn [L R] in Hchild.
  assert (∀ X Y, X ≠ Y → plug c X ≠ plug c Y) as Hinj.
  { clear. induction c as [|f c IH]; intros X Y Hne; simpl; [done|].
    apply IH. destruct f; simpl; congruence. }
  destruct Hchild as [Hc|Hc].
  - destruct l as [|ll pa pk ph lr]; [done|]. injection Hc as ->.
    pose proof (bst_left_lt _ _ _ _ _ _ _ _ _ _ Hb) as Hlt.
    destruct (rotate_right_models _ _ _ _ _ _ _ _ _ _ _ Hm Hnd Hlt Hslot)
      as (s1 & Hrun1 & Hm1).
    pose proof (bst_plug_rotate_right _ _ _ _ _ _ _ _ _ _ Hb) as Hb1.
    pose proof (models_NoDup _ _ Hm1 Hb1) as Hnd1.
    pose proof (bst_slot_ok _ _ _ _ _ _ Hb1) as Hslot1.
    destruct (rotate_left_models s1 c ll rt k h lr pv pk ph r Hm1 Hnd1)
      as (s2 & Hrun2 & Hm2); [lia|done|].
    exists s1, s2. eexists. split; [exact Hrun1|]. split; [exact Hm1|].
    split; [apply Hinj; intros E; assert (pk = k) by congruence; lia|].
    split; [exact Hrun2|].
    split; [exact Hm2|]. intros key. by apply treapFind_tfind.
  - destruct r as [|rl pa pk ph rr]; [done|]. injection Hc as ->.
    pose proof (bst_right_gt _ _ _ _ _ _ _ _ _ _ Hb) as Hlt.
    assert (¬ pk < k) as Hnlt by lia.
    destruct (rotate_left_models _ _ _ _ _ _ _ _ _ _ _ Hm Hnd Hnlt Hslot)
      as (s1 & Hrun1 & Hm1).
    pose proof (bst_plug_rotate_left _ _ _ _ _ _ _ _ _ _ Hb) as Hb1.
    pose proof (models_NoDup _ _ Hm1 Hb1) as Hnd1.
    pose proof (bst_slot_ok _ _ _ _ _ _ Hb1) as Hslot1.
    destruct (rotate_right_models s1 c l rt k h rl pv pk ph rr Hm1 Hnd1)
      as (s2 & Hrun2 & Hm2); [lia|done|].
    exists s1, s2. eexists. split; [exact Hrun1|]. split; [exact Hm1|].
    split; [apply Hinj; intros E; assert (pk = k) by congruence; lia|].
    split; [exact Hrun2|].
    split; [exact Hm2|]. intros key. by apply treapFind_tfind.
Qed.

Lemma treapRotate_undo_witness :
  ∃ s1 s2 t1,
    treapRotate (Some 1%positive) (Some 2%positive) ex3_state = Done tt s1
    ∧ models s1 t1 ∧ t1 ≠ ex3_tree
    ∧ treapRotate (Some 2%positive) (Some 1%positive) s1 = Done tt s2
    ∧ models s2 ex3_tree
    ∧ ∀ key, treapFind 3 key s2 = Done (tfind key ex3_tree) s2.
Proof.
  apply (treapRotate_undo ex3_state ex3_tree 1%positive 2%positive
           (mkNode 2 10 (Some 2%positive) (Some 3%positive) None) 3).
  - exact ex3_models.
  - exact ex3_bst.
  - simpl. apply elem_of_cons. right. left.
  - reflexivity.
  - left. reflexivity.
  - simpl. lia.
Defined.

(** ** The empty treap *)

(** X19: On the empty treap the lookups return [NULL] and change nothing,
    [treapAppend] makes the block it is given the root and only node,
    without a rotation, and [properParentTest] returns 0. *)
Theorem empty_treap_operations s key hk nw fuel :
  root s = None → mem s !! nw = None → (0 < fuel)%nat →
  treapFind fuel key s = Done None s
  ∧ treapUsurpingFind fuel key s = Done None s
  ∧ treapAppend fuel key hk nw s
    = Done (Some nw)
        (mkState (<[nw := mkNode key hk None None None]> (mem s)) (Some nw))
  ∧ Inv (mkState (<[nw := mkNode key hk None None None]> (mem s)) (Some nw))
      (Bin Nil nw key hk Nil)
  ∧ properParentTest fuel (root s) s = Done 0 s.
Proof.
  intros Hrt Hnw Hf. destruct fuel as [|fuel]; [lia|].
  destruct s as [m rt]. cbn [mem root] in *. subst rt.
  split; [done|]. split; [done|]. split.
  { unfold treapAppend, append_new. rewrite bind_get_root. cbn [root].
    erewrite bind_Done by (by apply malloc_Done).
    repeat exec1. cbn [wr_slot]. repeat exec1.
    cbn [append_bubble]. repeat exec1.
    unfold ret. f_equal. f_equal.
    unfold set_heapKey, set_treeKey, set_R, set_L, set_P.
    cbn [treeKey heapKey L R P].
    by rewrite !insert_insert_eq. }
  split; [|done]. split_and!.
  - split; [done|]. simpl. by rewrite lookup_insert_eq.
  - unfold bst. simpl. by split_and!.
  - simpl. by split_and!.
Qed.

Lemma empty_treap_operations_witness :
  treapFind 1 5 empty_state = Done None empty_state
  ∧ treapUsurpingFind 1 5 empty_state = Done None empty_state
  ∧ treapAppend 1 5 7 1%positive empty_state
    = Done (Some 1%positive)
        (mkState (<[1%positive := mkNode 5 7 None None None]> (mem empty_state))
           (Some 1%positive))
  ∧ Inv (mkState (<[1%positive := mkNode 5 7 None None None]> (mem empty_state))
           (Some 1%positive))
      (Bin Nil 1%positive 5 7 Nil)
  ∧ properParentTest 1 (root empty_state) empty_state = Done 0 empty_state.
Proof.
  apply (empty_treap_operations empty_state 5 7 1%positive 1).
  - reflexivity.
  - reflexivity.
  - lia.
Defined.

(** X20: [testInOrder], [getMaxHeight] and [treapDecouple] do not test their
    node argument: on the root of the empty treap they dereference [NULL].
    So does [testOne] when it is called for no round at all, in its first
    in-order check. *)
Theorem empty_treap_faults s value n fuel rand block :
  root s = None → (0 < fuel)%nat → (0 < n)%nat →
  testInOrder fuel (root s) value s = Fault
  ∧ getMaxHeight fuel (root s) s = Fault
  ∧ treapDecouple fuel (root s) s = Fault
  ∧ testOne n fuel 0 rand block s = Fault.
Proof.
  intros Hrt Hf Hn.
  destruct fuel as [|fuel]; [lia|]. destruct n as [|n]; [lia|].
  destruct s as [m rt]. cbn [root] in *. by subst rt.
Qed.

Lemma empty_treap_faults_witness :
  testInOrder 1 (root empty_state) 1 empty_state = Fault
  ∧ getMaxHeight 1 (root empty_state) empty_state = Fault
  ∧ treapDecouple 1 (root empty_state) empty_state = Fault
  ∧ testOne 1 1 0 (λ i, i) N.succ_pos empty_state = Fault.
Proof.
  apply (empty_treap_faults empty_state 1 1 1 (λ i, i) N.succ_pos).
  - reflexivity.
  - lia.
  - lia.
Defined.

(** ** Equal keys and the in-order check *)

(** X21: Three insertions into the empty treap, a key, a larger key and the
    first key again, with priorities that do not increase: the third
    insertion adds a second node with the first key, and [testInOrder]
    still leaves its flag at 1, since it compares a node with its children
    only and the two nodes with equal keys are not parent and child. *)
Theorem testInOrder_misses_duplicate s k1 k2 h1 h2 h3 a b c fuel :
  root s = None →
  mem s !! a = None → mem s !! b = None → mem s !! c = None →
  a ≠ b → a ≠ c → b ≠ c →
  k1 < k2 → h2 ≤ h1 → h3 ≤ h2 → (3 ≤ fuel)%nat →
  ∃ s' t',
    (treapAppend fuel k1 h1 a >>
     treapAppend fuel k2 h2 b >>
     treapAppend fuel k1 h3 c >>
     let* r := get_root in testInOrder fuel r 1) s = Done 1 s'
    ∧ models s' t' ∧ keys t' = [k1; k1; k2] ∧ ¬ bst t'.
Proof.
  intros Hrt Ha Hb Hc Hab Hac Hbc Hk Hh12 Hh23 Hf.
  assert (models s Nil) as Hm0 by done.
  assert ((k2 <? k1) = false) as E1 by (apply N.ltb_ge; lia).
  assert ((k2 =? k1) = false) as E2 by (apply N.eqb_neq; lia).
  assert ((h1 <? h2) = false) as E3 by (apply N.ltb_ge; lia).
  assert ((k1 <? k2) = true) as E4 by (by apply N.ltb_lt).
  assert ((k1 =? k2) = false) as E5 by (apply N.eqb_neq; lia).
  assert ((h2 <? h3) = false) as E6 by (apply N.ltb_ge; lia).
  assert (∀ x y s0 s1 key hk r, x ≠ y → mem s0 !! y = None →
            treapAppend fuel key hk x s0 = Done r s1 → mem s1 !! y = None)
    as Hfresh.
  { intros x y s0 s1 key hk r Hne Hy Hrun.
    pose proof (keeps_treapAppend [x] fuel key hk x ltac:(left) _ _ _ Hrun y)
      as Hkeep.
    rewrite Hy in Hkeep. destruct (mem s1 !! y); [|done].
    exfalso. simpl in Hkeep.
    assert (y ∉ [x]) as Hny.
    { rewrite not_elem_of_cons. split; [done|apply not_elem_of_nil]. }
    by specialize (Hkeep Hny). }
  destruct (treapAppend_spec s Nil k1 h1 a fuel Hm0)
    as (s1 & Hrun1 & Hm1 & _); [done|done|simpl; lia|].
  change (appended k1 h1 a Nil) with (Bin Nil a k1 h1 Nil) in Hm1.
  destruct (treapAppend_spec s1 (Bin Nil a k1 h1 Nil) k2 h2 b fuel Hm1)
    as (s2 & Hrun2 & Hm2 & _).
  { unfold bst. simpl. by split_and!. }
  { eapply Hfresh; [|exact Hb|exact Hrun1]. done. }
  { simpl. lia. }
  assert (appended k2 h2 b (Bin Nil a k1 h1 Nil)
          = Bin Nil a k1 h1 (Bin Nil b k2 h2 Nil)) as Happ2.
  { unfold appended. cbn [seek]. rewrite E1. cbn [fkey seek]. rewrite E2.
    cbn [bubble fprio]. by rewrite E3. }
  rewrite Happ2 in Hm2.
  destruct (treapAppend_spec s2 (Bin Nil a k1 h1 (Bin Nil b k2 h2 Nil))
              k1 h3 c fuel Hm2)
    as (s3 & Hrun3 & Hm3 & _).
  { unfold bst. simpl. split_and!; try done.
    repeat constructor. unfold right_of. done. }
  { eapply Hfresh; [|eapply Hfresh; [|exact Hc|exact Hrun1]|exact Hrun2];
      done. }
  { simpl. lia. }
  assert (appended k1 h3 c (Bin Nil a k1 h1 (Bin Nil b k2 h2 Nil))
          = Bin Nil a k1 h1 (Bin (Bin Nil c k1 h3 Nil) b k2 h2 Nil)) as Happ3.
  { unfold appended. cbn [seek]. rewrite N.ltb_irrefl. cbn [seek].
    rewrite E4. cbn [fkey seek]. rewrite E5.
    cbn [bubble fprio]. by rewrite E6. }
  rewrite Happ3 in Hm3.
  erewrite bind_Done by exact Hrun1.
  erewrite bind_Done by exact Hrun2.
  erewrite bind_Done by exact Hrun3.
  rewrite (models_run_root _ _ _ Hm3).
  exists s3. eexists. split; [|split; [exact Hm3|split; [done|]]].
  - destruct s3 as [m3 rt3].
    rewrite (testInOrder_run m3 rt3 _ None fuel 1 (proj2 Hm3));
      [|done|simpl; lia].
    rewrite in_order_flag_ok; [done|]. simpl. split_and!; done.
  - intros Hbst. apply bst_NoDup_keys in Hbst. simpl in Hbst.
    apply NoDup_cons in Hbst as [Hnot _]. apply Hnot. left.
Qed.

Lemma testInOrder_misses_duplicate_witness :
  ∃ s' t',
    (treapAppend 3 1 10 1%positive >>
     treapAppend 3 2 5 2%positive >>
     treapAppend 3 1 3 3%positive >>
     let* r := get_root in testInOrder 3 r 1) empty_state = Done 1 s'
    ∧ models s' t' ∧ keys t' = [1; 1; 2] ∧ ¬ bst t'.
Proof.
  apply (testInOrder_misses_duplicate empty_state 1 2 10 5 3
           1%positive 2%positive 3%positive 3).
  - reflexivity.
  - reflexivity.
  - reflexivity.
  - reflexivity.
  - done.
  - done.
  - done.
  - lia.
  - lia.
  - lia.
  - lia.
Defined.
